(** * Topolang: lambda calculus to Set Lambda Calculus

    A shallow embedding of the ULC lexer and parser, the [SLC_set] term
    model with its [to_string], the two converters of [ULC_converter]
    ([convert_subset_dbj] and [convert_subset]), [make_number], and the
    bracket parser [toposet_parser::parse_toposet]. *)

From Stdlib Require Import List String Ascii ZArith NArith Lia Bool Arith.
From Stdlib Require Import Sorting.Sorted Sorting.Permutation.
From Stdlib Require Import DecimalString.
Import ListNotations.
Open Scope list_scope.
Open Scope string_scope.
Set Warnings "-register-all".

(** ** Set terms

    [SLC_element] is [std::variant<std::string_view, std::shared_ptr<SLC_set>,
    int>]; the alternatives are listed in the order of the variant, which is
    the order [std::variant]'s [operator<] compares indices in.  A
    [shared_ptr] is the address it holds together with the set stored
    there: no set is modified once it has been moved into a [make_shared],
    so the pointee is carried along with the address. *)

Definition addr := N.

Inductive SLC_element : Type :=
| string_view_elt (s : string)
| shared_ptr_elt (p : addr) (pointee : list SLC_element)
| int_elt (n : Z).

Arguments shared_ptr_elt p%_N pointee%_list.
Arguments int_elt n%_Z.

(** [SLC_set] has the single field [elements], a [std::set<SLC_element>]:
    the list of its elements in increasing order of [operator<]. *)
Definition SLC_set := list SLC_element.

Definition index (e : SLC_element) : nat :=
  match e with
  | string_view_elt _ => 0
  | shared_ptr_elt _ _ => 1
  | int_elt _ => 2
  end.

(** [operator<] of the variant as a three-way comparison: the index first,
    then the held values: [string_view]s by bytes, [shared_ptr]s by the
    address they hold, [int]s by value. *)
Definition elt_compare (x y : SLC_element) : comparison :=
  match x, y with
  | string_view_elt s, string_view_elt t => String.compare s t
  | shared_ptr_elt p _, shared_ptr_elt q _ => N.compare p q
  | int_elt n, int_elt m => Z.compare n m
  | _, _ => Nat.compare (index x) (index y)
  end.

Definition elt_lt (x y : SLC_element) : Prop := elt_compare x y = Lt.

(** [std::set::insert]: the element goes to its place in the order, and
    nothing happens when an equivalent element is already there. *)
Fixpoint set_insert (x : SLC_element) (s : SLC_set) : SLC_set :=
  match s with
  | [] => [x]
  | y :: s' =>
      match elt_compare x y with
      | Lt => x :: s
      | Eq => s
      | Gt => y :: set_insert x s'
      end
  end.

(** A term after a sequence of insertions into an empty one. *)
Definition insert_all (l : list SLC_element) : SLC_set :=
  fold_left (fun s e => set_insert e s) l [].

(** [operator<<] on an [int]. *)
Definition int_to_string (n : Z) : string :=
  NilZero.string_of_int (Z.to_int n).

(** [SLC_set::to_string]; [elems_to_string] is the loop over the
    elements, [first] telling whether [it == elements.begin()]. *)
Fixpoint elt_to_string (e : SLC_element) : string :=
  match e with
  | string_view_elt s => s
  | int_elt n => int_to_string n
  | shared_ptr_elt _ s =>
      "{" ++
      (fix elems_to_string (first : bool) (l : list SLC_element) : string :=
         match l with
         | [] => ""
         | e :: l' =>
             (if first then "" else ", ") ++ elt_to_string e
             ++ elems_to_string false l'
         end) true s
      ++ "}"
  end.

Fixpoint elems_to_string (first : bool) (l : list SLC_element) : string :=
  match l with
  | [] => ""
  | e :: l' =>
      (if first then "" else ", ") ++ elt_to_string e
      ++ elems_to_string false l'
  end.

Definition to_string (s : SLC_set) : string :=
  "{" ++ elems_to_string true s ++ "}".

(** ** Exceptions and the heap

    Every [throw] of the program is a [std::runtime_error]; the message
    tells the failures apart. *)

Inductive exception : Type := runtime_error (what : string).

Definition InvalidTokenError := runtime_error "Invalid token".
Definition UnbalancedParenError := runtime_error "Unbalanced parens!".
Definition UnknownVariableError := runtime_error "Unknown variable".
Definition UnhandledNodeError := runtime_error "Huh??".
Definition UnexpectedCloseBraceError := runtime_error "Unexpected '}'".
Definition IncompleteInputError := runtime_error "Could not parse!".

Inductive outcome (A : Type) : Type :=
| Returns (a : A)
| Throws (e : exception).

Arguments Returns {A} a.
Arguments Throws {A} e.

(** The heap is seen through the addresses [std::make_shared<SLC_set>]
    returns: [new_addr k] is the address of the set made by the [k]-th
    call, and the state threaded through the code is the number of calls
    made so far.  The addresses are chosen by the allocator, not by the
    program, so they stay a parameter. *)
Definition heap := nat.

Definition M (A : Type) : Type := heap -> outcome (A * heap).

Definition ret {A} (a : A) : M A := fun h => Returns (a, h).

Definition bind {A B} (m : M A) (k : A -> M B) : M B :=
  fun h => match m h with
           | Returns (a, h') => k a h'
           | Throws e => Throws e
           end.

Definition throw {A} (e : exception) : M A := fun _ => Throws e.

Notation "x <- m ;; k" := (bind m (fun x => k))
  (at level 61, m at next level, right associativity).

(** ** Tokens and syntax trees *)

Inductive ULC_token_type : Type :=
| LAMBDA | VARIABLE | DOT | O_PAREN | C_PAREN | EOF_TOK.

Record ULC_token : Type := mk_token {
  type : ULC_token_type;
  text : string
}.

(** [ULC_token()]. *)
Definition default_token : ULC_token := mk_token EOF_TOK "".

(** [ULC_AST_node], one constructor for each [ULC_AST_type] with the
    children the parser fills in for it.  The parser checks the children
    of a [DEFINITION] and of an [APPLICATION] against [nullptr] before it
    builds the node, and the converters read them without a check; the
    child of a [GROUP] is stored unchecked and may be null. *)
Inductive ULC_AST_node : Type :=
| ATOMIC (value : ULC_token)
| DEFINITION (right left : ULC_AST_node)
| APPLICATION (left right : ULC_AST_node)
| GROUP (right : option ULC_AST_node).

(** The [value] field; only an [ATOMIC] node has it set. *)
Definition value (node : ULC_AST_node) : ULC_token :=
  match node with
  | ATOMIC v => v
  | _ => default_token
  end.

(** [std::find(captured.begin(), captured.end(), var_name)] followed by
    [std::distance(captured.begin(), it) + 1]; [None] is
    [it == captured.end()].  The position is at most the length of the
    capture stack, so the [int] it is stored in is taken without
    wrap-around. *)
Fixpoint find_position (captured : list string) (var_name : string)
  : option Z :=
  match captured with
  | [] => None
  | x :: captured' =>
      if String.eqb x var_name then Some 1%Z
      else option_map Z.succ (find_position captured' var_name)
  end.

(** ** The lexer *)

(** [std::isspace] and [std::isalnum] in the "C" locale; a byte above 127
    is neither. *)
Definition isspace (ch : ascii) : bool :=
  let c := nat_of_ascii ch in
  (c =? 32)%nat || ((9 <=? c)%nat && (c <=? 13)%nat).

Definition isalnum (ch : ascii) : bool :=
  let c := nat_of_ascii ch in
  ((48 <=? c)%nat && (c <=? 57)%nat)
  || ((65 <=? c)%nat && (c <=? 90)%nat)
  || ((97 <=? c)%nat && (c <=? 122)%nat).

Record ULC_lexer : Type := mk_lexer {
  text_ : string;
  pos_ : nat
}.

(** The number of characters at the head of [s] that satisfy [p]: how far
    each of the two [while] loops of [next_token] moves [pos_]. *)
Fixpoint run_length (p : ascii -> bool) (s : string) : nat :=
  match s with
  | EmptyString => 0
  | String ch s' => if p ch then S (run_length p s') else 0
  end.

(** [text_] from [pos] on. *)
Definition from_pos (lexer : ULC_lexer) (pos : nat) : string :=
  substring pos (String.length (text_ lexer) - pos) (text_ lexer).

(** [ULC_lexer::next_token]. *)
Definition lexer_next_token (lexer : ULC_lexer)
  : outcome (ULC_token * ULC_lexer) :=
  let pos := pos_ lexer + run_length isspace (from_pos lexer (pos_ lexer)) in
  let advance n := mk_lexer (text_ lexer) (pos + n) in
  match String.get pos (text_ lexer) with
  | None => Returns (mk_token EOF_TOK "", advance 0)
  | Some ch =>
      let original_pos := pos in
      if Ascii.eqb ch "." then Returns (mk_token DOT ".", advance 1)
      else if Ascii.eqb ch "\" then Returns (mk_token LAMBDA "\", advance 1)
      else if Ascii.eqb ch "(" then Returns (mk_token O_PAREN "(", advance 1)
      else if Ascii.eqb ch ")" then Returns (mk_token C_PAREN ")", advance 1)
      else if isalnum ch then
        let n := run_length isalnum (from_pos lexer pos) in
        Returns (mk_token VARIABLE (substring original_pos n (text_ lexer)),
                 advance n)
      else Throws InvalidTokenError
  end.

(** ** The parser

    [ULC_parser] with its three fields.  The parsing functions call each
    other recursively; [fuel] bounds the depth of those calls, and [None]
    is returned only when the bound is reached. *)

Record ULC_parser : Type := mk_parser {
  lexer_ : ULC_lexer;
  tokens_ : list ULC_token;
  token_id_ : nat
}.

Definition P (A : Type) : Type :=
  ULC_parser -> option (outcome (A * ULC_parser)).

Definition pret {A} (a : A) : P A := fun p => Some (Returns (a, p)).

Definition pbind {A B} (m : P A) (k : A -> P B) : P B :=
  fun p => match m p with
           | Some (Returns (a, p')) => k a p'
           | Some (Throws e) => Some (Throws e)
           | None => None
           end.

Definition pthrow {A} (e : exception) : P A := fun _ => Some (Throws e).

Definition out_of_fuel {A} : P A := fun _ => None.

Notation "x <~ m ;; k" := (pbind m (fun x => k))
  (at level 61, m at next level, right associativity).

(** The constructor: the first token is read at once. *)
Definition new_parser (lexer : ULC_lexer) : outcome ULC_parser :=
  match lexer_next_token lexer with
  | Returns (tok, lexer') => Returns (mk_parser lexer' [tok] 0)
  | Throws e => Throws e
  end.

Definition peek : P ULC_token :=
  fun p => Some (Returns (nth (token_id_ p) (tokens_ p) default_token, p)).

(** [ULC_parser::next_token]: grab the next token from the lexer if we
    have not already. *)
Definition next_token : P ULC_token :=
  fun p =>
    let id := S (token_id_ p) in
    if (List.length (tokens_ p) <=? id)%nat then
      match lexer_next_token (lexer_ p) with
      | Returns (tok, lexer') =>
          let tokens := (tokens_ p ++ [tok])%list in
          Some (Returns (nth id tokens default_token,
                         mk_parser lexer' tokens id))
      | Throws e => Some (Throws e)
      end
    else
      Some (Returns (nth id (tokens_ p) default_token,
                     mk_parser (lexer_ p) (tokens_ p) id)).

Definition get_token_id : P nat :=
  fun p => Some (Returns (token_id_ p, p)).

Definition set_token_id (id : nat) : P unit :=
  fun p => Some (Returns (tt, mk_parser (lexer_ p) (tokens_ p) id)).

Definition token_type_eqb (a b : ULC_token_type) : bool :=
  match a, b with
  | LAMBDA, LAMBDA | VARIABLE, VARIABLE | DOT, DOT
  | O_PAREN, O_PAREN | C_PAREN, C_PAREN | EOF_TOK, EOF_TOK => true
  | _, _ => false
  end.

(** True if a token of the type can be consumed. *)
Definition consume_type (t : ULC_token_type) : P bool :=
  tok <~ peek ;;
  if token_type_eqb (type tok) t then
    _ <~ next_token ;; pret true
  else pret false.

(** The node of the consumed variable, or null. *)
Definition consume_variable : P (option ULC_AST_node) :=
  tok <~ peek ;;
  if token_type_eqb (type tok) VARIABLE then
    _ <~ next_token ;; pret (Some (ATOMIC tok))
  else pret None.

Fixpoint parse_expression (fuel : nat) : P (option ULC_AST_node) :=
  match fuel with
  | O => out_of_fuel
  | S fuel =>
      tok <~ peek ;;
      if token_type_eqb (type tok) LAMBDA then
        parse_abstraction fuel
      else
        head <~ parse_atomic fuel ;;
        match head with
        | None => pret None
        | Some head => application_loop fuel head
        end
  end

(** The [while (true)] loop of [parse_expression]. *)
with application_loop (fuel : nat) (head : ULC_AST_node)
  : P (option ULC_AST_node) :=
  match fuel with
  | O => out_of_fuel
  | S fuel =>
      tok <~ peek ;;
      if token_type_eqb (type tok) VARIABLE
         || token_type_eqb (type tok) O_PAREN then
        next_arg <~ parse_atomic fuel ;;
        match next_arg with
        | None => pret (Some head)
        | Some next_arg => application_loop fuel (APPLICATION head next_arg)
        end
      else pret (Some head)
  end

with parse_abstraction (fuel : nat) : P (option ULC_AST_node) :=
  match fuel with
  | O => out_of_fuel
  | S fuel =>
      original_id <~ get_token_id ;;
      let backtrack : P (option ULC_AST_node) :=
        _ <~ set_token_id original_id ;; pret None in
      is_lambda <~ consume_type LAMBDA ;;
      if is_lambda then
        var <~ consume_variable ;;
        match var with
        | Some var =>
            is_dot <~ consume_type DOT ;;
            if is_dot then
              expr <~ parse_expression fuel ;;
              match expr with
              | Some expr => pret (Some (DEFINITION var expr))
              | None => backtrack
              end
            else backtrack
        | None => backtrack
        end
      else backtrack
  end

with parse_atomic (fuel : nat) : P (option ULC_AST_node) :=
  match fuel with
  | O => out_of_fuel
  | S fuel =>
      is_paren <~ consume_type O_PAREN ;;
      if is_paren then
        inner <~ parse_expression fuel ;;
        closed <~ consume_type C_PAREN ;;
        if negb closed then pthrow UnbalancedParenError
        else pret (Some (GROUP inner))
      else consume_variable
  end.

(** [ULC_parser::parse]. *)
Definition parse (fuel : nat) : P (option ULC_AST_node) :=
  parse_expression fuel.

(** The constructor [ULC_converter(std::string_view text)]: the value of
    [root_], which is null when no production matched. *)
Definition parse_text (fuel : nat) (source : string)
  : option (outcome (option ULC_AST_node)) :=
  let lexer := mk_lexer source 0 in
  match new_parser lexer with
  | Throws e => Some (Throws e)
  | Returns parser =>
      match parse fuel parser with
      | Some (Returns (root, _)) => Some (Returns root)
      | Some (Throws e) => Some (Throws e)
      | None => None
      end
  end.

Section Heap.

Variable new_addr : nat -> addr.

Definition make_shared (s : SLC_set) : M SLC_element :=
  fun h => Returns (shared_ptr_elt (new_addr h) s, S h).

(** [ULC_converter::make_number]; [add_extras] is its [for] loop, run
    [number - 1] times (not at all when [number <= 1]). *)
Fixpoint add_extras (count : nat) (num_top : SLC_set) : M SLC_set :=
  match count with
  | O => ret num_top
  | S count' =>
      let extra : SLC_set := [] in
      p <- make_shared extra ;;
      add_extras count' (set_insert p num_top)
  end.

Definition make_number (number : Z) : M SLC_set :=
  let num_base_r : SLC_set := [] in
  let num_base_l : SLC_set := [] in
  let num_base : SLC_set := [] in
  pr <- make_shared num_base_r ;;
  let num_base := set_insert pr num_base in
  pl <- make_shared num_base_l ;;
  let num_base := set_insert pl num_base in
  let num_top : SLC_set := [] in
  pb <- make_shared num_base ;;
  let num_top := set_insert pb num_top in
  add_extras (Z.to_nat (number - 1)) num_top.

(** The lookup of a variable shared by all six places it is written out
    in the converters. *)
Definition resolve (captured : list string) (var_name : string) : M Z :=
  match find_position captured var_name with
  | None => throw UnknownVariableError
  | Some position => ret position
  end.

(** [ULC_converter::convert_subset_dbj] on a node that is not null. *)
Fixpoint convert_subset_dbj (node : ULC_AST_node) (lambda_depth : Z)
    (captured : list string) : M SLC_set :=
  let ret_set : SLC_set := [] in
  match node with
  | DEFINITION node_right node_left =>
      let ret_set := set_insert (string_view_elt "λ") ret_set in
      let captured := text (value node_right) :: captured in
      match node_left with
      | ATOMIC v =>
          let var_name := text v in
          position <- resolve captured var_name ;;
          ret (set_insert (int_elt position) ret_set)
      | _ =>
          sub_set <- convert_subset_dbj node_left (lambda_depth + 1) captured ;;
          p <- make_shared sub_set ;;
          ret (set_insert p ret_set)
      end
  | APPLICATION node_left node_right =>
      let promote_set : SLC_set := [] in
      promote_set <-
        match node_left with
        | ATOMIC v =>
            let var_name := text v in
            position <- resolve captured var_name ;;
            ret (set_insert (int_elt position) promote_set)
        | _ =>
            sub_set <- convert_subset_dbj node_left lambda_depth captured ;;
            p <- make_shared sub_set ;;
            ret (set_insert p promote_set)
        end ;;
      pp <- make_shared promote_set ;;
      let ret_set := set_insert pp ret_set in
      match node_right with
      | ATOMIC v =>
          let var_name := text v in
          position <- resolve captured var_name ;;
          ret (set_insert (int_elt position) ret_set)
      | _ =>
          sub_set <- convert_subset_dbj node_right lambda_depth captured ;;
          p <- make_shared sub_set ;;
          ret (set_insert p ret_set)
      end
  | GROUP node_right =>
      match node_right with
      | None => ret ret_set
      | Some inner => convert_subset_dbj inner lambda_depth captured
      end
  | ATOMIC _ => ret ret_set
  end.

(** [ULC_converter::convert_subset] on a node that is not null. *)
Fixpoint convert_subset (node : ULC_AST_node) (lambda_depth : Z)
    (captured : list string) : M SLC_set :=
  let ret_set : SLC_set := [] in
  match node with
  | DEFINITION node_right node_left =>
      let lambda_top : SLC_set := [] in
      let lambda_base : SLC_set := [] in
      pbase <- make_shared lambda_base ;;
      let lambda_top := set_insert pbase lambda_top in
      ptop <- make_shared lambda_top ;;
      let ret_set := set_insert ptop ret_set in
      let captured := text (value node_right) :: captured in
      match node_left with
      | ATOMIC v =>
          let var_name := text v in
          position <- resolve captured var_name ;;
          num <- make_number position ;;
          p <- make_shared num ;;
          ret (set_insert p ret_set)
      | _ =>
          sub_set <- convert_subset node_left (lambda_depth + 1) captured ;;
          p <- make_shared sub_set ;;
          ret (set_insert p ret_set)
      end
  | APPLICATION node_left node_right =>
      let promote_set : SLC_set := [] in
      promote_set <-
        match node_left with
        | ATOMIC v =>
            let var_name := text v in
            position <- resolve captured var_name ;;
            num <- make_number position ;;
            p <- make_shared num ;;
            ret (set_insert p promote_set)
        | _ =>
            sub_set <- convert_subset node_left lambda_depth captured ;;
            p <- make_shared sub_set ;;
            ret (set_insert p promote_set)
        end ;;
      pp <- make_shared promote_set ;;
      let ret_set := set_insert pp ret_set in
      match node_right with
      | ATOMIC v =>
          let var_name := text v in
          position <- resolve captured var_name ;;
          num <- make_number position ;;
          p <- make_shared num ;;
          ret (set_insert p ret_set)
      | _ =>
          sub_set <- convert_subset node_right lambda_depth captured ;;
          p <- make_shared sub_set ;;
          ret (set_insert p ret_set)
      end
  | GROUP node_right =>
      match node_right with
      | None => ret ret_set
      | Some inner => convert_subset inner lambda_depth captured
      end
  | ATOMIC _ => throw UnhandledNodeError
  end.

(** [convert_dbj] and [convert], on the root pointer, which is null when
    the parser matched nothing. *)
Definition convert_dbj (root_ : option ULC_AST_node) : M SLC_set :=
  let captured : list string := [] in
  match root_ with
  | None => ret []
  | Some node => convert_subset_dbj node 0 captured
  end.

Definition convert (root_ : option ULC_AST_node) : M SLC_set :=
  let captured : list string := [] in
  match root_ with
  | None => ret []
  | Some node => convert_subset node 0 captured
  end.

(** ** The bracket parser

    [toposet_parser::parse_toposet]: the loop over the characters of
    [str_], with the stack [stk] (top first). *)
Fixpoint parse_toposet_loop (str : string) (stk : list SLC_set)
  : M SLC_set :=
  match str with
  | EmptyString => throw IncompleteInputError
  | String ch str' =>
      if Ascii.eqb ch "{" then
        let next : SLC_set := [] in
        parse_toposet_loop str' (next :: stk)
      else if Ascii.eqb ch "}" then
        match stk with
        | [] => throw UnexpectedCloseBraceError
        | completed_set :: stk =>
            match stk with
            | top :: stk =>
                p <- make_shared completed_set ;;
                parse_toposet_loop str' (set_insert p top :: stk)
            | [] => ret completed_set
            end
        end
      else parse_toposet_loop str' stk
  end.

Definition parse_toposet (str_ : string) : M SLC_set :=
  parse_toposet_loop str_ [].

(** ** From source text to the rendered term

    What [display] prints for each mode: the text is parsed, the root is
    converted, and the resulting term is rendered. *)
Definition rendered (m : M SLC_set) (h : heap) : outcome string :=
  match m h with
  | Returns (s, _) => Returns (to_string s)
  | Throws e => Throws e
  end.

Definition display_dbj (fuel : nat) (source : string) (h : heap)
  : option (outcome string) :=
  match parse_text fuel source with
  | Some (Returns root_) => Some (rendered (convert_dbj root_) h)
  | Some (Throws e) => Some (Throws e)
  | None => None
  end.

Definition display_slc (fuel : nat) (source : string) (h : heap)
  : option (outcome string) :=
  match parse_text fuel source with
  | Some (Returns root_) => Some (rendered (convert root_) h)
  | Some (Throws e) => Some (Throws e)
  | None => None
  end.

End Heap.

(** ** Properties the statements below are about *)

(** Two elements are equivalent for the container when neither is less
    than the other: same text, same address, or same integer. *)
Definition equivalent (x y : SLC_element) : Prop :=
  match x, y with
  | string_view_elt s, string_view_elt t => s = t
  | shared_ptr_elt p _, shared_ptr_elt q _ => p = q
  | int_elt n, int_elt m => n = m
  | _, _ => False
  end.

(** The invariant of [std::set]: increasing for [operator<], hence free
    of equivalent elements. *)
Definition sorted (s : SLC_set) : Prop := StronglySorted elt_lt s.

(** One address holds one set: two [shared_ptr]s of [l] with the same
    address point to the same set. *)
Definition pointers_consistent (l : list SLC_element) : Prop :=
  forall p s s',
    In (shared_ptr_elt p s) l -> In (shared_ptr_elt p s') l -> s = s'.

(** Sets that are alive together have different addresses. *)
Definition distinct_addresses (new_addr : nat -> addr) : Prop :=
  forall i j, new_addr i = new_addr j -> i = j.

(** Every allocation lands above the earlier ones. *)
Definition increasing_addresses (new_addr : nat -> addr) : Prop :=
  forall i j, (i < j)%nat -> (new_addr i < new_addr j)%N.

(** *** Numerals *)

(** The rendering C5 gives for [make_number n]: the base with [n - 1]
    empty sets after it. *)
Definition numeral_string (n : Z) : string :=
  "{{{}, {}}" ++ String.concat "" (repeat ", {}" (Z.to_nat (n - 1))) ++ "}".

(** An allocator that hands addresses out in pairs, the higher one first;
    every address is used once. *)
Definition pairwise_swapped (k : nat) : addr :=
  N.of_nat (if Nat.even k then S k else pred k).

(** *** Outcomes and scopes *)

(** The outcomes of a conversion that the statements tell apart. *)
Definition returns {A} (r : outcome A) : Prop := exists a, r = Returns a.

(** A variable reference is bound when its name is on the capture stack,
    which holds the names of the enclosing [DEFINITION]s. *)
Fixpoint closed (captured : list string) (node : ULC_AST_node) : Prop :=
  match node with
  | ATOMIC v => In (text v) captured
  | DEFINITION binder body => closed (text (value binder) :: captured) body
  | APPLICATION f a => closed captured f /\ closed captured a
  | GROUP None => True
  | GROUP (Some inner) => closed captured inner
  end.

(** [P] is asked of a child unless the child is a variable. *)
Definition operand_of (P : ULC_AST_node -> Prop) (node : ULC_AST_node) : Prop :=
  match node with
  | ATOMIC _ => True
  | _ => P node
  end.

(** Variables stand only where the converters look for them: as the body
    of a [DEFINITION] or as an operand of an [APPLICATION], never at the
    root and never directly inside a [GROUP]. *)
Fixpoint variables_are_operands (node : ULC_AST_node) : Prop :=
  match node with
  | ATOMIC _ => False
  | DEFINITION _ body => operand_of variables_are_operands body
  | APPLICATION f a =>
      operand_of variables_are_operands f /\ operand_of variables_are_operands a
  | GROUP None => True
  | GROUP (Some inner) => variables_are_operands inner
  end.

(** A variable with nothing around it but parentheses. *)
Inductive bare_atomic : ULC_AST_node -> Prop :=
| bare_variable v : bare_atomic (ATOMIC v)
| bare_group inner : bare_atomic inner -> bare_atomic (GROUP (Some inner)).

(** Name-preserving mode either returns or gives up on a bare variable:
    on a closed tree it never reports an unknown variable. *)
Definition returns_or_unhandled {A} (r : outcome A) : Prop :=
  returns r \/ r = Throws UnhandledNodeError.

(** Induction on syntax trees that also reaches inside a [GROUP]. *)
Fixpoint node_induction (P : ULC_AST_node -> Prop)
    (Hatomic : forall v, P (ATOMIC v))
    (Hdefinition : forall binder, P binder -> forall body, P body ->
                                  P (DEFINITION binder body))
    (Happlication : forall f, P f -> forall a, P a -> P (APPLICATION f a))
    (Hgroup : forall inner, P inner -> P (GROUP (Some inner)))
    (Hnull : P (GROUP None))
    (node : ULC_AST_node) : P node :=
  let rec := node_induction P Hatomic Hdefinition Happlication Hgroup Hnull in
  match node with
  | ATOMIC v => Hatomic v
  | DEFINITION binder body => Hdefinition binder (rec binder) body (rec body)
  | APPLICATION f a => Happlication f (rec f) a (rec a)
  | GROUP (Some inner) => Hgroup inner (rec inner)
  | GROUP None => Hnull
  end.

(** *** Resolved terms *)

(** A term with its variables resolved: what both modes have in common.
    An operand is either a variable, kept as its 1-based distance to the
    binder, or a converted subterm. *)
Inductive resolved : Type :=
| R_null
| R_lambda (body : operand)
| R_apply (f a : operand)
with operand : Type :=
| O_index (position : Z)
| O_term (t : resolved).

(** The resolved term of a tree under a capture stack; there is none when
    a variable is not on the stack or stands where no converter looks. *)
Fixpoint resolve_term (node : ULC_AST_node) (captured : list string)
  : option resolved :=
  match node with
  | ATOMIC _ => None
  | DEFINITION binder body =>
      let captured := text (value binder) :: captured in
      match body with
      | ATOMIC v =>
          option_map (fun n => R_lambda (O_index n))
            (find_position captured (text v))
      | _ =>
          option_map (fun t => R_lambda (O_term t))
            (resolve_term body captured)
      end
  | APPLICATION f a =>
      match
        match f with
        | ATOMIC v => option_map O_index (find_position captured (text v))
        | _ => option_map O_term (resolve_term f captured)
        end,
        match a with
        | ATOMIC v => option_map O_index (find_position captured (text v))
        | _ => option_map O_term (resolve_term a captured)
        end
      with
      | Some rf, Some ra => Some (R_apply rf ra)
      | _, _ => None
      end
  | GROUP None => Some R_null
  | GROUP (Some inner) => resolve_term inner captured
  end.

Definition resolve_operand (node : ULC_AST_node) (captured : list string)
  : option operand :=
  match node with
  | ATOMIC v => option_map O_index (find_position captured (text v))
  | _ => option_map O_term (resolve_term node captured)
  end.

Section Renderings.

Variable new_addr : nat -> addr.

(** What both branches of the [if (... ->type == ATOMIC)] tests produce:
    the element inserted for a child. *)
Definition dbj_operand (node : ULC_AST_node) (lambda_depth : Z)
    (captured : list string) : M SLC_element :=
  match node with
  | ATOMIC v =>
      position <- resolve captured (text v) ;; ret (int_elt position)
  | _ =>
      sub_set <- convert_subset_dbj new_addr node lambda_depth captured ;;
      make_shared new_addr sub_set
  end.

Definition slc_operand (node : ULC_AST_node) (lambda_depth : Z)
    (captured : list string) : M SLC_element :=
  match node with
  | ATOMIC v =>
      position <- resolve captured (text v) ;;
      num <- make_number new_addr position ;;
      make_shared new_addr num
  | _ =>
      sub_set <- convert_subset new_addr node lambda_depth captured ;;
      make_shared new_addr sub_set
  end.

(** Elements made by [make_shared] before the heap reached state [h]. *)
Definition made_before (h : heap) (e : SLC_element) : Prop :=
  exists i s, e = shared_ptr_elt (new_addr i) s /\ (i < h)%nat.

Definition extras (h : heap) (count : nat) : list SLC_element :=
  map (fun i => shared_ptr_elt (new_addr i) []) (seq h count).

(** The binder in name-preserving mode: [{{}}] inside the result. *)
Definition lambda_marker : M SLC_element :=
  pbase <- make_shared new_addr [] ;;
  make_shared new_addr [pbase].

(** De Bruijn rendering of a resolved term: the symbol [λ] for a binder,
    the integer [n] for a variable at distance [n]. *)
Fixpoint emit_dbj (t : resolved) : M SLC_set :=
  match t with
  | R_null => ret []
  | R_lambda body =>
      e <- emit_dbj_operand body ;;
      ret (set_insert e [string_view_elt "λ"])
  | R_apply f a =>
      ef <- emit_dbj_operand f ;;
      pp <- make_shared new_addr [ef] ;;
      ea <- emit_dbj_operand a ;;
      ret (set_insert ea [pp])
  end
with emit_dbj_operand (o : operand) : M SLC_element :=
  match o with
  | O_index n => ret (int_elt n)
  | O_term t => s <- emit_dbj t ;; make_shared new_addr s
  end.

(** Name-preserving rendering of the same term: the nested [{{}}] for a
    binder, [make_number n] for a variable at distance [n]. *)
Fixpoint emit_slc (t : resolved) : M SLC_set :=
  match t with
  | R_null => ret []
  | R_lambda body =>
      ptop <- lambda_marker ;;
      e <- emit_slc_operand body ;;
      ret (set_insert e [ptop])
  | R_apply f a =>
      ef <- emit_slc_operand f ;;
      pp <- make_shared new_addr [ef] ;;
      ea <- emit_slc_operand a ;;
      ret (set_insert ea [pp])
  end
with emit_slc_operand (o : operand) : M SLC_element :=
  match o with
  | O_index n => num <- make_number new_addr n ;; make_shared new_addr num
  | O_term t => s <- emit_slc t ;; make_shared new_addr s
  end.

End Renderings.

(** *** Bracket skeletons *)

(** The nesting skeleton of a bracket text: a group and the groups
    directly inside it. *)
Inductive group : Type := Group (children : list group).

(** A group written out with nothing but braces. *)
Fixpoint print (g : group) : string :=
  match g with
  | Group children =>
      "{" ++
      (fix print_list (l : list group) : string :=
         match l with
         | [] => ""
         | c :: l' => print c ++ print_list l'
         end) children
      ++ "}"
  end.

Fixpoint print_list (l : list group) : string :=
  match l with
  | [] => ""
  | c :: l' => print c ++ print_list l'
  end.

(** The groups still open, innermost first, each with the groups already
    closed inside it, followed by the brace that closes it. *)
Fixpoint print_levels (levels : list (list group)) : string :=
  match levels with
  | [] => ""
  | l :: levels' => print_list l ++ "}" ++ print_levels levels'
  end.

Definition is_brace (ch : ascii) : bool :=
  Ascii.eqb ch "{" || Ascii.eqb ch "}".

(** The braces of a text, everything else dropped. *)
Fixpoint braces (str : string) : string :=
  match str with
  | EmptyString => ""
  | String ch str' =>
      if is_brace ch then String ch (braces str') else braces str'
  end.

Fixpoint group_induction (P : group -> Prop)
    (H : forall children, Forall P children -> P (Group children))
    (g : group) : P g :=
  match g with
  | Group children =>
      H children
        ((fix all (l : list group) : Forall P l :=
            match l with
            | [] => Forall_nil P
            | c :: l' => Forall_cons c (group_induction P H c) (all l')
            end) children)
  end.

Section Building.

Variable new_addr : nat -> addr.

(** The term of a group: the terms of its children, each moved into a
    [make_shared] when its closing brace is met and inserted into the term
    of the group. *)
Fixpoint build (g : group) : M SLC_set :=
  match g with
  | Group children =>
      (fix build_list (l : list group) (acc : SLC_set) : M SLC_set :=
         match l with
         | [] => ret acc
         | c :: l' =>
             s <- build c ;;
             p <- make_shared new_addr s ;;
             build_list l' (set_insert p acc)
         end) children []
  end.

Fixpoint build_list (l : list group) (acc : SLC_set) : M SLC_set :=
  match l with
  | [] => ret acc
  | c :: l' =>
      s <- build c ;;
      p <- make_shared new_addr s ;;
      build_list l' (set_insert p acc)
  end.

End Building.

(** What the braces of a text amount to for a reader that has [depth]
    groups open: a first complete top-level group, a closing brace with
    nothing open, or neither before the text ends. *)
Inductive verdict : Type := Completes | UnmatchedClose | NeverCompletes.

Fixpoint scan (str : string) (depth : nat) : verdict :=
  match str with
  | EmptyString => NeverCompletes
  | String ch str' =>
      if Ascii.eqb ch "{" then scan str' (S depth)
      else if Ascii.eqb ch "}" then
        match depth with
        | O => UnmatchedClose
        | S O => Completes
        | S depth' => scan str' depth'
        end
      else scan str' depth
  end.

(** How many times [c] occurs in [str]; [opens] and [closes] count the
    two braces. *)
Fixpoint count_char (c : ascii) (str : string) : nat :=
  match str with
  | EmptyString => 0
  | String ch str' =>
      (if Ascii.eqb ch c then 1 else 0) + count_char c str'
  end.

Definition opens (str : string) : nat := count_char "{" str.
Definition closes (str : string) : nat := count_char "}" str.

(** *** Properties of source texts *)

(** A character some token can start with, or white space. *)
Definition lexable_char (ch : ascii) : bool :=
  isspace ch || isalnum ch || Ascii.eqb ch "." || Ascii.eqb ch "\"
  || Ascii.eqb ch "(" || Ascii.eqb ch ")".

Definition lexable (source : string) : Prop :=
  forall n ch, String.get n source = Some ch -> lexable_char ch = true.

(** Every character of [s] satisfies [p]. *)
Fixpoint all_chars (p : ascii -> bool) (s : string) : bool :=
  match s with
  | EmptyString => true
  | String c s' => p c && all_chars p s'
  end.

(** The parser has no exception for "no production matches": it returns
    a null pointer, and [root_] stays null. *)
Definition no_production : outcome (option ULC_AST_node) := Returns None.

(** The first token of a text, the one the constructor of the parser
    reads. *)
Definition first_token (source : string) : outcome (ULC_token * ULC_lexer) :=
  lexer_next_token (mk_lexer source 0).

(** *** Parser states *)

(** The characters the lexer has not read yet. *)
Definition remaining (lexer : ULC_lexer) : nat :=
  String.length (text_ lexer) - pos_ lexer.

(** The cursor of the lexer is within the text or at its end. *)
Definition lexer_ok (lexer : ULC_lexer) : Prop :=
  (pos_ lexer <= String.length (text_ lexer))%nat.

(** [s] without its first [n] characters. *)
Fixpoint drop (n : nat) (s : string) : string :=
  match n, s with
  | O, _ => s
  | S n', String _ s' => drop n' s'
  | S _, EmptyString => EmptyString
  end.

(** Any token but [EOF_TOK]. *)
Definition non_eof (tok : ULC_token) : bool :=
  negb (token_type_eqb (type tok) EOF_TOK).

(** The token under the cursor, [tokens_[token_id_]]. *)
Definition current (p : ULC_parser) : ULC_token :=
  nth (token_id_ p) (tokens_ p) default_token.

(** What is left to consume: the characters not yet read by the lexer and
    the tokens already read from the cursor on, [EOF_TOK] left out. *)
Definition pending (p : ULC_parser) : nat :=
  List.length (filter non_eof (skipn (token_id_ p) (tokens_ p))).

(** The bound on what a parsing function can still consume. *)
Definition measure (p : ULC_parser) : nat :=
  (remaining (lexer_ p) + pending p)%nat.

Section ParserInvariants.

Variable source : string.

(** A closing parenthesis among the tokens comes from one in the text. *)
Definition token_of_source (tok : ULC_token) : Prop :=
  type tok = C_PAREN -> exists n, String.get n source = Some ")"%char.

(** The state of a parser at work on [source]: the lexer is within the
    text and the cursor is on a token that has been read. *)
Definition parser_ok (p : ULC_parser) : Prop :=
  text_ (lexer_ p) = source
  /\ lexer_ok (lexer_ p)
  /\ (token_id_ p < List.length (tokens_ p))%nat
  /\ Forall token_of_source (tokens_ p).

(** [p'] comes after [p]: more tokens may have been read, each token but
    [EOF_TOK] for at least one character. *)
Definition extends (p p' : ULC_parser) : Prop :=
  exists new,
    tokens_ p' = (tokens_ p ++ new)%list
    /\ (remaining (lexer_ p') + List.length (filter non_eof new)
        <= remaining (lexer_ p))%nat.

(** [p'] is a state reached from [p] with the cursor no further back. *)
Definition step (p p' : ULC_parser) : Prop :=
  parser_ok p' /\ extends p p' /\ (token_id_ p <= token_id_ p')%nat
  /\ (measure p' <= measure p)%nat.

(** The failures a parse can end with: unbalanced parentheses, or a
    character of the text that starts no token. *)
Definition allowed (e : exception) : Prop :=
  e = UnbalancedParenError \/ (e = InvalidTokenError /\ ~ lexable source).

(** [m] run from [p] does not run out of fuel; it returns a result and a
    state satisfying [Q] or throws an allowed exception. *)
Definition ensures {A} (m : P A) (p : ULC_parser)
    (Q : A -> ULC_parser -> Prop) : Prop :=
  match m p with
  | Some (Returns (a, p')) => Q a p'
  | Some (Throws e) => allowed e
  | None => False
  end.

(** What a parsing function leaves behind: a state that comes after the
    one it started from, with less to consume when a node is returned. *)
Definition post (p : ULC_parser) (res : option ULC_AST_node)
    (p' : ULC_parser) : Prop :=
  step p p' /\ (res <> None -> (measure p' < measure p)%nat).

End ParserInvariants.

(** Whatever [m] answers without running out of fuel, [m'] answers too. *)
Definition refines {A} (m m' : P A) : Prop :=
  forall p r, m p = Some r -> m' p = Some r.

(** *** Lexer states *)

(** The cursor of [lexer] stands [k] white-space characters before the
    next character that is not white space, or before the end. *)
Definition spaces_ahead (lexer : ULC_lexer) (k : nat) : Prop :=
  (forall i, (i < k)%nat ->
     exists ch, String.get (pos_ lexer + i) (text_ lexer) = Some ch
                /\ isspace ch = true)
  /\ (forall ch, String.get (pos_ lexer + k) (text_ lexer) = Some ch ->
                 isspace ch = false).

(** *** The grammar of parsed trees *)

Section Grammar.

(** What is asked of the name of a variable. *)
Variable name_ok : string -> Prop.

Definition variable_token (tok : ULC_token) : Prop :=
  type tok = VARIABLE /\ name_ok (text tok).

(** The trees of the grammar
    [e ::= \v. e | s], [s ::= a | s a], [a ::= v | ( e ) | ( )]:
    the binder of a [DEFINITION] is a variable, applications nest to the
    left and their arguments are atoms. *)
Inductive expression : ULC_AST_node -> Prop :=
| expression_abstraction var body :
    variable_token var -> expression body ->
    expression (DEFINITION (ATOMIC var) body)
| expression_spine node : spine node -> expression node
with spine : ULC_AST_node -> Prop :=
| spine_atom node : atom node -> spine node
| spine_application func arg :
    spine func -> atom arg -> spine (APPLICATION func arg)
with atom : ULC_AST_node -> Prop :=
| atom_variable var : variable_token var -> atom (ATOMIC var)
| atom_group inner : expression inner -> atom (GROUP (Some inner))
| atom_empty : atom (GROUP None).

(** Every [VARIABLE] token the parser holds has a good name. *)
Definition lexed (p : ULC_parser) : Prop :=
  Forall (fun tok => type tok = VARIABLE -> name_ok (text tok)) (tokens_ p).

End Grammar.

(** The names the lexer accepts: letters and digits, at least one. *)
Definition identifier (s : string) : Prop :=
  s <> "" /\ all_chars isalnum s = true.

(** Whatever [m] returns from [p] satisfies [Q]. *)
Definition whenever {A} (m : P A) (p : ULC_parser)
    (Q : A -> ULC_parser -> Prop) : Prop :=
  forall a p', m p = Some (Returns (a, p')) -> Q a p'.

(** What a parsing function leaves behind: a node of the right shape and
    the cursor further on, or null and the cursor where it was. *)
Definition parsed (name_ok : string -> Prop) (shape : ULC_AST_node -> Prop)
    (p : ULC_parser) (res : option ULC_AST_node) (p' : ULC_parser) : Prop :=
  lexed name_ok p'
  /\ match res with
     | Some node => shape node /\ (token_id_ p < token_id_ p')%nat
     | None => token_id_ p' = token_id_ p
     end.

(** Induction on resolved terms and their operands together. *)
Fixpoint resolved_induction (P : resolved -> Prop) (Q : operand -> Prop)
    (Hnull : P R_null)
    (Hlambda : forall body, Q body -> P (R_lambda body))
    (Happly : forall f, Q f -> forall a, Q a -> P (R_apply f a))
    (Hindex : forall position, Q (O_index position))
    (Hterm : forall t, P t -> Q (O_term t))
    (t : resolved) : P t :=
  match t with
  | R_null => Hnull
  | R_lambda body =>
      Hlambda body
        (operand_induction P Q Hnull Hlambda Happly Hindex Hterm body)
  | R_apply f a =>
      Happly f (operand_induction P Q Hnull Hlambda Happly Hindex Hterm f)
             a (operand_induction P Q Hnull Hlambda Happly Hindex Hterm a)
  end
with operand_induction (P : resolved -> Prop) (Q : operand -> Prop)
    (Hnull : P R_null)
    (Hlambda : forall body, Q body -> P (R_lambda body))
    (Happly : forall f, Q f -> forall a, Q a -> P (R_apply f a))
    (Hindex : forall position, Q (O_index position))
    (Hterm : forall t, P t -> Q (O_term t))
    (o : operand) : Q o :=
  match o with
  | O_index position => Hindex position
  | O_term t =>
      Hterm t (resolved_induction P Q Hnull Hlambda Happly Hindex Hterm t)
  end.

(** *** Reading a De Bruijn set back *)

Section Decode.

Variable decode_operand : SLC_element -> option operand.

(** The set of an application: [wrapper] is the set around the function,
    [arg] the element of the argument. *)
Definition decode_application (wrapper : SLC_set) (arg : SLC_element)
  : option resolved :=
  match wrapper with
  | [f] =>
      match decode_operand f, decode_operand arg with
      | Some rf, Some ra => Some (R_apply rf ra)
      | _, _ => None
      end
  | _ => None
  end.

(** The term of a set: the empty set is the empty group, a set with the
    symbol [λ] an abstraction, and a set with a pointer to a one-element
    set an application, the one-element set being the wrapper of the
    function. *)
Definition decode_set (s : SLC_set) : option resolved :=
  match s with
  | [] => Some R_null
  | [x; y] =>
      match x with
      | string_view_elt sym =>
          if String.eqb sym "λ" then option_map R_lambda (decode_operand y)
          else None
      | shared_ptr_elt _ s1 =>
          match s1, y with
          | [_], _ => decode_application s1 y
          | _, shared_ptr_elt _ s2 => decode_application s2 x
          | _, _ => None
          end
      | int_elt _ => None
      end
  | _ => None
  end.

End Decode.

Fixpoint decode_operand (e : SLC_element) : option operand :=
  match e with
  | int_elt n => Some (O_index n)
  | shared_ptr_elt _ s => option_map O_term (decode_set decode_operand s)
  | string_view_elt _ => None
  end.

Definition decode (s : SLC_set) : option resolved :=
  decode_set decode_operand s.

(** *** The notation of the two modes *)

(** De Bruijn mode: [{λ, body}] for an abstraction, [{{f}, a}] for an
    application, the distance to the binder for a variable. *)
Fixpoint dbj_notation (t : resolved) : string :=
  match t with
  | R_null => "{}"
  | R_lambda body => "{λ, " ++ dbj_operand_notation body ++ "}"
  | R_apply f a =>
      "{{" ++ dbj_operand_notation f ++ "}, " ++ dbj_operand_notation a ++ "}"
  end
with dbj_operand_notation (o : operand) : string :=
  match o with
  | O_index position => int_to_string position
  | O_term t => dbj_notation t
  end.

(** Name-preserving mode: [{{{}}, body}] for an abstraction, the numeral
    of the distance for a variable. *)
Fixpoint slc_notation (t : resolved) : string :=
  match t with
  | R_null => "{}"
  | R_lambda body => "{{{}}, " ++ slc_operand_notation body ++ "}"
  | R_apply f a =>
      "{{" ++ slc_operand_notation f ++ "}, " ++ slc_operand_notation a ++ "}"
  end
with slc_operand_notation (o : operand) : string :=
  match o with
  | O_index position => numeral_string position
  | O_term t => slc_notation t
  end.

(** An operand is inserted after the element already in the set when it
    is an integer or a set made in heap state [h] or later. *)
Definition later_operand (new_addr : nat -> addr) (h : heap)
    (e : SLC_element) : Prop :=
  match e with
  | string_view_elt _ => False
  | shared_ptr_elt p _ => exists i, p = new_addr i /\ (h <= i)%nat
  | int_elt _ => True
  end.

(** *** Bracket texts with separators *)

(** Texts joined the way [to_string] joins the elements of a set. *)
Fixpoint separated (first : bool) (l : list string) : string :=
  match l with
  | [] => ""
  | x :: l' => (if first then "" else ", ") ++ x ++ separated false l'
  end.

(** A group written the way [to_string] writes a set of sets. *)
Fixpoint pretty (g : group) : string :=
  match g with
  | Group children => "{" ++ separated true (map pretty children) ++ "}"
  end.

(** The groups of the name-preserving notation. *)
Definition numeral_group (n : Z) : group :=
  Group (Group [Group []; Group []] :: repeat (Group []) (Z.to_nat (n - 1))).

Fixpoint slc_group (t : resolved) : group :=
  match t with
  | R_null => Group []
  | R_lambda body => Group [Group [Group []]; slc_operand_group body]
  | R_apply f a => Group [Group [slc_operand_group f]; slc_operand_group a]
  end
with slc_operand_group (o : operand) : group :=
  match o with
  | O_index position => numeral_group position
  | O_term t => slc_group t
  end.

(** ** The page script

    [parseSet] of [topology_generator.js].  A JavaScript array is a
    reference: [next] is pushed into the array on top of the stack and
    onto the stack itself, and what is pushed into it later is seen from
    both places.  So the arrays live in a heap, [js_heap], where the
    array with identity [k] has its elements at place [k]; the elements
    are identities themselves, since arrays are all that [parseSet] puts
    into an array.  The only failure is the [TypeError] of reading a
    property of [undefined].  The characters of [str] that are not braces
    are only compared with braces, so the text is taken as a [string]. *)

Definition array_id := nat.

Definition js_heap := list (list array_id).

Inductive js_value : Type :=
| js_undefined
| js_array (id : array_id).

Inductive js_outcome : Type :=
| js_returns (v : js_value) (hp : js_heap)
| js_type_error.

(** [array.push(x)] on the array [id]. *)
Fixpoint array_push (id : array_id) (x : array_id) (hp : js_heap) : js_heap :=
  match hp, id with
  | [], _ => []
  | a :: hp', O => (a ++ [x])%list :: hp'
  | a :: hp', S id' => a :: array_push id' x hp'
  end.

(** [array[i]] on the array [id]: [undefined] past the end. *)
Definition array_get (hp : js_heap) (id : array_id) (i : nat) : js_value :=
  match nth_error (nth id hp []) i with
  | Some x => js_array x
  | None => js_undefined
  end.

(** The [while] loop of [parseSet] and the [return] after it.  [stack]
    has its top first: [stack[stack.length - 1]] is the head of the list
    and [stack[0]] its last element; [stack.pop()] on an empty stack does
    nothing. *)
Fixpoint parseSet_loop (str : string) (hp : js_heap) (stack : list array_id)
  : js_outcome :=
  match str with
  | EmptyString =>
      match rev stack with
      | [] => js_type_error
      | bottom :: _ => js_returns (array_get hp bottom 0) hp
      end
  | String ch str' =>
      if Ascii.eqb ch "{" then
        match stack with
        | [] => js_type_error
        | top :: _ =>
            let next := List.length hp in
            let hp := (hp ++ [[]])%list in
            let hp := array_push top next hp in
            parseSet_loop str' hp (next :: stack)
        end
      else if Ascii.eqb ch "}" then parseSet_loop str' hp (tl stack)
      else parseSet_loop str' hp stack
  end.

(** [parseSet]: [stack] starts as [[[]]], one empty array on it. *)
Definition parseSet (str : string) : js_outcome :=
  parseSet_loop str [[]] [0%nat].

(** The array [id] of the heap has the shape of the group [g]: it holds
    one array for each group inside [g], in order.  All the arrays that
    make it up have identities from [low] on. *)
Inductive array_shape (hp : js_heap) (low : nat) : array_id -> group -> Prop :=
| array_shape_intro id ids children :
    (low <= id)%nat ->
    nth_error hp id = Some ids ->
    Forall2 (array_shape hp low) ids children ->
    array_shape hp low id (Group children).

(** From [hp] to [hp']: the array [n] has been given the elements [ids],
    arrays may have been made, and no other array has changed. *)
Definition grows (hp : js_heap) (n : array_id) (ids : list array_id)
    (hp' : js_heap) : Prop :=
  (List.length hp <= List.length hp')%nat
  /\ (forall a, nth_error hp n = Some a ->
                nth_error hp' n = Some (a ++ ids)%list)
  /\ (forall j, (j < List.length hp)%nat -> j <> n ->
                nth_error hp' j = nth_error hp j).

(** The stack of [parseSet] has the first array at its bottom as long as
    it is not empty. *)
Definition root_at_bottom (stack : list array_id) : Prop :=
  stack = [] \/ exists above, stack = (above ++ [0%nat])%list.

(** ** The earlier converter

    [ULC_converter::convert_subset] as it was before variables were
    resolved to distances: the binder and the variables are inserted by
    name, a binder as the set of [λ] and its name, and the function of an
    application in a set with the symbol [⊕].  Its [SLC_element] has the
    [string_view] and the [shared_ptr] alternatives only, in the same
    order, so its sets are those of [SLC_set] in which no integer
    occurs. *)

Section EarlierConverter.

Variable new_addr : nat -> addr.

Fixpoint old_convert_subset (node : ULC_AST_node) : M SLC_set :=
  let ret_set : SLC_set := [] in
  match node with
  | DEFINITION node_right node_left =>
      let lambda_set : SLC_set := [] in
      let lambda_set := set_insert (string_view_elt "λ") lambda_set in
      let lambda_set :=
        set_insert (string_view_elt (text (value node_right))) lambda_set in
      pl <- make_shared new_addr lambda_set ;;
      let ret_set := set_insert pl ret_set in
      match node_left with
      | ATOMIC v => ret (set_insert (string_view_elt (text v)) ret_set)
      | _ =>
          sub_set <- old_convert_subset node_left ;;
          p <- make_shared new_addr sub_set ;;
          ret (set_insert p ret_set)
      end
  | APPLICATION node_left node_right =>
      let promote_set : SLC_set := [] in
      let promote_set := set_insert (string_view_elt "⊕") promote_set in
      promote_set <-
        match node_left with
        | ATOMIC v => ret (set_insert (string_view_elt (text v)) promote_set)
        | _ =>
            sub_set <- old_convert_subset node_left ;;
            p <- make_shared new_addr sub_set ;;
            ret (set_insert p promote_set)
        end ;;
      pp <- make_shared new_addr promote_set ;;
      let ret_set := set_insert pp ret_set in
      match node_right with
      | ATOMIC v => ret (set_insert (string_view_elt (text v)) ret_set)
      | _ =>
          sub_set <- old_convert_subset node_right ;;
          p <- make_shared new_addr sub_set ;;
          ret (set_insert p ret_set)
      end
  | GROUP node_right =>
      match node_right with
      | None => ret ret_set
      | Some inner => old_convert_subset inner
      end
  | ATOMIC _ => ret ret_set
  end.

(** [convert] of the earlier version, on the root pointer. *)
Definition old_convert (root_ : option ULC_AST_node) : M SLC_set :=
  match root_ with
  | None => ret []
  | Some node => old_convert_subset node
  end.

(** The element inserted for a child by either branch of the tests on
    [ATOMIC]. *)
Definition old_operand (node : ULC_AST_node) : M SLC_element :=
  match node with
  | ATOMIC v => ret (string_view_elt (text v))
  | _ =>
      sub_set <- old_convert_subset node ;;
      make_shared new_addr sub_set
  end.

End EarlierConverter.

(** The notation of the earlier converter: a name is printed before the
    symbol or the set it shares a set with. *)
Fixpoint old_notation (node : ULC_AST_node) : string :=
  match node with
  | DEFINITION binder body =>
      let marker := "{" ++ text (value binder) ++ ", λ}" in
      match body with
      | ATOMIC v => "{" ++ text v ++ ", " ++ marker ++ "}"
      | _ => "{" ++ marker ++ ", " ++ old_notation body ++ "}"
      end
  | APPLICATION f a =>
      let promote :=
        match f with
        | ATOMIC v => "{" ++ text v ++ ", ⊕}"
        | _ => "{⊕, " ++ old_notation f ++ "}"
        end in
      match a with
      | ATOMIC v => "{" ++ text v ++ ", " ++ promote ++ "}"
      | _ => "{" ++ promote ++ ", " ++ old_notation a ++ "}"
      end
  | GROUP (Some inner) => old_notation inner
  | GROUP None => "{}"
  | ATOMIC _ => "{}"
  end.

(** A node of the grammar, whichever of its three levels it is read
    at. *)
Definition grammatical (node : ULC_AST_node) : Prop :=
  expression identifier node \/ spine identifier node \/ atom identifier node.

(** *** The tokens of a text and of a tree *)

(** The first [n] tokens the lexer returns, and the lexer after them. *)
Fixpoint lex_tokens (n : nat) (lexer : ULC_lexer)
  : outcome (list ULC_token * ULC_lexer) :=
  match n with
  | O => Returns ([], lexer)
  | S n' =>
      match lexer_next_token lexer with
      | Throws e => Throws e
      | Returns (tok, lexer') =>
          match lex_tokens n' lexer' with
          | Returns (toks, lexer'') => Returns (tok :: toks, lexer'')
          | Throws e => Throws e
          end
      end
  end.

(** The text begins with the tokens [toks]: the lexer returns them one
    after the other, without a failure. *)
Definition tokens_begin (source : string) (toks : list ULC_token) : Prop :=
  exists lexer,
    lex_tokens (List.length toks) (mk_lexer source 0) = Returns (toks, lexer).

(** The tokens of the four signs, as the lexer makes them. *)
Definition lambda_token : ULC_token := mk_token LAMBDA "\".
Definition dot_token : ULC_token := mk_token DOT ".".
Definition open_token : ULC_token := mk_token O_PAREN "(".
Definition close_token : ULC_token := mk_token C_PAREN ")".

(** The tokens a tree is written with. *)
Fixpoint tokens_of (node : ULC_AST_node) : list ULC_token :=
  match node with
  | ATOMIC v => [v]
  | DEFINITION binder body =>
      lambda_token :: value binder :: dot_token :: tokens_of body
  | APPLICATION f a => (tokens_of f ++ tokens_of a)%list
  | GROUP (Some inner) => open_token :: (tokens_of inner ++ [close_token])%list
  | GROUP None => [open_token; close_token]
  end.

(** A token the lexer can have made. *)
Definition canonical (tok : ULC_token) : Prop :=
  match type tok with
  | LAMBDA => tok = lambda_token
  | DOT => tok = dot_token
  | O_PAREN => tok = open_token
  | C_PAREN => tok = close_token
  | VARIABLE => identifier (text tok)
  | EOF_TOK => True
  end.

(** A token that cannot go on an application: neither a variable nor an
    opening parenthesis. *)
Definition stops (tok : ULC_token) : Prop :=
  type tok <> VARIABLE /\ type tok <> O_PAREN.

(** Tokens at which no expression starts: a dot, a closing parenthesis
    or the end of the text; a [\] that is not followed by a variable and
    a dot; or a binder [\v.] followed by such tokens in turn. *)
Inductive no_expression : list ULC_token -> Prop :=
| no_expression_token tok :
    type tok = DOT \/ type tok = C_PAREN \/ type tok = EOF_TOK ->
    no_expression [tok]
| no_expression_variable tok :
    type tok <> VARIABLE -> no_expression [lambda_token; tok]
| no_expression_dot v tok :
    type v = VARIABLE -> type tok <> DOT ->
    no_expression [lambda_token; v; tok]
| no_expression_body v w :
    type v = VARIABLE -> no_expression w ->
    no_expression (lambda_token :: v :: dot_token :: w).

(** Where the parser stands after it has consumed some tokens: where an
    expression may start, or behind an atom, where an argument may
    follow. *)
Inductive position : Type := at_expression | at_argument.

(** One move of the parser into an expression that is not complete yet:
    over a binder, into a parenthesis, or over an atom of an
    application. *)
Inductive advance : position -> list ULC_token -> position -> Prop :=
| advance_binder v :
    type v = VARIABLE ->
    advance at_expression [lambda_token; v; dot_token] at_expression
| advance_open K : advance K [open_token] at_expression
| advance_atom K a :
    atom identifier a -> advance K (tokens_of a) at_argument.

(** The tokens the parser consumes on its way from one position to
    another, move after move. *)
Inductive reaches : position -> list ULC_token -> position -> Prop :=
| reaches_here K : reaches K [] K
| reaches_advance K1 w K2 w' K3 :
    advance K1 w K2 -> reaches K2 w' K3 -> reaches K1 (w ++ w')%list K3.

(** What follows an opening parenthesis does not close it: a whole
    expression and then a token that is no closing parenthesis, or no
    expression at all and no closing parenthesis either. *)
Definition not_closed (inner rest : list ULC_token) : Prop :=
  (exists e next,
      expression identifier e /\ inner = tokens_of e /\ rest = [next]
      /\ stops next /\ type next <> C_PAREN)
  \/ (inner = [] /\ no_expression rest
      /\ forall tok, hd_error rest = Some tok -> type tok <> C_PAREN).

(** Tokens that end at a parenthesis the parser has entered from
    position [K] and finds unbalanced. *)
Definition unbalanced_from (K : position) (toks : list ULC_token) : Prop :=
  exists pre K' inner rest,
    toks = (pre ++ open_token :: inner ++ rest)%list
    /\ reaches K pre K' /\ not_closed inner rest.

Section TokenBuffer.

Variable source : string.

(** The buffer of the parser holds the first tokens of the text, the
    lexer stands behind them and the cursor is on one of them. *)
Definition buffered (p : ULC_parser) : Prop :=
  lex_tokens (List.length (tokens_ p)) (mk_lexer source 0)
  = Returns (tokens_ p, lexer_ p)
  /\ (token_id_ p < List.length (tokens_ p))%nat.

(** The tokens before the cursor and those from the cursor on. *)
Definition consumed (p : ULC_parser) : list ULC_token :=
  firstn (token_id_ p) (tokens_ p).

Definition ahead (p : ULC_parser) : list ULC_token :=
  skipn (token_id_ p) (tokens_ p).

(** The text begins with the tokens consumed in [p] and tokens after
    them at which a parenthesis is found unbalanced. *)
Definition fails_from (K : position) (p : ULC_parser) : Prop :=
  exists suffix,
    tokens_begin source (consumed p ++ suffix)%list
    /\ unbalanced_from K suffix.

(** [m] run from [p]: what it returns satisfies [Q], and it throws
    [UnbalancedParenError] only when [E] holds. *)
Definition answers {A} (m : P A) (p : ULC_parser)
    (Q : A -> ULC_parser -> Prop) (E : Prop) : Prop :=
  match m p with
  | Some (Returns (a, p')) => Q a p'
  | Some (Throws e) => e = UnbalancedParenError -> E
  | None => True
  end.

(** The state [p'] of a parser that was in [p] and has consumed the
    tokens [delta] since. *)
Definition after (p : ULC_parser) (delta : list ULC_token)
    (p' : ULC_parser) : Prop :=
  buffered p' /\ consumed p' = (consumed p ++ delta)%list.

(** The state of a parser at work on a text that begins with [toks]. *)
Definition follows (toks : list ULC_token) (p : ULC_parser) : Prop :=
  buffered p /\ exists more, toks = (tokens_ p ++ more)%list.

(** What [parse_expression] and [parse_abstraction] leave behind: an
    expression of the grammar, its tokens consumed and a token under the
    cursor that cannot go on an application; or null, nothing consumed
    and, from the cursor on, tokens at which no expression starts. *)
Definition expression_read (p : ULC_parser) (res : option ULC_AST_node)
    (p' : ULC_parser) : Prop :=
  buffered p'
  /\ match res with
     | Some e =>
         expression identifier e
         /\ consumed p' = (consumed p ++ tokens_of e)%list
         /\ stops (current p')
     | None =>
         consumed p' = consumed p
         /\ exists w more, no_expression w /\ ahead p' = (w ++ more)%list
     end.

(** What the loop of [parse_expression] leaves behind: the atoms it has
    read, applied to [head] one after the other. *)
Definition arguments_read (head : ULC_AST_node) (p : ULC_parser)
    (res : option ULC_AST_node) (p' : ULC_parser) : Prop :=
  buffered p'
  /\ exists l,
       Forall (atom identifier) l
       /\ res = Some (fold_left APPLICATION l head)
       /\ consumed p' = (consumed p ++ List.concat (map tokens_of l))%list
       /\ stops (current p').

(** What [parse_atomic] leaves behind: an atom and its tokens consumed,
    or null and the state it started from, on a token that starts no
    atom. *)
Definition atom_read (p : ULC_parser) (res : option ULC_AST_node)
    (p' : ULC_parser) : Prop :=
  match res with
  | Some a => atom identifier a /\ after p (tokens_of a) p'
  | None => p' = p /\ stops (current p)
  end.

End TokenBuffer.

(** Whatever [m] answers from [p], it returns, and what it returns
    satisfies [Q]. *)
Definition yields {A} (m : P A) (p : ULC_parser)
    (Q : A -> ULC_parser -> Prop) : Prop :=
  forall r, m p = Some r -> exists a p', r = Returns (a, p') /\ Q a p'.

(** Whatever [m] answers from [p], it throws [UnbalancedParenError]. *)
Definition gives_up {A} (m : P A) (p : ULC_parser) : Prop :=
  forall r, m p = Some r -> r = Throws UnbalancedParenError.

(** The parser works on a text that begins with [toks], and [rest] is
    what it has still to consume of them. *)
Definition stands (source : string) (toks : list ULC_token)
    (p : ULC_parser) (rest : list ULC_token) : Prop :=
  follows source toks p /\ toks = (consumed p ++ rest)%list.

(** ** The order of the element container *)

Section ElementOrder.

Lemma elt_to_string_shared_ptr p s :
  elt_to_string (shared_ptr_elt p s) = to_string s.
Proof.
  reflexivity.
Qed.

Lemma string_compare_refl (s : string) : String.compare s s = Eq.
Proof.
  induction s as [|a s IH]; simpl; [reflexivity|].
  unfold Ascii.compare. now rewrite N.compare_refl.
Qed.

Lemma string_compare_trans (s t u : string) :
  String.compare s t = Lt -> String.compare t u = Lt -> String.compare s u = Lt.
Proof.
  revert t u. induction s as [|a s IH]; intros [|b t] [|c u]; simpl; try easy.
  unfold Ascii.compare.
  destruct (N.compare_spec (N_of_ascii a) (N_of_ascii b)) as [Hab|Hab|Hab];
    try easy;
    destruct (N.compare_spec (N_of_ascii b) (N_of_ascii c)) as [Hbc|Hbc|Hbc];
    try easy; intros Hst Htu.
  - rewrite Hab, Hbc, N.compare_refl. now apply IH with t.
  - rewrite Hab. now apply N.compare_lt_iff in Hbc as ->.
  - rewrite <- Hbc. now apply N.compare_lt_iff in Hab as ->.
  - assert (H : (N_of_ascii a < N_of_ascii c)%N) by lia.
    now apply N.compare_lt_iff in H as ->.
Qed.

Lemma elt_compare_eq_iff x y : elt_compare x y = Eq <-> equivalent x y.
Proof.
  destruct x, y; simpl; try easy.
  - split; [apply String.compare_eq_iff|intros ->; apply string_compare_refl].
  - apply N.compare_eq_iff.
  - apply Z.compare_eq_iff.
Qed.

Lemma elt_compare_refl x : elt_compare x x = Eq.
Proof. apply elt_compare_eq_iff. now destruct x. Qed.

Lemma elt_compare_antisym x y : elt_compare y x = CompOpp (elt_compare x y).
Proof.
  destruct x, y; simpl; try reflexivity.
  - apply String.compare_antisym.
  - apply N.compare_antisym.
  - apply Z.compare_antisym.
Qed.

Lemma elt_compare_gt_lt x y : elt_compare x y = Gt <-> elt_lt y x.
Proof.
  unfold elt_lt. rewrite (elt_compare_antisym x y).
  now destruct (elt_compare x y).
Qed.

Lemma elt_lt_trans x y z : elt_lt x y -> elt_lt y z -> elt_lt x z.
Proof.
  unfold elt_lt. destruct x, y, z; simpl; try easy.
  - apply string_compare_trans.
  - rewrite !N.compare_lt_iff. lia.
  - rewrite !Z.compare_lt_iff. lia.
Qed.

Lemma elt_lt_irrefl x : ~ elt_lt x x.
Proof. unfold elt_lt. now rewrite elt_compare_refl. Qed.

Lemma elt_compare_equivalent_l x y z :
  elt_compare x y = Eq -> elt_compare x z = elt_compare y z.
Proof.
  rewrite elt_compare_eq_iff.
  destruct x, y; simpl; try easy; intros ->; reflexivity.
Qed.

Lemma elt_lt_not_equivalent x y : elt_lt x y -> elt_compare x y <> Eq.
Proof. unfold elt_lt. congruence. Qed.

End ElementOrder.

(** ** The container keeps its elements sorted and free of equivalents *)

Section Container.

Lemma set_insert_In e x s : In e (set_insert x s) -> e = x \/ In e s.
Proof.
  induction s as [|y s IH]; simpl.
  - intuition.
  - destruct (elt_compare x y); simpl; intuition.
Qed.

Lemma set_insert_keeps e x s : In e s -> In e (set_insert x s).
Proof.
  induction s as [|y s IH]; simpl; [easy|].
  destruct (elt_compare x y); simpl; intuition.
Qed.

Lemma set_insert_holds x s :
  exists y, In y (set_insert x s) /\ elt_compare x y = Eq.
Proof.
  induction s as [|y s IH]; simpl.
  - exists x. split; [now left | apply elt_compare_refl].
  - destruct (elt_compare x y) eqn:E.
    + exists y. simpl. auto.
    + exists x. simpl. split; [now left | apply elt_compare_refl].
    + destruct IH as (z & Hz & Ez). exists z. simpl. auto.
Qed.

Lemma set_insert_sorted x s : sorted s -> sorted (set_insert x s).
Proof.
  unfold sorted. induction 1 as [|y s Hs IH Hy]; simpl.
  - repeat constructor.
  - destruct (elt_compare x y) eqn:E.
    + now constructor.
    + constructor; [now constructor|].
      constructor; [exact E|].
      eapply Forall_impl; [|exact Hy].
      intros z Hz. now apply elt_lt_trans with y.
    + constructor; [exact IH|].
      apply Forall_forall. intros z Hz.
      apply set_insert_In in Hz as [->|Hz].
      * now apply elt_compare_gt_lt.
      * rewrite Forall_forall in Hy. now apply Hy.
Qed.

Lemma insert_all_acc_sorted l acc :
  sorted acc -> sorted (fold_left (fun s e => set_insert e s) l acc).
Proof.
  revert acc. induction l as [|x l IH]; intros acc Hacc; simpl; [easy|].
  apply IH. now apply set_insert_sorted.
Qed.

Lemma insert_all_sorted l : sorted (insert_all l).
Proof. apply insert_all_acc_sorted. constructor. Qed.

(** Inserting an element equivalent to one already held changes nothing. *)
Lemma set_insert_present x y s :
  sorted s -> In y s -> elt_compare x y = Eq -> set_insert x s = s.
Proof.
  unfold sorted. induction 1 as [|z s Hs IH Hz]; simpl; [easy|].
  intros [->|Hy] E.
  - now rewrite E.
  - rewrite Forall_forall in Hz. specialize (Hz y Hy).
    assert (Hzx : elt_lt z x).
    { unfold elt_lt.
      rewrite (elt_compare_antisym x z), (elt_compare_equivalent_l x y z E).
      rewrite (elt_compare_antisym z y). unfold elt_lt in Hz. now rewrite Hz. }
    apply elt_compare_gt_lt in Hzx. rewrite Hzx. f_equal. now apply IH.
Qed.

(** Inserting an element equivalent to none of those held adds it. *)
Lemma set_insert_absent x s :
  (forall y, In y s -> elt_compare x y <> Eq) ->
  Permutation (set_insert x s) (x :: s).
Proof.
  induction s as [|y s IH]; simpl; intros H; [reflexivity|].
  destruct (elt_compare x y) eqn:E.
  - exfalso. apply (H y); auto.
  - reflexivity.
  - rewrite IH by (intros z Hz; apply H; auto). apply perm_swap.
Qed.

(** Two sorted containers holding the same elements are the same list. *)
Lemma sorted_unique (s1 s2 : SLC_set) :
  sorted s1 -> sorted s2 -> (forall e, In e s1 <-> In e s2) -> s1 = s2.
Proof.
  unfold sorted. intros H1. revert s2.
  induction H1 as [|x s1 Hs1 IH Hx]; intros s2 H2 Hin.
  - destruct s2 as [|y s2]; [reflexivity|].
    exfalso. apply (Hin y). now left.
  - destruct H2 as [|y s2 Hs2 Hy].
    + exfalso. apply (Hin x). now left.
    + rewrite Forall_forall in Hx, Hy.
      assert (x = y) as <-.
      { destruct (proj1 (Hin x) (or_introl eq_refl)) as [E|Hxs2]; [easy|].
        destruct (proj2 (Hin y) (or_introl eq_refl)) as [E|Hys1]; [easy|].
        exfalso. apply (elt_lt_irrefl x).
        apply elt_lt_trans with y; auto. }
      f_equal. apply IH; [exact Hs2|].
      intros e. split; intros He.
      * destruct (proj1 (Hin e) (or_intror He)) as [<-|H']; [|exact H'].
        exfalso. now apply (elt_lt_irrefl x), Hx.
      * destruct (proj2 (Hin e) (or_intror He)) as [<-|H']; [|exact H'].
        exfalso. now apply (elt_lt_irrefl x), Hy.
Qed.

End Container.

(** ** Rendering and the order of insertions *)

Section InsertionOrder.

Lemma insert_all_acc_In e l acc :
  In e (fold_left (fun s x => set_insert x s) l acc) -> In e l \/ In e acc.
Proof.
  revert acc. induction l as [|x l IH]; intros acc; simpl; [auto|].
  intros H. apply IH in H as [H|H]; [auto|].
  apply set_insert_In in H. intuition.
Qed.

Lemma insert_all_acc_keeps e l acc :
  In e acc -> In e (fold_left (fun s x => set_insert x s) l acc).
Proof.
  revert acc. induction l as [|x l IH]; intros acc; simpl; [auto|].
  intros H. now apply IH, set_insert_keeps.
Qed.

Lemma insert_all_acc_holds e l acc :
  In e l ->
  exists y, In y (fold_left (fun s x => set_insert x s) l acc)
            /\ elt_compare e y = Eq.
Proof.
  revert acc. induction l as [|x l IH]; intros acc; simpl; [easy|].
  intros [->|H].
  - destruct (set_insert_holds e acc) as (y & Hy & E).
    exists y. split; [|exact E]. now apply insert_all_acc_keeps.
  - now apply IH.
Qed.

Lemma insert_all_In e l : In e (insert_all l) -> In e l.
Proof.
  intros H. apply insert_all_acc_In in H as [H|H]; [exact H|destruct H].
Qed.

Lemma consistent_equivalent l x y :
  pointers_consistent l -> In x l -> In y l -> elt_compare x y = Eq -> x = y.
Proof.
  intros Hc Hx Hy E. apply elt_compare_eq_iff in E.
  destruct x, y; simpl in E; try easy; subst; try reflexivity.
  f_equal. eapply Hc; eassumption.
Qed.

Lemma insert_all_members e l :
  pointers_consistent l -> (In e (insert_all l) <-> In e l).
Proof.
  intros Hc. split; [apply insert_all_In|].
  intros He. destruct (insert_all_acc_holds e l [] He) as (y & Hy & E).
  fold (insert_all l) in Hy.
  assert (e = y) as ->; [|exact Hy].
  apply (consistent_equivalent l); auto. now apply insert_all_In.
Qed.

(** Whatever the order of the insertions, the same elements give the
    same container. *)
Lemma insert_all_order (l1 l2 : list SLC_element) :
  (forall e, In e l1 <-> In e l2) -> pointers_consistent l1 ->
  insert_all l1 = insert_all l2.
Proof.
  intros Hin Hc1.
  assert (Hc2 : pointers_consistent l2).
  { intros p s s' H H'. apply (Hc1 p); now apply Hin. }
  apply sorted_unique; try apply insert_all_sorted.
  intros e. rewrite !insert_all_members by assumption. apply Hin.
Qed.

(** The index of the alternative decides first: text before nested sets
    before integers. *)
Lemma elt_lt_index x y : (index x < index y)%nat -> elt_lt x y.
Proof.
  unfold elt_lt. destruct x, y; simpl; intros H; try reflexivity; lia.
Qed.

(** C1, as the code has it.  [to_string] renders the elements in the order
    of the container, which is fixed: text (by bytes), then nested sets
    by the address their [shared_ptr] holds, then integers (by value).
    Two terms built from the same elements (the same texts, the same
    integers and the same shared pointers) by insertions in any order are
    rendered the same.  Nested sets are not compared by their rendering. *)
Theorem to_string_insertion_order (l1 l2 : list SLC_element) :
  (forall e, In e l1 <-> In e l2) ->
  pointers_consistent l1 ->
  to_string (insert_all l1) = to_string (insert_all l2)
  /\ sorted (insert_all l1)
  /\ (forall x y, (index x < index y)%nat -> elt_lt x y)
  /\ (forall p q s t, elt_lt (shared_ptr_elt p s) (shared_ptr_elt q t)
                      <-> (p < q)%N).
Proof.
  intros Hin Hc. split; [|split; [|split]].
  - now rewrite (insert_all_order l1 l2).
  - apply insert_all_sorted.
  - apply elt_lt_index.
  - intros p q s t. unfold elt_lt. simpl. apply N.compare_lt_iff.
Qed.

Lemma to_string_insertion_order_witness :
  let l1 := [int_elt 2; string_view_elt "λ"; shared_ptr_elt 7 []] in
  let l2 := [shared_ptr_elt 7 []; int_elt 2; string_view_elt "λ"; int_elt 2] in
  ((forall e, In e l1 <-> In e l2) /\ pointers_consistent l1)
  /\ to_string (insert_all l1) = to_string (insert_all l2).
Proof.
  intros l1 l2.
  assert (Hin : forall e, In e l1 <-> In e l2) by (simpl; intuition).
  assert (Hc : pointers_consistent l1).
  { intros p s s' H H'. simpl in H, H'.
    repeat (destruct H as [H|H]; try discriminate H; try easy).
    repeat (destruct H' as [H'|H']; try discriminate H'; try easy).
    congruence. }
  split; [now split|].
  exact (proj1 (to_string_insertion_order l1 l2 Hin Hc)).
Defined.

(** C1 as stated fails: both terms hold one nested [{}] and one nested
    [{{}}] and nothing else, so their element collections are structurally
    identical, yet the renderings differ, because the order between the
    two nested sets is that of their addresses.  With addresses growing
    from one allocation to the next, the first term is what inserting a
    new [{}] and then a new [{{}}] gives (sets made at 1, 2 and 3), the
    second is what the opposite order of insertion gives afterwards (sets
    made at 4, 5 and 6). *)
Lemma to_string_depends_on_addresses :
  let a :=
    insert_all [shared_ptr_elt 1 []; shared_ptr_elt 3 [shared_ptr_elt 2 []]] in
  let b :=
    insert_all [shared_ptr_elt 5 [shared_ptr_elt 4 []]; shared_ptr_elt 6 []] in
  Permutation (map elt_to_string a) (map elt_to_string b)
  /\ to_string a = "{{}, {{}}}"
  /\ to_string b = "{{{}}, {}}"
  /\ to_string a <> to_string b.
Proof.
  cbv zeta. split; [|split; [|split]].
  - vm_compute. apply perm_swap.
  - reflexivity.
  - reflexivity.
  - vm_compute. discriminate.
Qed.




End InsertionOrder.

(** ** Numerals *)

Section Numerals.

Variable new_addr : nat -> addr.

Lemma set_insert_last x s :
  (forall y, In y s -> elt_lt y x) -> set_insert x s = (s ++ [x])%list.
Proof.
  induction s as [|y s IH]; simpl; intros H; [reflexivity|].
  assert (Hy : elt_compare x y = Gt) by (apply elt_compare_gt_lt, H; auto).
  rewrite Hy. f_equal. apply IH. auto.
Qed.

Lemma made_before_mono h h' e :
  (h <= h')%nat -> made_before new_addr h e -> made_before new_addr h' e.
Proof. intros Hh (i & s & -> & Hi). exists i, s. split; [reflexivity|lia]. Qed.

Lemma extras_made_before h count e :
  In e (extras new_addr h count) -> made_before new_addr (h + count) e.
Proof.
  unfold extras. rewrite in_map_iff. intros (i & <- & Hi).
  apply in_seq in Hi. exists i, []. split; [reflexivity|lia].
Qed.

Lemma add_extras_increasing count :
  increasing_addresses new_addr ->
  forall num_top h,
    (forall y, In y num_top -> made_before new_addr h y) ->
    add_extras new_addr count num_top h
    = Returns ((num_top ++ extras new_addr h count)%list, (h + count)%nat).
Proof.
  intros Hinc. induction count as [|count IH]; intros num_top h Htop.
  - simpl. unfold ret, extras. simpl. now rewrite app_nil_r, Nat.add_0_r.
  - simpl. unfold bind, make_shared.
    rewrite set_insert_last.
    + rewrite IH.
      * unfold extras. simpl. rewrite <- app_assoc. simpl.
        do 2 f_equal. lia.
      * intros y Hy. apply in_app_or in Hy as [Hy|[<-|[]]].
        -- apply made_before_mono with h; [lia|auto].
        -- exists h, []. split; [reflexivity|lia].
    + intros y Hy. destruct (Htop y Hy) as (i & s & -> & Hi).
      unfold elt_lt. simpl. apply N.compare_lt_iff. now apply Hinc.
Qed.

Lemma add_extras_distinct count :
  distinct_addresses new_addr ->
  forall num_top h,
    (forall y, In y num_top -> made_before new_addr h y) ->
    exists s,
      add_extras new_addr count num_top h = Returns (s, (h + count)%nat)
      /\ Permutation s (num_top ++ extras new_addr h count).
Proof.
  intros Hd. induction count as [|count IH]; intros num_top h Htop.
  - exists num_top. simpl. unfold ret, extras. simpl.
    now rewrite app_nil_r, Nat.add_0_r.
  - simpl. unfold bind, make_shared.
    set (x := shared_ptr_elt (new_addr h) []).
    assert (Hperm : Permutation (set_insert x num_top) (x :: num_top)).
    { apply set_insert_absent. intros y Hy E.
      destruct (Htop y Hy) as (i & s & -> & Hi).
      apply elt_compare_eq_iff in E. simpl in E. apply Hd in E. lia. }
    destruct (IH (set_insert x num_top) (S h)) as (s & Hs & Hp).
    + intros y Hy. apply (Permutation_in _ Hperm) in Hy as [<-|Hy].
      * exists h, []. split; [reflexivity|lia].
      * apply made_before_mono with h; [lia|auto].
    + exists s. split.
      * rewrite Hs. do 2 f_equal. lia.
      * rewrite Hp, Hperm. unfold extras. simpl.
        apply Permutation_middle.
Qed.

Lemma increasing_distinct :
  increasing_addresses new_addr -> distinct_addresses new_addr.
Proof.
  intros Hinc i j E.
  destruct (Nat.lt_total i j) as [H|[H|H]]; [|exact H|];
    apply Hinc in H; lia.
Qed.

Lemma num_base_renders (p q : addr) :
  p <> q ->
  to_string (set_insert (shared_ptr_elt q []) (set_insert (shared_ptr_elt p []) []))
  = "{{}, {}}".
Proof.
  intros Hpq. simpl. destruct (N.compare_spec q p); [congruence| |]; reflexivity.
Qed.

Lemma extras_rendered h count :
  map elt_to_string (extras new_addr h count) = repeat "{}" count.
Proof.
  unfold extras. revert h. induction count as [|count IH]; intros h; simpl.
  - reflexivity.
  - f_equal. apply IH.
Qed.

Lemma extras_rendered_in_a_row h count :
  elems_to_string false (extras new_addr h count)
  = String.concat "" (repeat ", {}" count).
Proof.
  unfold extras. revert h. induction count as [|count IH]; intros h.
  - reflexivity.
  - cbn [seq map repeat elems_to_string].
    rewrite IH. destruct count; reflexivity.
Qed.

Lemma append_assoc (s t u : string) : (s ++ t) ++ u = s ++ t ++ u.
Proof. induction s as [|c s IH]; simpl; [reflexivity|now rewrite IH]. Qed.

Lemma elems_to_string_app first l1 l2 :
  elems_to_string first (l1 ++ l2)
  = elems_to_string first l1
    ++ elems_to_string (first && match l1 with [] => true | _ => false end) l2.
Proof.
  revert first. induction l1 as [|e l1 IH]; intros first; simpl.
  - now rewrite andb_true_r.
  - rewrite IH, andb_false_r. simpl.
    now rewrite !append_assoc.
Qed.

(** C5, as the code has it.  [make_number n] holds the base, a nested set
    of two empty sets, and [n - 1] more empty sets, all of them separate
    elements because each has an address of its own.  For [n = 1] the
    rendering is [{{{}, {}}}].  For larger [n] the place of the base among
    the empty sets follows the addresses; when they grow from one
    allocation to the next the base comes first and the rendering is the
    one of C5, [{{{}, {}}, {}}] for 2 and [{{{}, {}}, {}, {}}] for 3. *)
Theorem make_number_shape (number : Z) (h : heap) :
  (1 <= number)%Z ->
  distinct_addresses new_addr ->
  exists s h',
    make_number new_addr number h = Returns (s, h')
    /\ Permutation (map elt_to_string s)
                   ("{{}, {}}" :: repeat "{}" (Z.to_nat (number - 1)))
    /\ List.length s = Z.to_nat number
    /\ (number = 1%Z -> to_string s = "{{{}, {}}}")
    /\ (increasing_addresses new_addr -> to_string s = numeral_string number)
    /\ numeral_string 1 = "{{{}, {}}}"
    /\ numeral_string 2 = "{{{}, {}}, {}}"
    /\ numeral_string 3 = "{{{}, {}}, {}, {}}".
Proof.
  intros Hn Hd. unfold make_number, bind, make_shared.
  set (count := Z.to_nat (number - 1)).
  set (num_base := set_insert (shared_ptr_elt (new_addr (S h)) [])
                     (set_insert (shared_ptr_elt (new_addr h) []) [])).
  set (pb := shared_ptr_elt (new_addr (S (S h))) num_base).
  assert (Hbase : elt_to_string pb = "{{}, {}}").
  { unfold pb. rewrite elt_to_string_shared_ptr. apply num_base_renders.
    intros E. apply Hd in E. lia. }
  assert (Htop : forall y, In y (set_insert pb []) ->
                           made_before new_addr (S (S (S h))) y).
  { intros y [<-|[]]. exists (S (S h)), num_base. split; [reflexivity|lia]. }
  destruct (add_extras_distinct count Hd _ _ Htop) as (s & Hs & Hp).
  exists s, (S (S (S h)) + count)%nat. split; [exact Hs|].
  assert (Hlen : List.length s = S count).
  { rewrite (Permutation_length Hp). simpl. unfold extras.
    now rewrite length_map, length_seq. }
  split; [|split; [|split; [|split]]].
  - rewrite (Permutation_map elt_to_string Hp). cbn [set_insert app map].
    now rewrite Hbase, extras_rendered.
  - rewrite Hlen. unfold count. lia.
  - intros ->. cbn [set_insert app extras seq map count Z.to_nat Z.sub Z.add Z.opp Z.pos_sub] in Hp.
    apply Permutation_sym, Permutation_length_1_inv in Hp.
    subst s. unfold to_string. cbn [elems_to_string]. now rewrite Hbase.
  - intros Hinc. rewrite (add_extras_increasing count Hinc _ _ Htop) in Hs.
    injection Hs as <-. unfold to_string, numeral_string. fold count.
    cbn [elems_to_string].
    rewrite Hbase, extras_rendered_in_a_row. reflexivity.
  - repeat split.
Qed.

End Numerals.

Lemma pairwise_swapped_distinct : distinct_addresses pairwise_swapped.
Proof.
  intros i j E. unfold pairwise_swapped in E. apply Nat2N.inj in E.
  destruct (Nat.even i) eqn:Hi, (Nat.even j) eqn:Hj; try lia.
  - destruct j as [|[|j]]; try discriminate.
    simpl in E, Hj. injection E as ->. congruence.
  - destruct i as [|[|i]]; try discriminate.
    simpl in E, Hi. injection E as <-. congruence.
  - destruct i; [discriminate Hi|]. destruct j; [discriminate Hj|].
    simpl in E. now subst.
Qed.

Lemma make_number_shape_witness :
  ((1 <= 3)%Z /\ distinct_addresses N.of_nat)
  /\ exists s h',
       make_number N.of_nat 3 0 = Returns (s, h')
       /\ (increasing_addresses N.of_nat -> to_string s = numeral_string 3).
Proof.
  assert (Hn : (1 <= 3)%Z) by lia.
  assert (Hd : distinct_addresses N.of_nat) by (intros i j E; lia).
  split; [now split|].
  destruct (make_number_shape N.of_nat 3 0 Hn Hd) as (s & h' & Hs & _ & _ & _ & Hr & _).
  exists s, h'. now split.
Defined.

(** C5 as stated fails for [n = 2]: with an allocator that puts the base
    above the extra empty set (every set still at an address of its own),
    [make_number 2] renders the empty set first. *)
Lemma make_number_2_base_last :
  distinct_addresses pairwise_swapped
  /\ rendered (make_number pairwise_swapped 2) 0 = Returns "{{}, {{}, {}}}"
  /\ rendered (make_number pairwise_swapped 2) 0 <> Returns "{{{}, {}}, {}}".
Proof.
  split; [apply pairwise_swapped_distinct|].
  split; [reflexivity|]. vm_compute. discriminate.
Qed.

(** ** The converters *)

Section Converters.

Variable new_addr : nat -> addr.

Ltac run_binds :=
  unfold bind, ret, throw;
  repeat match goal with
         | |- context [match ?m ?h with Returns _ => _ | Throws _ => _ end] =>
             destruct (m h) as [[? ?]|?]
         end;
  reflexivity.

Lemma convert_subset_dbj_eq node lambda_depth captured h :
  convert_subset_dbj new_addr node lambda_depth captured h
  = match node with
    | DEFINITION binder body =>
        e <- dbj_operand new_addr body (lambda_depth + 1)
               (text (value binder) :: captured) ;;
        ret (set_insert e [string_view_elt "λ"])
    | APPLICATION f a =>
        ef <- dbj_operand new_addr f lambda_depth captured ;;
        pp <- make_shared new_addr [ef] ;;
        ea <- dbj_operand new_addr a lambda_depth captured ;;
        ret (set_insert ea [pp])
    | GROUP None => ret []
    | GROUP (Some inner) =>
        convert_subset_dbj new_addr inner lambda_depth captured
    | ATOMIC _ => ret []
    end h.
Proof.
  destruct node as [v|binder body|f a|[inner|]]; try reflexivity.
  - destruct body; cbn [convert_subset_dbj dbj_operand set_insert]; run_binds.
  - destruct f, a; cbn [convert_subset_dbj dbj_operand set_insert]; run_binds.
Qed.

Lemma convert_subset_eq node lambda_depth captured h :
  convert_subset new_addr node lambda_depth captured h
  = match node with
    | DEFINITION binder body =>
        ptop <- lambda_marker new_addr ;;
        e <- slc_operand new_addr body (lambda_depth + 1)
               (text (value binder) :: captured) ;;
        ret (set_insert e [ptop])
    | APPLICATION f a =>
        ef <- slc_operand new_addr f lambda_depth captured ;;
        pp <- make_shared new_addr [ef] ;;
        ea <- slc_operand new_addr a lambda_depth captured ;;
        ret (set_insert ea [pp])
    | GROUP None => ret []
    | GROUP (Some inner) =>
        convert_subset new_addr inner lambda_depth captured
    | ATOMIC _ => throw UnhandledNodeError
    end h.
Proof.
  destruct node as [v|binder body|f a|[inner|]]; try reflexivity.
  - destruct body;
      cbn [convert_subset slc_operand set_insert]; unfold lambda_marker;
      cbn [set_insert]; run_binds.
  - destruct f, a; cbn [convert_subset slc_operand set_insert]; run_binds.
Qed.

Lemma find_position_Some captured x :
  In x captured -> exists position, find_position captured x = Some position.
Proof.
  induction captured as [|y captured IH]; simpl; [easy|].
  intros H. destruct (String.eqb_spec y x) as [->|Hne]; [now eexists|].
  destruct H as [H|H]; [congruence|].
  destruct (IH H) as (position & ->). now eexists.
Qed.

Lemma find_position_None captured x :
  ~ In x captured -> find_position captured x = None.
Proof.
  induction captured as [|y captured IH]; simpl; [easy|].
  intros H. destruct (String.eqb_spec y x) as [->|Hne]; [tauto|].
  rewrite IH; [reflexivity|tauto].
Qed.

Lemma closed_dec captured node : closed captured node \/ ~ closed captured node.
Proof.
  revert captured.
  induction node as [v|binder _ body IH|f IHf a IHa|inner IH|]
    using node_induction; intros captured; simpl.
  - destruct (in_dec string_dec (text v) captured); auto.
  - apply IH.
  - destruct (IHf captured), (IHa captured); tauto.
  - apply IH.
  - auto.
Qed.

Lemma bind_returns {A B} (m : M A) (k : A -> M B) h a h' :
  m h = Returns (a, h') -> bind m k h = k a h'.
Proof. unfold bind. now intros ->. Qed.

Lemma bind_throws {A B} (m : M A) (k : A -> M B) h e :
  m h = Throws e -> bind m k h = Throws e.
Proof. unfold bind. now intros ->. Qed.

Lemma resolve_bound captured x h :
  In x captured -> exists position, resolve captured x h = Returns (position, h).
Proof.
  intros H. destruct (find_position_Some captured x H) as (position & E).
  exists position. unfold resolve. now rewrite E.
Qed.

Lemma resolve_unbound captured x h :
  ~ In x captured -> resolve captured x h = Throws UnknownVariableError.
Proof.
  intros H. unfold resolve. now rewrite find_position_None.
Qed.

Lemma add_extras_returns count num_top h :
  exists s h', add_extras new_addr count num_top h = Returns (s, h').
Proof.
  revert num_top h. induction count as [|count IH]; intros num_top h; simpl.
  - now eexists _, _.
  - unfold bind, make_shared. apply IH.
Qed.

Lemma make_number_returns number h :
  exists s h', make_number new_addr number h = Returns (s, h').
Proof. unfold make_number, bind, make_shared. apply add_extras_returns. Qed.

Lemma returns_bind {A B} (m : M A) (k : A -> M B) h :
  returns (m h) -> (forall a h', returns (k a h')) -> returns (bind m k h).
Proof.
  intros ([a h'] & E) Hk. rewrite (bind_returns _ _ _ _ _ E). apply Hk.
Qed.

Lemma returns_ret {A} (a : A) h : returns (ret a h).
Proof. now eexists. Qed.

Lemma returns_make_shared s h : returns (make_shared new_addr s h).
Proof. now eexists. Qed.

Lemma returns_make_number number h : returns (make_number new_addr number h).
Proof.
  destruct (make_number_returns number h) as (s & h' & E). rewrite E. now eexists.
Qed.

Lemma returns_resolve captured x h :
  In x captured -> returns (resolve captured x h).
Proof.
  intros H. destruct (resolve_bound captured x h H) as (position & E).
  rewrite E. now eexists.
Qed.

Create HintDb conversions.
#[local] Hint Resolve returns_ret returns_make_shared returns_make_number
  returns_resolve : conversions.

(** De Bruijn mode never fails on a closed tree. *)
Lemma convert_subset_dbj_closed node :
  forall lambda_depth captured h,
    closed captured node ->
    returns (convert_subset_dbj new_addr node lambda_depth captured h).
Proof.
  assert (Hop : forall node,
             (forall lambda_depth captured h, closed captured node ->
                returns (convert_subset_dbj new_addr node lambda_depth captured h)) ->
             forall lambda_depth captured h, closed captured node ->
               returns (dbj_operand new_addr node lambda_depth captured h)).
  { intros [v|? ?|? ?|?] IH lambda_depth captured h Hc; unfold dbj_operand;
      apply returns_bind; auto with conversions. }
  induction node as [v|binder _ body IH|f IHf a IHa|inner IH|]
    using node_induction; intros lambda_depth captured h Hc;
    rewrite convert_subset_dbj_eq; simpl in Hc.
  - auto with conversions.
  - apply returns_bind; auto with conversions.
  - destruct Hc as [Hf Ha].
    repeat (apply returns_bind; auto with conversions; intros).
  - now apply IH.
  - auto with conversions.
Qed.

Lemma unhandled_bind {A B} (m : M A) (k : A -> M B) h :
  returns_or_unhandled (m h) ->
  (forall a h', returns_or_unhandled (k a h')) ->
  returns_or_unhandled (bind m k h).
Proof.
  intros [([a h'] & E)|E] Hk.
  - rewrite (bind_returns _ _ _ _ _ E). apply Hk.
  - right. now apply bind_throws.
Qed.

Ltac unhandled_steps :=
  repeat first [ solve [auto]
               | solve [left; auto with conversions]
               | apply unhandled_bind; intros ].

Lemma convert_subset_closed node :
  forall lambda_depth captured h,
    closed captured node ->
    returns_or_unhandled (convert_subset new_addr node lambda_depth captured h).
Proof.
  assert (Hop : forall node,
             (forall lambda_depth captured h, closed captured node ->
                returns_or_unhandled
                  (convert_subset new_addr node lambda_depth captured h)) ->
             forall lambda_depth captured h, closed captured node ->
               returns_or_unhandled (slc_operand new_addr node lambda_depth captured h)).
  { intros [v|? ?|? ?|?] IH lambda_depth captured h Hc; unfold slc_operand;
      unhandled_steps. }
  induction node as [v|binder _ body IH|f IHf a IHa|inner IH|]
    using node_induction; intros lambda_depth captured h Hc;
    rewrite convert_subset_eq; simpl in Hc.
  - now right.
  - unfold lambda_marker. unhandled_steps.
  - destruct Hc as [Hf Ha]. unhandled_steps.
  - now apply IH.
  - left. auto with conversions.
Qed.

Lemma dbj_operand_closed node lambda_depth captured h :
  closed captured node -> returns (dbj_operand new_addr node lambda_depth captured h).
Proof.
  intros Hc.
  destruct node; unfold dbj_operand;
    apply returns_bind; auto with conversions;
    now apply convert_subset_dbj_closed.
Qed.

Ltac returns_steps :=
  repeat first [ solve [auto with conversions]
               | apply returns_bind; intros ].

(** With every variable in operand position, name-preserving mode
    converts a closed tree. *)
Lemma convert_subset_returns node :
  variables_are_operands node ->
  forall lambda_depth captured h,
    closed captured node ->
    returns (convert_subset new_addr node lambda_depth captured h).
Proof.
  assert (Hop : forall node,
             (variables_are_operands node ->
              forall lambda_depth captured h, closed captured node ->
                returns (convert_subset new_addr node lambda_depth captured h)) ->
             operand_of variables_are_operands node ->
             forall lambda_depth captured h, closed captured node ->
               returns (slc_operand new_addr node lambda_depth captured h)).
  { intros [v|? ?|? ?|?] IH Hv lambda_depth captured h Hc; unfold slc_operand;
      returns_steps. }
  induction node as [v|binder _ body IH|f IHf a IHa|inner IH|]
    using node_induction; intros Hv lambda_depth captured h Hc;
    rewrite convert_subset_eq; simpl in Hc, Hv.
  - destruct Hv.
  - unfold lambda_marker. returns_steps.
  - destruct Hc as [Hf Ha], Hv as [Hvf Hva]. returns_steps.
  - now apply IH.
  - auto with conversions.
Qed.

Lemma slc_operand_returns node lambda_depth captured h :
  operand_of variables_are_operands node -> closed captured node ->
  returns (slc_operand new_addr node lambda_depth captured h).
Proof.
  intros Hv Hc.
  destruct node; unfold slc_operand;
    (apply returns_bind;
     [first [now apply returns_resolve | now apply convert_subset_returns]
     |intros; returns_steps]).
Qed.

(** Both modes report an unbound variable that stands in operand
    position. *)
Lemma convert_unbound node :
  variables_are_operands node ->
  forall lambda_depth captured h,
    ~ closed captured node ->
    convert_subset_dbj new_addr node lambda_depth captured h
    = Throws UnknownVariableError
    /\ convert_subset new_addr node lambda_depth captured h
       = Throws UnknownVariableError.
Proof.
  assert (Hop : forall node,
             (variables_are_operands node ->
              forall lambda_depth captured h, ~ closed captured node ->
                convert_subset_dbj new_addr node lambda_depth captured h
                = Throws UnknownVariableError
                /\ convert_subset new_addr node lambda_depth captured h
                   = Throws UnknownVariableError) ->
             operand_of variables_are_operands node ->
             forall lambda_depth captured h, ~ closed captured node ->
               dbj_operand new_addr node lambda_depth captured h
               = Throws UnknownVariableError
               /\ slc_operand new_addr node lambda_depth captured h
                  = Throws UnknownVariableError).
  { intros [v|? ?|? ?|?] IH Hv lambda_depth captured h Hc;
      unfold dbj_operand, slc_operand;
      (split; apply bind_throws;
       [first [now apply resolve_unbound | now apply IH]
       |first [now apply resolve_unbound | now apply IH]]). }
  induction node as [v|binder _ body IH|f IHf a IHa|inner IH|]
    using node_induction; intros Hv lambda_depth captured h Hc;
    rewrite convert_subset_dbj_eq, convert_subset_eq; simpl in Hc, Hv.
  - destruct Hv.
  - destruct (Hop body IH Hv (lambda_depth + 1)%Z _ h Hc) as [Hd _].
    destruct (Hop body IH Hv (lambda_depth + 1)%Z _ (S (S h)) Hc) as [_ Hs].
    split; [now apply bind_throws|].
    unfold lambda_marker, bind at 1 2, make_shared. now apply bind_throws.
  - destruct Hv as [Hvf Hva].
    destruct (closed_dec captured f) as [Hf|Hf].
    + assert (Ha : ~ closed captured a) by tauto.
      destruct (dbj_operand_closed f lambda_depth captured h Hf) as ([ef hf] & Ef).
      destruct (slc_operand_returns f lambda_depth captured h Hvf Hf)
        as ([ef' hf'] & Ef').
      rewrite (bind_returns _ _ _ _ _ Ef), (bind_returns _ _ _ _ _ Ef').
      unfold bind at 1 3, make_shared.
      destruct (Hop a IHa Hva lambda_depth captured (S hf) Ha) as [Hd _].
      destruct (Hop a IHa Hva lambda_depth captured (S hf') Ha) as [_ Hs].
      split; now apply bind_throws.
    + destruct (Hop f IHf Hvf lambda_depth captured h Hf) as [Hd Hs].
      split; now apply bind_throws.
  - now apply IH.
  - tauto.
Qed.

(** C4, as the code has it.  When every variable reference is enclosed by
    a [DEFINITION] of its name, De Bruijn mode returns a term and
    name-preserving mode does not fail with [UnknownVariableError].  When
    some reference is not, both modes fail with [UnknownVariableError]
    provided the variables stand in operand position (body of a
    [DEFINITION], operand of an [APPLICATION]); a variable at the root or
    directly inside parentheses is never looked up. *)
Theorem binder_resolution (node : ULC_AST_node) (h : heap) :
  (closed [] node ->
   returns (convert_dbj new_addr (Some node) h)
   /\ convert new_addr (Some node) h <> Throws UnknownVariableError)
  /\ (variables_are_operands node -> ~ closed [] node ->
      convert_dbj new_addr (Some node) h = Throws UnknownVariableError
      /\ convert new_addr (Some node) h = Throws UnknownVariableError).
Proof.
  unfold convert_dbj, convert. split.
  - intros Hc. split; [now apply convert_subset_dbj_closed|].
    destruct (convert_subset_closed node 0%Z [] h Hc) as [(x & E)|E];
      rewrite E; discriminate.
  - intros Hv Hc. now apply convert_unbound.
Qed.

(** C10.  A variable with nothing around it but parentheses reaches the
    end of the [switch] in both converters: De Bruijn mode returns the
    empty term and allocates nothing, name-preserving mode throws its
    catch-all error, which is not [UnknownVariableError]; whether the
    variable is captured plays no part. *)
Theorem bare_atomic_unhandled (node : ULC_AST_node) (lambda_depth : Z)
    (captured : list string) (h : heap) :
  bare_atomic node ->
  convert_subset_dbj new_addr node lambda_depth captured h = Returns ([], h)
  /\ rendered (convert_dbj new_addr (Some node)) h = Returns "{}"
  /\ convert_subset new_addr node lambda_depth captured h
     = Throws UnhandledNodeError
  /\ convert new_addr (Some node) h = Throws UnhandledNodeError
  /\ UnhandledNodeError <> UnknownVariableError.
Proof.
  intros Hb.
  assert (H : forall lambda_depth captured,
             convert_subset_dbj new_addr node lambda_depth captured h
             = Returns ([], h)
             /\ convert_subset new_addr node lambda_depth captured h
                = Throws UnhandledNodeError).
  { induction Hb as [v|inner Hb IH]; intros d c; [now split|]. apply IH. }
  destruct (H lambda_depth captured) as [Hd Hs].
  destruct (H 0%Z []) as [Hd0 Hs0].
  repeat split; try assumption.
  - unfold rendered, convert_dbj. now rewrite Hd0.
  - discriminate.
Qed.

End Converters.

Lemma binder_resolution_witness :
  let x := ATOMIC (mk_token VARIABLE "x") in
  let y := ATOMIC (mk_token VARIABLE "y") in
  (closed [] (DEFINITION x x)
   /\ variables_are_operands (DEFINITION x y) /\ ~ closed [] (DEFINITION x y))
  /\ returns (convert_dbj N.of_nat (Some (DEFINITION x x)) 0)
  /\ convert N.of_nat (Some (DEFINITION x y)) 0 = Throws UnknownVariableError.
Proof.
  intros x y.
  assert (Hc : closed [] (DEFINITION x x)) by (simpl; auto).
  assert (Hv : variables_are_operands (DEFINITION x y)) by exact I.
  assert (Hn : ~ closed [] (DEFINITION x y)).
  { simpl. intros [H|[]]. discriminate H. }
  split; [auto|]. split.
  - exact (proj1 (proj1 (binder_resolution N.of_nat (DEFINITION x x) 0) Hc)).
  - exact (proj2 (proj2 (binder_resolution N.of_nat (DEFINITION x y) 0) Hv Hn)).
Defined.

(** C4 as stated fails for a variable in parentheses: in the tree of
    [\y.(x)] the reference [x] has no enclosing [DEFINITION], yet De Bruijn
    mode returns a term and name-preserving mode fails with its catch-all
    error; neither reports an unknown variable. *)
Lemma unbound_variable_in_group :
  let node := DEFINITION (ATOMIC (mk_token VARIABLE "y"))
                (GROUP (Some (ATOMIC (mk_token VARIABLE "x")))) in
  parse_text 6 "\y.(x)" = Some (Returns (Some node))
  /\ ~ closed [] node
  /\ rendered (convert_dbj N.of_nat (Some node)) 0 = Returns "{λ, {}}"
  /\ convert N.of_nat (Some node) 0 = Throws UnhandledNodeError
  /\ UnhandledNodeError <> UnknownVariableError.
Proof.
  cbv zeta. repeat split; try reflexivity; try discriminate.
  simpl. intros [H|[]]. discriminate H.
Qed.

Lemma bare_atomic_unhandled_witness :
  let node := GROUP (Some (ATOMIC (mk_token VARIABLE "x"))) in
  bare_atomic node
  /\ parse_text 4 "(x)" = Some (Returns (Some node))
  /\ parse_text 2 "x" = Some (Returns (Some (ATOMIC (mk_token VARIABLE "x"))))
  /\ rendered (convert_dbj N.of_nat (Some node)) 0 = Returns "{}"
  /\ convert N.of_nat (Some node) 0 = Throws UnhandledNodeError.
Proof.
  intros node.
  assert (Hb : bare_atomic node) by (repeat constructor).
  destruct (bare_atomic_unhandled N.of_nat node 0 [] 0 Hb) as (_ & Hr & _ & Hs & _).
  repeat split; assumption || reflexivity.
Defined.

(** ** De Bruijn mode from source text *)

(** C6.  Whatever addresses the allocator returns and whatever the bound
    on the recursion, once it is deep enough for the text: [\x.x] is
    rendered [{λ, 1}] and [\x.\y.x] is rendered [{λ, {λ, 2}}] in De Bruijn
    mode. *)
Theorem dbj_examples (new_addr : nat -> addr) (h : heap) (fuel : nat) :
  display_dbj new_addr (4 + fuel) "\x.x" h = Some (Returns "{λ, 1}")
  /\ display_dbj new_addr (6 + fuel) "\x.\y.x" h
     = Some (Returns "{λ, {λ, 2}}").
Proof. split; reflexivity. Qed.

(** ** The two modes resolve variables alike *)

Section Emit.

Variable new_addr : nat -> addr.

Lemma bind_inv {A B} (m : M A) (k : A -> M B) h r :
  bind m k h = Returns r ->
  exists a h', m h = Returns (a, h') /\ k a h' = Returns r.
Proof.
  unfold bind. destruct (m h) as [[a h']|e]; [|discriminate].
  intros H. now exists a, h'.
Qed.

Lemma resolve_inv captured x h position h' :
  resolve captured x h = Returns (position, h') ->
  find_position captured x = Some position /\ h' = h.
Proof.
  unfold resolve. destruct (find_position captured x); [|discriminate].
  unfold ret. intros [= -> ->]. now split.
Qed.

Lemma resolve_term_eq node captured :
  resolve_term node captured
  = match node with
    | ATOMIC _ => None
    | DEFINITION binder body =>
        option_map R_lambda
          (resolve_operand body (text (value binder) :: captured))
    | APPLICATION f a =>
        match resolve_operand f captured, resolve_operand a captured with
        | Some rf, Some ra => Some (R_apply rf ra)
        | _, _ => None
        end
    | GROUP None => Some R_null
    | GROUP (Some inner) => resolve_term inner captured
    end.
Proof.
  destruct node as [v|binder body|f a|[inner|]]; try reflexivity.
  destruct body; cbn [resolve_term resolve_operand];
    match goal with |- context [option_map _ ?x] => now destruct x end.
Qed.

Lemma operands_agree node :
  (forall lambda_depth captured h1 h2 r1 r2,
      convert_subset_dbj new_addr node lambda_depth captured h1 = Returns r1 ->
      convert_subset new_addr node lambda_depth captured h2 = Returns r2 ->
      exists t, resolve_term node captured = Some t
                /\ emit_dbj new_addr t h1 = Returns r1 /\ emit_slc new_addr t h2 = Returns r2) ->
  forall lambda_depth captured h1 h2 r1 r2,
    dbj_operand new_addr node lambda_depth captured h1 = Returns r1 ->
    slc_operand new_addr node lambda_depth captured h2 = Returns r2 ->
    exists o, resolve_operand node captured = Some o
              /\ emit_dbj_operand new_addr o h1 = Returns r1
              /\ emit_slc_operand new_addr o h2 = Returns r2.
Proof.
  intros IH lambda_depth captured h1 h2 r1 r2 Hd Hs.
  assert (Hsub : forall d s h1' h2',
             convert_subset_dbj new_addr node lambda_depth captured h1
             = Returns (d, h1') ->
             make_shared new_addr d h1' = Returns r1 ->
             convert_subset new_addr node lambda_depth captured h2
             = Returns (s, h2') ->
             make_shared new_addr s h2' = Returns r2 ->
             exists o, option_map O_term (resolve_term node captured) = Some o
                       /\ emit_dbj_operand new_addr o h1 = Returns r1
                       /\ emit_slc_operand new_addr o h2 = Returns r2).
  { intros d s h1' h2' Ed Hd' Es Hs'.
    destruct (IH _ _ _ _ _ _ Ed Es) as (t & Ht & Et1 & Et2).
    exists (O_term t). rewrite Ht.
    cbn [option_map emit_dbj_operand emit_slc_operand].
    now rewrite (bind_returns _ _ _ _ _ Et1), (bind_returns _ _ _ _ _ Et2). }
  destruct node as [v|binder body|f a|inner];
    unfold dbj_operand in Hd; unfold slc_operand in Hs;
    apply bind_inv in Hd as (x1 & h1' & Hd & Hd');
    apply bind_inv in Hs as (x2 & h2' & Hs & Hs');
    try (now apply (Hsub x1 x2 h1' h2')).
  apply resolve_inv in Hd as [Hn ->]. apply resolve_inv in Hs as [Hn' ->].
  assert (x2 = x1) as -> by congruence.
  exists (O_index x1). simpl. rewrite Hn. auto.
Qed.

(** C3.  When both modes convert a tree, there is one resolved term, with
    every variable occurrence replaced by its 1-based distance to its
    binder on the capture stack, of which the De Bruijn result and the
    name-preserving result are the two renderings: where the first has the
    integer [n], the second has [make_number n]. *)
Theorem modes_agree_on_distances (node : ULC_AST_node) (lambda_depth : Z)
    (captured : list string) (h1 h2 : heap) (r1 r2 : SLC_set * heap) :
  convert_subset_dbj new_addr node lambda_depth captured h1 = Returns r1 ->
  convert_subset new_addr node lambda_depth captured h2 = Returns r2 ->
  exists t,
    resolve_term node captured = Some t
    /\ emit_dbj new_addr t h1 = Returns r1
    /\ emit_slc new_addr t h2 = Returns r2.
Proof.
  revert lambda_depth captured h1 h2 r1 r2.
  induction node as [v|binder _ body IH|f IHf a IHa|inner IH|]
    using node_induction; intros lambda_depth captured h1 h2 r1 r2;
    rewrite convert_subset_dbj_eq, convert_subset_eq, resolve_term_eq.
  - discriminate.
  - intros Hd Hs.
    apply bind_inv in Hd as (e1 & h1a & Hd & Hd').
    apply bind_inv in Hs as (ptop & h2a & Hm & Hs).
    apply bind_inv in Hs as (e2 & h2b & Hs & Hs').
    destruct (operands_agree body IH _ _ _ _ _ _ Hd Hs) as (o & Ho & Ed & Es).
    exists (R_lambda o). rewrite Ho. split; [reflexivity|].
    cbn [emit_dbj emit_slc].
    rewrite (bind_returns _ _ _ _ _ Ed), (bind_returns _ _ _ _ _ Hm),
      (bind_returns _ _ _ _ _ Es).
    now split.
  - intros Hd Hs.
    apply bind_inv in Hd as (ef1 & h1a & Hdf & Hd).
    apply bind_inv in Hd as (pp1 & h1b & Hdp & Hd).
    apply bind_inv in Hd as (ea1 & h1c & Hda & Hd).
    apply bind_inv in Hs as (ef2 & h2a & Hsf & Hs).
    apply bind_inv in Hs as (pp2 & h2b & Hsp & Hs).
    apply bind_inv in Hs as (ea2 & h2c & Hsa & Hs).
    destruct (operands_agree f IHf _ _ _ _ _ _ Hdf Hsf) as (rf & Hf & Edf & Esf).
    destruct (operands_agree a IHa _ _ _ _ _ _ Hda Hsa) as (ra & Ha & Eda & Esa).
    exists (R_apply rf ra). rewrite Hf, Ha. split; [reflexivity|].
    cbn [emit_dbj emit_slc].
    rewrite (bind_returns _ _ _ _ _ Edf), (bind_returns _ _ _ _ _ Hdp),
      (bind_returns _ _ _ _ _ Eda).
    rewrite (bind_returns _ _ _ _ _ Esf), (bind_returns _ _ _ _ _ Hsp),
      (bind_returns _ _ _ _ _ Esa).
    now split.
  - apply IH.
  - intros Hd Hs. exists R_null. auto.
Qed.

End Emit.

Lemma modes_agree_on_distances_witness :
  let x := ATOMIC (mk_token VARIABLE "x") in
  let y := ATOMIC (mk_token VARIABLE "y") in
  let node := DEFINITION x (DEFINITION y (APPLICATION x y)) in
  exists r1 r2,
    (convert_subset_dbj N.of_nat node 0 [] 0 = Returns r1
     /\ convert_subset N.of_nat node 0 [] 0 = Returns r2)
    /\ exists t,
         resolve_term node [] = Some t
         /\ emit_dbj N.of_nat t 0 = Returns r1
         /\ emit_slc N.of_nat t 0 = Returns r2.
Proof.
  intros x y node.
  destruct (convert_subset_dbj N.of_nat node 0 [] 0) as [r1|e] eqn:E1;
    [|discriminate E1].
  destruct (convert_subset N.of_nat node 0 [] 0) as [r2|e] eqn:E2;
    [|discriminate E2].
  exists r1, r2. split; [now split|].
  exact (modes_agree_on_distances N.of_nat node 0 [] 0 0 r1 r2 E1 E2).
Defined.

(** ** The bracket parser *)

Section Skeleton.

Variable new_addr : nat -> addr.

Lemma build_eq children :
  build new_addr (Group children) = build_list new_addr children [].
Proof. reflexivity. Qed.

Lemma print_eq children :
  print (Group children) = "{" ++ print_list children ++ "}".
Proof. reflexivity. Qed.

Lemma bind_assoc {A B C} (m : M A) (k : A -> M B) (k' : B -> M C) h :
  bind (bind m k) k' h = bind m (fun a => bind (k a) k') h.
Proof. unfold bind. now destruct (m h) as [[a h']|e]. Qed.

Lemma bind_ext {A B} (m : M A) (k k' : A -> M B) h :
  (forall a h', k a h' = k' a h') -> bind m k h = bind m k' h.
Proof. intros H. unfold bind. now destruct (m h) as [[a h']|e]. Qed.

Lemma parse_toposet_loop_braces str :
  forall stk h,
    parse_toposet_loop new_addr str stk h
    = parse_toposet_loop new_addr (braces str) stk h.
Proof.
  induction str as [|ch str IH]; intros stk h; [reflexivity|].
  cbn [braces parse_toposet_loop]. unfold is_brace.
  destruct (Ascii.eqb ch "{") eqn:Eo; cbn [orb].
  - cbn [parse_toposet_loop]. rewrite Eo. apply IH.
  - destruct (Ascii.eqb ch "}") eqn:Ec.
    + cbn [parse_toposet_loop]. rewrite Eo, Ec.
      destruct stk as [|completed_set [|top stk]]; try reflexivity.
      unfold bind, make_shared. apply IH.
    + apply IH.
Qed.

(** A whole group met inside an open one is built and inserted into it. *)
Lemma parse_toposet_loop_group g :
  forall rest top stk h,
    parse_toposet_loop new_addr (print g ++ rest) (top :: stk) h
    = (s <- build new_addr g ;;
       p <- make_shared new_addr s ;;
       parse_toposet_loop new_addr rest (set_insert p top :: stk)) h.
Proof.
  induction g as [children IH] using group_induction.
  assert (Hlist : forall rest acc stk h,
             parse_toposet_loop new_addr (print_list children ++ rest)
               (acc :: stk) h
             = (acc' <- build_list new_addr children acc ;;
                parse_toposet_loop new_addr rest (acc' :: stk)) h).
  { induction IH as [|c l Hc _ IHl]; intros rest acc stk h; [reflexivity|].
    cbn [print_list build_list]. rewrite append_assoc, Hc, bind_assoc.
    apply bind_ext. intros s h1. rewrite bind_assoc.
    apply bind_ext. intros p' h2. apply IHl. }
  intros rest top stk h. rewrite print_eq, build_eq.
  rewrite !append_assoc. cbn [append parse_toposet_loop Ascii.eqb Bool.eqb].
  rewrite Hlist. apply bind_ext. reflexivity.
Qed.

Lemma parse_toposet_loop_children children :
  forall rest acc stk h,
    parse_toposet_loop new_addr (print_list children ++ rest) (acc :: stk) h
    = (acc' <- build_list new_addr children acc ;;
       parse_toposet_loop new_addr rest (acc' :: stk)) h.
Proof.
  induction children as [|c l IH]; intros rest acc stk h; [reflexivity|].
  cbn [print_list build_list].
  rewrite append_assoc, parse_toposet_loop_group, bind_assoc.
  apply bind_ext. intros s h1. rewrite bind_assoc.
  apply bind_ext. intros p' h2. apply IH.
Qed.

(** The first complete group of a text is built and returned; what comes
    after its closing brace is not read. *)
Lemma parse_toposet_first_group g rest h :
  parse_toposet new_addr (print g ++ rest) h = build new_addr g h.
Proof.
  destruct g as [children]. unfold parse_toposet. rewrite print_eq, build_eq.
  rewrite !append_assoc. cbn [append parse_toposet_loop Ascii.eqb Bool.eqb].
  rewrite parse_toposet_loop_children. unfold bind.
  now destruct (build_list new_addr children [] h) as [[s h']|e].
Qed.

End Skeleton.

(** ** Failures of the bracket parser *)

Section BracketFailures.

Variable new_addr : nat -> addr.

Lemma parse_toposet_loop_scan str :
  forall stk h,
    match scan str (List.length stk) with
    | Completes => returns (parse_toposet_loop new_addr str stk h)
    | UnmatchedClose =>
        parse_toposet_loop new_addr str stk h
        = Throws UnexpectedCloseBraceError
    | NeverCompletes =>
        parse_toposet_loop new_addr str stk h = Throws IncompleteInputError
    end.
Proof.
  induction str as [|ch str IH]; intros stk h; [reflexivity|].
  cbn [scan parse_toposet_loop].
  destruct (Ascii.eqb ch "{"); [apply (IH ([] :: stk))|].
  destruct (Ascii.eqb ch "}"); [|apply IH].
  destruct stk as [|completed_set [|top stk]]; cbn [List.length].
  - reflexivity.
  - now eexists.
  - unfold bind, make_shared. apply (IH (_ :: stk)).
Qed.

Lemma prefix_of_String ch str pre post :
  String ch str = pre ++ post <->
  (pre = "" /\ post = String ch str)
  \/ exists pre', pre = String ch pre' /\ str = pre' ++ post.
Proof.
  split.
  - destruct pre as [|c pre']; simpl; intros H; [left; auto|].
    injection H as -> ->. right. now eexists.
  - intros [[-> ->]|(pre' & -> & ->)]; reflexivity.
Qed.

Lemma scan_open_matched str :
  forall depth, (1 <= depth)%nat -> scan str depth <> UnmatchedClose.
Proof.
  induction str as [|ch str IH]; intros depth Hd; simpl; [discriminate|].
  destruct (Ascii.eqb ch "{"); [apply IH; lia|].
  destruct (Ascii.eqb ch "}"); [|now apply IH].
  destruct depth as [|[|depth]]; [lia|discriminate|apply IH; lia].
Qed.

Lemma brace_chars_differ ch :
  Ascii.eqb ch "{" = true -> Ascii.eqb ch "}" = false.
Proof. rewrite Ascii.eqb_eq. now intros ->. Qed.

Lemma scan_open_never_completes str :
  forall depth, (1 <= depth)%nat ->
    scan str depth = NeverCompletes <->
    forall pre post, str = pre ++ post ->
                     (closes pre < depth + opens pre)%nat.
Proof.
  unfold opens, closes.
  induction str as [|ch str IH]; intros depth Hd.
  - split; [|reflexivity]. intros _ [|c pre] post H; [simpl; lia|discriminate].
  - cbn [scan].
    destruct (Ascii.eqb ch "{") eqn:Eo.
    + pose proof (brace_chars_differ ch Eo) as Ec.
      rewrite IH by lia. split; intros H pre post E.
      * apply prefix_of_String in E as [[-> ->]|(pre' & -> & E)]; [simpl; lia|].
        specialize (H pre' post E). cbn [count_char]. rewrite Eo, Ec. lia.
      * specialize (H (String ch pre) post). cbn [count_char append] in H.
        rewrite Eo, Ec, E in H. specialize (H eq_refl). lia.
    + destruct (Ascii.eqb ch "}") eqn:Ec.
      * destruct depth as [|[|depth]]; [lia| |].
        -- split; [discriminate|]. intros H.
           specialize (H (String ch "") str eq_refl).
           cbn [count_char] in H. rewrite Eo, Ec in H. simpl in H. lia.
        -- rewrite IH by lia. split; intros H pre post E.
           ++ apply prefix_of_String in E as [[-> ->]|(pre' & -> & E)];
                [simpl; lia|].
              specialize (H pre' post E). cbn [count_char].
              rewrite Eo, Ec. lia.
           ++ specialize (H (String ch pre) post). cbn [count_char append] in H.
              rewrite Eo, Ec, E in H. specialize (H eq_refl). lia.
      * rewrite IH by lia. split; intros H pre post E.
        -- apply prefix_of_String in E as [[-> ->]|(pre' & -> & E)];
             [simpl; lia|].
           specialize (H pre' post E). cbn [count_char]. rewrite Eo, Ec. lia.
        -- specialize (H (String ch pre) post). cbn [count_char append] in H.
           rewrite Eo, Ec, E in H. specialize (H eq_refl). lia.
Qed.

Lemma scan_unmatched_close str :
  scan str 0 = UnmatchedClose <->
  exists pre post, str = pre ++ String "}" post /\ braces pre = "".
Proof.
  induction str as [|ch str IH].
  - split; [discriminate|]. intros ([|c pre] & post & E & _); discriminate.
  - cbn [scan]. destruct (Ascii.eqb ch "{") eqn:Eo.
    + pose proof (brace_chars_differ ch Eo) as Ec. split.
      * intros H. now apply scan_open_matched in H.
      * intros (pre & post & E & Hpre).
        apply prefix_of_String in E as [[-> E]|(pre' & -> & E)].
        -- injection E as <- _. discriminate Ec.
        -- cbn [braces] in Hpre. unfold is_brace in Hpre.
           rewrite Eo in Hpre. discriminate.
    + destruct (Ascii.eqb ch "}") eqn:Ec.
      * split; [|reflexivity]. intros _. apply Ascii.eqb_eq in Ec as ->.
        now exists "", str.
      * rewrite IH. split.
        -- intros (pre & post & -> & Hpre). exists (String ch pre), post.
           split; [reflexivity|]. cbn [braces]. unfold is_brace.
           now rewrite Eo, Ec.
        -- intros (pre & post & E & Hpre).
           apply prefix_of_String in E as [[-> E]|(pre' & -> & E)].
           ++ injection E as <- _. discriminate Ec.
           ++ exists pre', post. split; [exact E|].
              cbn [braces] in Hpre. unfold is_brace in Hpre.
              now rewrite Eo, Ec in Hpre.
Qed.

Lemma scan_never_completes str :
  scan str 0 = NeverCompletes <->
  forall pre post, str = pre ++ post ->
                   braces pre = "" \/ (closes pre < opens pre)%nat.
Proof.
  unfold opens, closes.
  induction str as [|ch str IH].
  - split; [|reflexivity]. intros _ [|c pre] post H; [now left|discriminate].
  - cbn [scan]. destruct (Ascii.eqb ch "{") eqn:Eo.
    + pose proof (brace_chars_differ ch Eo) as Ec.
      rewrite scan_open_never_completes by lia. unfold opens, closes.
      split; intros H pre post E.
      * apply prefix_of_String in E as [[-> ->]|(pre' & -> & E)]; [now left|].
        right. specialize (H pre' post E). cbn [count_char].
        rewrite Eo, Ec. lia.
      * destruct (H (String ch pre) post) as [Hb|Hc].
        -- cbn [append]. now rewrite E.
        -- cbn [braces] in Hb. unfold is_brace in Hb. rewrite Eo in Hb.
           discriminate.
        -- cbn [count_char] in Hc. rewrite Eo, Ec in Hc. lia.
    + destruct (Ascii.eqb ch "}") eqn:Ec.
      * split; [discriminate|]. intros H.
        destruct (H (String ch "") str eq_refl) as [Hb|Hc].
        -- cbn [braces] in Hb. unfold is_brace in Hb. rewrite Eo, Ec in Hb.
           discriminate.
        -- cbn [count_char] in Hc. rewrite Eo, Ec in Hc. simpl in Hc. lia.
      * rewrite IH. split; intros H pre post E.
        -- apply prefix_of_String in E as [[-> ->]|(pre' & -> & E)];
             [now left|].
           cbn [braces count_char]. unfold is_brace. rewrite Eo, Ec.
           apply (H pre' post E).
        -- specialize (H (String ch pre) post).
           cbn [braces count_char append] in H. unfold is_brace in H.
           rewrite Eo, Ec, E in H. now apply H.
Qed.

(** C7.  [parse_toposet] fails with [UnexpectedCloseBraceError] exactly
    when the text has a closing brace with no brace before it, which is
    the only way to meet one with the stack empty, and with
    [IncompleteInputError] exactly when no top-level group is ever
    completed: every part of the text read so far either has no brace or
    has more opening than closing braces.  So the empty text and ["{"]
    give [IncompleteInputError] and ["}"] gives
    [UnexpectedCloseBraceError]; there is no other failure. *)
Theorem parse_toposet_failures (str : string) (h : heap) :
  (parse_toposet new_addr str h = Throws UnexpectedCloseBraceError <->
   exists pre post, str = pre ++ String "}" post /\ braces pre = "")
  /\ (parse_toposet new_addr str h = Throws IncompleteInputError <->
      forall pre post, str = pre ++ post ->
                       braces pre = "" \/ (closes pre < opens pre)%nat)
  /\ (forall e, parse_toposet new_addr str h = Throws e ->
                e = UnexpectedCloseBraceError \/ e = IncompleteInputError)
  /\ parse_toposet new_addr "{" h = Throws IncompleteInputError
  /\ parse_toposet new_addr "" h = Throws IncompleteInputError
  /\ parse_toposet new_addr "}" h = Throws UnexpectedCloseBraceError.
Proof.
  unfold parse_toposet.
  pose proof (parse_toposet_loop_scan str [] h) as Hs. cbn [List.length] in Hs.
  rewrite <- scan_unmatched_close, <- scan_never_completes.
  assert (Hcases :
            (scan str 0 = Completes
             /\ returns (parse_toposet_loop new_addr str [] h))
            \/ (scan str 0 = UnmatchedClose
                /\ parse_toposet_loop new_addr str [] h
                   = Throws UnexpectedCloseBraceError)
            \/ (scan str 0 = NeverCompletes
                /\ parse_toposet_loop new_addr str [] h
                   = Throws IncompleteInputError)).
  { destruct (scan str 0); auto. }
  clear Hs.
  destruct Hcases as [[-> ([s h'] & ->)]|[[-> ->]|[-> ->]]];
    (split; [|split; [|split; [|repeat split]]]);
    try (split; (discriminate || reflexivity));
    intros e [= <-]; auto.
Qed.

End BracketFailures.

(** ** The skeleton the bracket parser returns *)

Section SkeletonOfText.

Variable new_addr : nat -> addr.

(** With groups open, a text that lets the parser return closes each of
    them in turn, whole groups in between. *)
Lemma returns_closes_levels str :
  forall stk h,
    stk <> [] ->
    returns (parse_toposet_loop new_addr str stk h) ->
    exists levels rest,
      List.length levels = List.length stk
      /\ braces str = print_levels levels ++ rest.
Proof.
  induction str as [|ch str IH]; intros stk h Hstk Hr.
  - destruct Hr as (r & Hr). discriminate Hr.
  - cbn [parse_toposet_loop braces] in *. unfold is_brace.
    destruct (Ascii.eqb ch "{") eqn:Eo; cbn [orb].
    + apply Ascii.eqb_eq in Eo as ->.
      destruct (IH ([] :: stk) h) as (levels & rest & Hlen & E);
        [discriminate|exact Hr|].
      destruct levels as [|l0 [|l1 levels]]; cbn [List.length] in Hlen;
        [discriminate| |].
      * destruct stk; [now destruct Hstk|discriminate].
      * exists ((Group l0 :: l1) :: levels), rest. split.
        -- cbn [List.length] in *. lia.
        -- rewrite E. cbn [print_levels print_list]. rewrite print_eq.
           repeat (rewrite ?append_assoc; cbn [append]). reflexivity.
    + destruct (Ascii.eqb ch "}") eqn:Ec.
      * apply Ascii.eqb_eq in Ec as ->.
        destruct stk as [|completed_set [|top stk]]; [now destruct Hstk| |].
        -- now exists [[]], (braces str).
        -- unfold bind, make_shared in Hr.
           assert (Hne : set_insert (shared_ptr_elt (new_addr h) completed_set)
                           top :: stk <> []) by discriminate.
           destruct (IH _ _ Hne Hr) as (levels & rest & Hlen & E).
           exists ([] :: levels), rest. split.
           ++ cbn [List.length] in *. lia.
           ++ now rewrite E.
      * now apply IH with h.
Qed.

Lemma returns_first_group str :
  forall h,
    returns (parse_toposet new_addr str h) ->
    exists g rest, braces str = print g ++ rest.
Proof.
  unfold parse_toposet.
  induction str as [|ch str IH]; intros h Hr.
  - destruct Hr as (r & Hr). discriminate Hr.
  - cbn [parse_toposet_loop braces] in *. unfold is_brace.
    destruct (Ascii.eqb ch "{") eqn:Eo; cbn [orb].
    + apply Ascii.eqb_eq in Eo as ->.
      destruct (returns_closes_levels str [[]] h) as (levels & rest & Hlen & E);
        [discriminate|exact Hr|].
      destruct levels as [|l0 [|l1 levels]]; try discriminate Hlen.
      exists (Group l0), rest. rewrite E, print_eq. cbn [print_levels].
      repeat (rewrite ?append_assoc; cbn [append]). reflexivity.
    + destruct (Ascii.eqb ch "}") eqn:Ec.
      * destruct Hr as (r & Hr). discriminate Hr.
      * now apply IH with h.
Qed.

(** C8.  The braces of the text are all that counts: when they begin with
    a complete group, the parser returns the term built from that group
    (each group inside it made into a nested term and inserted into the
    term of the group around it) and whatever follows is ignored; and the
    parser returns a term in this case only. *)
Theorem parse_toposet_skeleton (str : string) (h : heap) :
  parse_toposet new_addr str h = parse_toposet new_addr (braces str) h
  /\ (forall g rest,
        braces str = print g ++ rest ->
        parse_toposet new_addr str h = build new_addr g h)
  /\ (forall r,
        parse_toposet new_addr str h = Returns r ->
        exists g rest,
          braces str = print g ++ rest /\ build new_addr g h = Returns r).
Proof.
  assert (Hb : parse_toposet new_addr str h
               = parse_toposet new_addr (braces str) h)
    by apply parse_toposet_loop_braces.
  assert (Hg : forall g rest,
             braces str = print g ++ rest ->
             parse_toposet new_addr str h = build new_addr g h).
  { intros g rest E. rewrite Hb, E. apply parse_toposet_first_group. }
  split; [exact Hb|]. split; [exact Hg|].
  intros r Hr.
  destruct (returns_first_group str h) as (g & rest & E); [now exists r|].
  exists g, rest. split; [exact E|]. now rewrite <- (Hg g rest E).
Qed.

End SkeletonOfText.

Lemma parse_toposet_skeleton_witness :
  let str := "{{}, {{}}} and {more}}" in
  let g := Group [Group []; Group [Group []]] in
  braces str = print g ++ "{}}"
  /\ parse_toposet N.of_nat str 0 = build N.of_nat g 0
  /\ rendered (parse_toposet N.of_nat str) 0 = Returns "{{}, {{}}}".
Proof.
  intros str g.
  assert (E : braces str = print g ++ "{}}") by reflexivity.
  split; [exact E|]. split.
  - exact (proj1 (proj2 (parse_toposet_skeleton N.of_nat str 0)) g _ E).
  - reflexivity.
Defined.

(** ** The lexer moves forward *)

Section LexerProgress.

Lemma substring_length_le (n m : nat) (s : string) :
  (String.length (substring n m s) <= m)%nat.
Proof.
  revert n m. induction s as [|c s IH]; intros [|n] [|m]; simpl; try lia.
  - specialize (IH 0%nat m). lia.
  - apply (IH n 0%nat).
  - apply IH.
Qed.

Lemma run_length_le (p : ascii -> bool) (s : string) :
  (run_length p s <= String.length s)%nat.
Proof.
  induction s as [|c s IH]; simpl; [lia|]. destruct (p c); simpl; lia.
Qed.

Lemma get_Some_lt (n : nat) (s : string) (ch : ascii) :
  String.get n s = Some ch -> (n < String.length s)%nat.
Proof.
  revert n. induction s as [|c s IH]; intros [|n]; simpl; try discriminate.
  - lia.
  - intros H. apply IH in H. lia.
Qed.

Lemma substring_head (n : nat) (s : string) (ch : ascii) :
  String.get n s = Some ch ->
  exists rest, substring n (String.length s - n) s = String ch rest.
Proof.
  revert n. induction s as [|c s IH]; intros [|n]; simpl; try discriminate.
  - intros [= ->]. now eexists.
  - apply IH.
Qed.

(** A call either returns a token, having moved forward by at least one
    character unless the token is [EOF_TOK], or throws "Invalid token". *)
Lemma lexer_next_token_progress (lexer : ULC_lexer) :
  lexer_ok lexer ->
  match lexer_next_token lexer with
  | Returns (tok, lexer') =>
      text_ lexer' = text_ lexer
      /\ lexer_ok lexer'
      /\ (remaining lexer' <= remaining lexer)%nat
      /\ (type tok <> EOF_TOK -> (remaining lexer' < remaining lexer)%nat)
  | Throws e => e = InvalidTokenError
  end.
Proof.
  unfold lexer_ok, remaining, lexer_next_token. intros Hok.
  set (pos := (pos_ lexer + run_length isspace (from_pos lexer (pos_ lexer)))%nat).
  assert (Hpos : (pos_ lexer <= pos <= String.length (text_ lexer))%nat).
  { unfold pos, from_pos.
    pose proof (run_length_le isspace
                  (substring (pos_ lexer)
                     (String.length (text_ lexer) - pos_ lexer) (text_ lexer))).
    pose proof (substring_length_le (pos_ lexer)
                  (String.length (text_ lexer) - pos_ lexer) (text_ lexer)).
    lia. }
  destruct (String.get pos (text_ lexer)) as [ch|] eqn:Hget.
  - apply get_Some_lt in Hget as Hlt.
    destruct (Ascii.eqb ch "."); [simpl; repeat split; try lia|].
    destruct (Ascii.eqb ch "\"); [simpl; repeat split; try lia|].
    destruct (Ascii.eqb ch "("); [simpl; repeat split; try lia|].
    destruct (Ascii.eqb ch ")"); [simpl; repeat split; try lia|].
    destruct (isalnum ch) eqn:Hal; [|reflexivity].
    destruct (substring_head _ _ _ Hget) as (rest & Hrest).
    assert (Hn : (1 <= run_length isalnum (from_pos lexer pos)
                  <= String.length (text_ lexer) - pos)%nat).
    { unfold from_pos. split.
      - rewrite Hrest. simpl. rewrite Hal. lia.
      - etransitivity; [apply run_length_le|apply substring_length_le]. }
    simpl. repeat split; try lia.
  - simpl. rewrite Nat.add_0_r. repeat split; try lia. now intros [].
Qed.

Lemma from_pos_drop lexer pos : from_pos lexer pos = drop pos (text_ lexer).
Proof.
  unfold from_pos. generalize (text_ lexer) as s. revert pos.
  assert (H0 : forall s, substring 0 (String.length s) s = s).
  { induction s as [|c s IH]; simpl; [reflexivity|now rewrite IH]. }
  induction pos as [|pos IH]; intros [|c s]; simpl; try reflexivity.
  - now rewrite H0.
  - apply IH.
Qed.

Lemma get_drop n k s : String.get (n + k) s = String.get k (drop n s).
Proof.
  revert s. induction n as [|n IH]; intros [|c s]; simpl; try reflexivity.
  - now destruct k.
Qed.

Lemma get_after_run (p : ascii -> bool) s ch :
  String.get (run_length p s) s = Some ch -> p ch = false.
Proof.
  induction s as [|c s IH]; simpl; [discriminate|].
  destruct (p c) eqn:E; simpl; [exact IH|]. now intros [= <-].
Qed.

Lemma lexer_close_paren lexer tok lexer' :
  lexer_next_token lexer = Returns (tok, lexer') ->
  type tok = C_PAREN ->
  exists n, String.get n (text_ lexer) = Some ")"%char.
Proof.
  unfold lexer_next_token.
  set (pos := (pos_ lexer + run_length isspace (from_pos lexer (pos_ lexer)))%nat).
  destruct (String.get pos (text_ lexer)) as [ch|] eqn:Hget.
  - destruct (Ascii.eqb ch "."); [intros [= <- _]; discriminate|].
    destruct (Ascii.eqb ch "\"); [intros [= <- _]; discriminate|].
    destruct (Ascii.eqb ch "("); [intros [= <- _]; discriminate|].
    destruct (Ascii.eqb ch ")") eqn:E.
    + apply Ascii.eqb_eq in E as ->. intros _ _. now exists pos.
    + destruct (isalnum ch); [intros [= <- _]; discriminate|discriminate].
  - intros [= <- _]. discriminate.
Qed.

Lemma lexer_throws lexer e :
  lexer_next_token lexer = Throws e ->
  e = InvalidTokenError /\ ~ lexable (text_ lexer).
Proof.
  unfold lexer_next_token.
  set (pos := (pos_ lexer + run_length isspace (from_pos lexer (pos_ lexer)))%nat).
  destruct (String.get pos (text_ lexer)) as [ch|] eqn:Hget; [|discriminate].
  destruct (Ascii.eqb ch ".") eqn:E1; [discriminate|].
  destruct (Ascii.eqb ch "\") eqn:E2; [discriminate|].
  destruct (Ascii.eqb ch "(") eqn:E3; [discriminate|].
  destruct (Ascii.eqb ch ")") eqn:E4; [discriminate|].
  destruct (isalnum ch) eqn:E5; [discriminate|].
  intros [= <-]. split; [reflexivity|]. intros Hlex.
  assert (Hsp : isspace ch = false).
  { unfold pos in Hget. rewrite from_pos_drop, get_drop in Hget.
    now apply get_after_run in Hget. }
  specialize (Hlex _ _ Hget). unfold lexable_char in Hlex.
  rewrite Hsp, E1, E2, E3, E4, E5 in Hlex. discriminate.
Qed.

End LexerProgress.

(** ** The parser terminates *)

Section ParserTermination.

Variable source : string.

Lemma ensures_bind {A B} (m : P A) (k : A -> P B) p Q R :
  ensures source m p Q ->
  (forall a p', Q a p' -> ensures source (k a) p' R) ->
  ensures source (pbind m k) p R.
Proof.
  unfold ensures, pbind. destruct (m p) as [[[a p']|e]|]; auto.
  intros HQ Hk. now apply Hk.
Qed.

Lemma ensures_ret {A} (a : A) p (Q : A -> ULC_parser -> Prop) :
  Q a p -> ensures source (pret a) p Q.
Proof. auto. Qed.

Lemma ensures_weaken {A} (m : P A) p (Q Q' : A -> ULC_parser -> Prop) :
  ensures source m p Q -> (forall a p', Q a p' -> Q' a p') -> ensures source m p Q'.
Proof.
  unfold ensures. destruct (m p) as [[[a p']|e]|]; auto.
Qed.

Lemma extends_refl p : extends p p.
Proof. exists []. rewrite app_nil_r. simpl. split; [reflexivity|lia]. Qed.

Lemma extends_trans p1 p2 p3 : extends p1 p2 -> extends p2 p3 -> extends p1 p3.
Proof.
  intros (n1 & E1 & H1) (n2 & E2 & H2). exists (n1 ++ n2)%list.
  rewrite E2, E1, <- app_assoc. split; [reflexivity|].
  rewrite filter_app, length_app. lia.
Qed.

Lemma step_refl p : parser_ok source p -> step source p p.
Proof. intros H. repeat split; auto using extends_refl; apply H. Qed.

Lemma step_trans p1 p2 p3 : step source p1 p2 -> step source p2 p3 -> step source p1 p3.
Proof.
  intros (_ & E1 & I1 & M1) (Hok & E2 & I2 & M2).
  repeat split; try apply Hok; try lia. now apply extends_trans with p2.
Qed.

Lemma filter_skipn_le {A} (f : A -> bool) (n k : nat) (l : list A) :
  (List.length (filter f (skipn (n + k) l))
   <= List.length (filter f (skipn n l)))%nat.
Proof.
  revert n k. induction l as [|x l IH]; intros n k.
  - now rewrite !skipn_nil.
  - destruct n as [|n].
    + simpl (0 + k)%nat. simpl (skipn 0 _).
      destruct k as [|k]; [reflexivity|]. simpl (skipn (S k) _).
      specialize (IH 0%nat k). simpl in IH |- *. destruct (f x); simpl; lia.
    + simpl. apply IH.
Qed.

(** Moving the cursor back to where it was costs nothing. *)
Lemma measure_extends p p' :
  parser_ok source p -> extends p p' -> (token_id_ p <= token_id_ p')%nat ->
  (measure p' <= measure p)%nat.
Proof.
  intros (_ & _ & Hid & _) (new & E & Hrem) Hle. unfold measure, pending.
  replace (token_id_ p') with (token_id_ p + (token_id_ p' - token_id_ p))%nat
    by lia.
  etransitivity; [apply Nat.add_le_mono_l, filter_skipn_le|].
  rewrite E, skipn_app, filter_app, length_app.
  replace (token_id_ p - List.length (tokens_ p))%nat with 0%nat by lia.
  simpl skipn. lia.
Qed.

Lemma skipn_current p :
  (token_id_ p < List.length (tokens_ p))%nat ->
  skipn (token_id_ p) (tokens_ p)
  = current p :: skipn (S (token_id_ p)) (tokens_ p).
Proof.
  unfold current. generalize (token_id_ p) as n.
  induction (tokens_ p) as [|x l IH]; intros [|n] H; simpl in *; try lia.
  - reflexivity.
  - apply IH. lia.
Qed.

Lemma current_in_tokens p :
  (token_id_ p < List.length (tokens_ p))%nat -> In (current p) (tokens_ p).
Proof. intros H. now apply nth_In. Qed.

Lemma measure_positive p :
  parser_ok source p -> type (current p) <> EOF_TOK -> (1 <= measure p)%nat.
Proof.
  intros (_ & _ & Hid & _) Ht. unfold measure, pending.
  rewrite skipn_current by exact Hid. simpl. unfold non_eof at 1.
  destruct (type (current p)); simpl; try lia. congruence.
Qed.

Lemma peek_eq p : peek p = Some (Returns (current p, p)).
Proof. reflexivity. Qed.

Lemma skipn_all_app {A} (l : list A) (x : A) :
  skipn (List.length l) (l ++ [x]) = [x].
Proof. induction l as [|y l IH]; simpl; auto. Qed.

(** Consuming the current token, which is not [EOF_TOK], leaves less to
    consume. *)
Lemma next_token_spec p :
  parser_ok source p -> type (current p) <> EOF_TOK ->
  ensures source next_token p
    (fun _ p' => step source p p' /\ (measure p' < measure p)%nat).
Proof.
  intros (Htext & Hlex & Hid & Htok) Hcur.
  assert (Hone : pending p = S (List.length
                   (filter non_eof (skipn (S (token_id_ p)) (tokens_ p))))).
  { unfold pending. rewrite skipn_current by exact Hid. simpl.
    unfold non_eof at 1. destruct (type (current p)); simpl; congruence. }
  unfold ensures, next_token.
  destruct (List.length (tokens_ p) <=? S (token_id_ p))%nat eqn:Hlen.
  - apply Nat.leb_le in Hlen.
    assert (Elen : S (token_id_ p) = List.length (tokens_ p)) by lia.
    pose proof (lexer_next_token_progress (lexer_ p) Hlex) as Hprog.
    destruct (lexer_next_token (lexer_ p)) as [[tok lexer']|e] eqn:El.
    + destruct Hprog as (Ht & Hok' & Hle & Hlt).
      assert (Hnew : (remaining lexer' + List.length (filter non_eof [tok])
                      <= remaining (lexer_ p))%nat).
      { simpl. unfold non_eof. destruct (type tok) eqn:Ety; simpl;
          try (assert (remaining lexer' < remaining (lexer_ p))%nat
                 by (apply Hlt; congruence); lia).
        lia. }
      assert (Hm : (measure (mk_parser lexer' (tokens_ p ++ [tok])
                               (S (token_id_ p))) < measure p)%nat).
      { unfold measure at 1, pending. cbn [lexer_ tokens_ token_id_].
        rewrite Elen, skipn_all_app. unfold measure. rewrite Hone. lia. }
      repeat split; cbn [lexer_ tokens_ token_id_]; try lia.
      * congruence.
      * exact Hok'.
      * rewrite length_app. simpl. lia.
      * apply Forall_app. split; [exact Htok|]. constructor; [|constructor].
        intros Hty. rewrite <- Htext. now apply (lexer_close_paren _ _ _ El).
      * now exists [tok].
    + apply lexer_throws in El as [-> Hnot]. right. split; [reflexivity|].
      now rewrite <- Htext.
  - apply Nat.leb_gt in Hlen.
    assert (Hm : (measure (mk_parser (lexer_ p) (tokens_ p) (S (token_id_ p)))
                  < measure p)%nat).
    { unfold measure at 1, pending. cbn [lexer_ tokens_ token_id_].
      unfold measure. rewrite Hone. lia. }
    repeat split; cbn [lexer_ tokens_ token_id_]; try lia; auto.
    exists []. rewrite app_nil_r. simpl. split; [reflexivity|lia].
Qed.

Lemma token_type_eqb_eq a b : token_type_eqb a b = true <-> a = b.
Proof. destruct a, b; simpl; split; congruence. Qed.

Lemma consume_type_spec t p :
  parser_ok source p -> t <> EOF_TOK ->
  ensures source (consume_type t) p
    (fun b p' =>
       step source p p'
       /\ (if b then (measure p' < measure p)%nat /\ type (current p) = t
           else p' = p /\ type (current p) <> t)).
Proof.
  intros Hok Ht. unfold consume_type.
  eapply ensures_bind with (Q := fun tok p' => tok = current p /\ p' = p).
  - unfold ensures. rewrite peek_eq. auto.
  - intros tok p' [-> ->].
    destruct (token_type_eqb (type (current p)) t) eqn:E.
    + apply token_type_eqb_eq in E.
      eapply ensures_bind; [apply next_token_spec; [exact Hok|congruence]|].
      intros _ p' [Hstep Hm]. now apply ensures_ret.
    + apply ensures_ret. split; [now apply step_refl|]. split; [reflexivity|].
      intros H. apply token_type_eqb_eq in H. congruence.
Qed.

Lemma consume_variable_spec p :
  parser_ok source p ->
  ensures source consume_variable p
    (fun res p' =>
       step source p p'
       /\ match res with
          | Some node =>
              (measure p' < measure p)%nat
              /\ node = ATOMIC (current p) /\ type (current p) = VARIABLE
          | None => p' = p /\ type (current p) <> VARIABLE
          end).
Proof.
  intros Hok. unfold consume_variable.
  eapply ensures_bind with (Q := fun tok p' => tok = current p /\ p' = p).
  - unfold ensures. rewrite peek_eq. auto.
  - intros tok p' [-> ->].
    destruct (token_type_eqb (type (current p)) VARIABLE) eqn:E.
    + apply token_type_eqb_eq in E.
      eapply ensures_bind; [apply next_token_spec; [exact Hok|congruence]|].
      intros _ p' [Hstep Hm]. now apply ensures_ret.
    + apply ensures_ret. split; [now apply step_refl|]. split; [reflexivity|].
      intros H. apply token_type_eqb_eq in H. congruence.
Qed.

Lemma ensures_peek p (Q : ULC_token -> ULC_parser -> Prop) :
  Q (current p) p -> ensures source peek p Q.
Proof. auto. Qed.

Lemma ensures_throw {A} p (Q : A -> ULC_parser -> Prop) :
  ensures source (pthrow UnbalancedParenError) p Q.
Proof. now left. Qed.

Lemma backtrack_spec p p' :
  parser_ok source p -> step source p p' ->
  ensures source (_ <~ set_token_id (token_id_ p) ;; pret None) p' (post source p).
Proof.
  intros Hok ((Ht & Hl & Hid & Htok) & Hext & Hle & Hm).
  unfold ensures, pbind, set_token_id, pret, post.
  set (p'' := mk_parser (lexer_ p') (tokens_ p') (token_id_ p)).
  assert (Hext' : extends p p'') by exact Hext.
  assert (Hok'' : parser_ok source p'').
  { repeat split; cbn [p'' lexer_ tokens_ token_id_]; auto. lia. }
  split; [|congruence].
  repeat split; try apply Hok''; auto.
  now apply measure_extends.
Qed.

Lemma parser_total (fuel : nat) :
  (forall p, parser_ok source p -> (3 * measure p + 2 <= fuel)%nat ->
             ensures source (parse_expression fuel) p (post source p))
  /\ (forall head p, parser_ok source p -> (3 * measure p + 2 <= fuel)%nat ->
                     ensures source (application_loop fuel head) p
                       (fun res p' => step source p p' /\ res <> None))
  /\ (forall p, parser_ok source p -> type (current p) = LAMBDA ->
                (3 * measure p <= fuel)%nat ->
                ensures source (parse_abstraction fuel) p (post source p))
  /\ (forall p, parser_ok source p -> (3 * measure p + 1 <= fuel)%nat ->
                ensures source (parse_atomic fuel) p (post source p)).
Proof.
  induction fuel as [|fuel (IHe & IHl & IHb & IHa)].
  { repeat split; try (intros; lia).
    intros p Hok Hty Hf. pose proof (measure_positive p Hok). 
    assert (type (current p) <> EOF_TOK) by congruence. intuition lia. }
  repeat split.
  - (* parse_expression *)
    intros p Hok Hf. cbn [parse_expression].
    eapply ensures_bind; [apply ensures_peek with
                            (Q := fun tok p' => tok = current p /\ p' = p);
                          auto|].
    intros tok p' [-> ->].
    destruct (token_type_eqb (type (current p)) LAMBDA) eqn:E.
    + apply token_type_eqb_eq in E. apply IHb; auto. lia.
    + eapply ensures_bind; [apply IHa; [exact Hok|lia]|].
      intros [head|] p1 [Hstep Hm].
      * assert (Hlt : (measure p1 < measure p)%nat) by (apply Hm; congruence).
        eapply ensures_weaken; [apply IHl; [apply Hstep|lia]|].
        intros res p2 [Hstep2 Hres]. split.
        -- now apply step_trans with p1.
        -- intros _. destruct Hstep2 as (_ & _ & _ & Hm2). lia.
      * apply ensures_ret. split; [exact Hstep|congruence].
  - (* application_loop *)
    intros head p Hok Hf. cbn [application_loop].
    eapply ensures_bind; [apply ensures_peek with
                            (Q := fun tok p' => tok = current p /\ p' = p);
                          auto|].
    intros tok p' [-> ->].
    destruct (token_type_eqb (type (current p)) VARIABLE
              || token_type_eqb (type (current p)) O_PAREN).
    + eapply ensures_bind; [apply IHa; [exact Hok|lia]|].
      intros [next_arg|] p1 [Hstep Hm].
      * assert (Hlt : (measure p1 < measure p)%nat) by (apply Hm; congruence).
        eapply ensures_weaken; [apply IHl; [apply Hstep|lia]|].
        intros res p2 [Hstep2 Hres]. split; [|exact Hres].
        now apply step_trans with p1.
      * apply ensures_ret. split; [exact Hstep|congruence].
    + apply ensures_ret. split; [now apply step_refl|congruence].
  - (* parse_abstraction *)
    intros p Hok Hty Hf. cbn [parse_abstraction].
    eapply ensures_bind with (Q := fun id p' => id = token_id_ p /\ p' = p);
      [unfold ensures, get_token_id; auto|].
    intros id p' [-> ->].
    eapply ensures_bind; [apply consume_type_spec; [exact Hok|discriminate]|].
    intros [|] p1 [Hstep1 H1]; [|now apply backtrack_spec].
    destruct H1 as [Hm1 _].
    eapply ensures_bind; [apply consume_variable_spec; apply Hstep1|].
    intros [var|] p2 [Hstep2 H2];
      [|apply backtrack_spec; [exact Hok|now apply step_trans with p1]].
    assert (Hs2 : step source p p2) by now apply step_trans with p1.
    eapply ensures_bind; [apply consume_type_spec; [apply Hstep2|discriminate]|].
    intros [|] p3 [Hstep3 H3];
      [|apply backtrack_spec; [exact Hok|now apply step_trans with p2]].
    assert (Hs3 : step source p p3) by now apply step_trans with p2.
    assert (Hm3 : (measure p3 < measure p)%nat).
    { destruct Hstep2 as (_ & _ & _ & Hm2), Hstep3 as (_ & _ & _ & Hm3). lia. }
    eapply ensures_bind; [apply IHe; [apply Hstep3|lia]|].
    intros [expr|] p4 [Hstep4 H4];
      [|apply backtrack_spec; [exact Hok|now apply step_trans with p3]].
    apply ensures_ret. split; [now apply step_trans with p3|].
    intros _. destruct Hstep4 as (_ & _ & _ & Hm4). lia.
  - (* parse_atomic *)
    intros p Hok Hf. cbn [parse_atomic].
    eapply ensures_bind; [apply consume_type_spec; [exact Hok|discriminate]|].
    intros [|] p1 [Hstep1 H1].
    + destruct H1 as [Hm1 _].
      eapply ensures_bind; [apply IHe; [apply Hstep1|lia]|].
      intros inner p2 [Hstep2 _].
      eapply ensures_bind; [apply consume_type_spec; [apply Hstep2|discriminate]|].
      intros [|] p3 [Hstep3 _]; cbn [negb]; [|apply ensures_throw].
      apply ensures_ret. split.
      * apply step_trans with p1; [exact Hstep1|].
        now apply step_trans with p2.
      * intros _. destruct Hstep2 as (_ & _ & _ & Hm2),
                           Hstep3 as (_ & _ & _ & Hm3). lia.
    + destruct H1 as [-> _].
      eapply ensures_weaken; [apply consume_variable_spec; exact Hok|].
      intros [node|] p2 [Hstep2 H2]; (split; [exact Hstep2|]).
      * intros _. apply H2.
      * congruence.
Qed.

End ParserTermination.

(** ** More fuel does not change the result *)

Section Fuel.

Lemma refines_refl {A} (m : P A) : refines m m.
Proof. now intros p r. Qed.

Lemma refines_bind {A B} (m m' : P A) (k k' : A -> P B) :
  refines m m' -> (forall a, refines (k a) (k' a)) ->
  refines (pbind m k) (pbind m' k').
Proof.
  intros Hm Hk p r. unfold pbind.
  destruct (m p) as [[[a p']|e]|] eqn:E; [| |discriminate];
    rewrite (Hm _ _ E); [apply Hk|auto].
Qed.

Lemma out_of_fuel_refines {A} (m : P A) : refines out_of_fuel m.
Proof. intros p r. discriminate. Qed.

Ltac refines_steps IHe IHl IHb IHa :=
  repeat first
    [ apply IHe | apply IHl | apply IHb | apply IHa
    | apply refines_refl
    | apply refines_bind; [|intros ?]
    | match goal with
      | |- refines (if ?b then _ else _) _ => destruct b
      | |- refines (match ?x with Some _ => _ | None => _ end) _ => destruct x
      end ].

Lemma fuel_step (fuel : nat) :
  refines (parse_expression fuel) (parse_expression (S fuel))
  /\ (forall head, refines (application_loop fuel head)
                     (application_loop (S fuel) head))
  /\ refines (parse_abstraction fuel) (parse_abstraction (S fuel))
  /\ refines (parse_atomic fuel) (parse_atomic (S fuel)).
Proof.
  induction fuel as [|fuel (IHe & IHl & IHb & IHa)].
  { repeat split; try intros head; apply out_of_fuel_refines. }
  repeat split; try intros head.
  - change (parse_expression (S fuel)) with
      (tok <~ peek ;;
       if token_type_eqb (type tok) LAMBDA then parse_abstraction fuel
       else head <~ parse_atomic fuel ;;
            match head with
            | None => pret None
            | Some head => application_loop fuel head
            end).
    change (parse_expression (S (S fuel))) with
      (tok <~ peek ;;
       if token_type_eqb (type tok) LAMBDA then parse_abstraction (S fuel)
       else head <~ parse_atomic (S fuel) ;;
            match head with
            | None => pret None
            | Some head => application_loop (S fuel) head
            end).
    refines_steps IHe IHl IHb IHa.
  - change (application_loop (S fuel) head) with
      (tok <~ peek ;;
       if token_type_eqb (type tok) VARIABLE
          || token_type_eqb (type tok) O_PAREN then
         next_arg <~ parse_atomic fuel ;;
         match next_arg with
         | None => pret (Some head)
         | Some next_arg => application_loop fuel (APPLICATION head next_arg)
         end
       else pret (Some head)).
    change (application_loop (S (S fuel)) head) with
      (tok <~ peek ;;
       if token_type_eqb (type tok) VARIABLE
          || token_type_eqb (type tok) O_PAREN then
         next_arg <~ parse_atomic (S fuel) ;;
         match next_arg with
         | None => pret (Some head)
         | Some next_arg =>
             application_loop (S fuel) (APPLICATION head next_arg)
         end
       else pret (Some head)).
    refines_steps IHe IHl IHb IHa.
  - cbn [parse_abstraction]. refines_steps IHe IHl IHb IHa.
  - cbn [parse_atomic]. refines_steps IHe IHl IHb IHa.
Qed.

Lemma parse_fuel_mono (fuel extra : nat) :
  refines (parse fuel) (parse (extra + fuel)).
Proof.
  unfold parse. induction extra as [|extra IH]; [apply refines_refl|].
  intros p r H. apply (proj1 (fuel_step (extra + fuel))). now apply IH.
Qed.

Lemma parse_text_fuel_mono (fuel fuel' : nat) source r :
  (fuel <= fuel')%nat ->
  parse_text fuel source = Some r -> parse_text fuel' source = Some r.
Proof.
  intros Hle. replace fuel' with ((fuel' - fuel) + fuel)%nat by lia.
  unfold parse_text. destruct (new_parser (mk_lexer source 0)) as [p|e]; [|auto].
  destruct (parse fuel p) as [res|] eqn:E; [|discriminate].
  now rewrite (parse_fuel_mono fuel (fuel' - fuel) p res E).
Qed.

End Fuel.

(** ** What [parse] answers *)

Section ParseOutcomes.

Variable source : string.

Lemma new_parser_spec :
  match new_parser (mk_lexer source 0) with
  | Returns p =>
      parser_ok source p /\ (measure p <= String.length source)%nat
      /\ first_token source = Returns (current p, lexer_ p)
  | Throws e => allowed source e
  end.
Proof.
  unfold new_parser, first_token.
  assert (Hok : lexer_ok (mk_lexer source 0)) by (unfold lexer_ok; simpl; lia).
  pose proof (lexer_next_token_progress _ Hok) as Hprog.
  destruct (lexer_next_token (mk_lexer source 0)) as [[tok lexer']|e] eqn:El.
  - destruct Hprog as (Ht & Hok' & Hle & Hlt).
    unfold remaining in Hle, Hlt. simpl in Ht, Hle, Hlt.
    split; [|split; [|reflexivity]].
    + repeat split; cbn [lexer_ tokens_ token_id_]; auto.
      constructor; [|constructor]. intros Hty.
      apply (lexer_close_paren _ _ _ El Hty).
    + unfold measure, pending. cbn [lexer_ tokens_ token_id_ skipn filter].
      unfold non_eof. destruct (type tok) eqn:Ety; simpl;
        try (assert (remaining lexer' < String.length source - 0)%nat
               by (apply Hlt; congruence); lia).
      unfold remaining in *. lia.
  - apply lexer_throws in El as [-> Hnot]. right. now split.
Qed.

(** With fuel for three calls for each character, and two more, [parse]
    does not run out of fuel. *)
Lemma parse_text_total (fuel : nat) :
  (3 * String.length source + 2 <= fuel)%nat ->
  match parse_text fuel source with
  | Some (Returns _) => True
  | Some (Throws e) => allowed source e
  | None => False
  end.
Proof.
  intros Hf. unfold parse_text, parse.
  pose proof new_parser_spec as Hnew.
  destruct (new_parser (mk_lexer source 0)) as [p|e]; [|exact Hnew].
  destruct Hnew as (Hok & Hm & _).
  pose proof (proj1 (parser_total source fuel) p Hok) as Ht.
  unfold ensures in Ht.
  destruct (parse_expression fuel p) as [[[res p']|e]|]; auto; apply Ht; lia.
Qed.

(** Nothing to parse: the current token starts no expression. *)
Lemma parse_no_production (fuel : nat) (p : ULC_parser) :
  type (current p) = DOT \/ type (current p) = C_PAREN
  \/ type (current p) = EOF_TOK ->
  parse (2 + fuel) p = Some (Returns (None, p)).
Proof.
  intros H. unfold parse. cbn [Nat.add parse_expression parse_atomic].
  unfold consume_type, consume_variable, pbind, peek, pret.
  unfold current in H. cbn beta iota.
  destruct H as [H | [H | H]];
    repeat (rewrite H; cbn [token_type_eqb]; cbn beta iota); reflexivity.
Qed.

(** An opening parenthesis with no closing one anywhere in the text:
    whatever is parsed inside, the parenthesis is found unbalanced. *)
Lemma parse_unclosed (fuel : nat) (p : ULC_parser) :
  (forall n, String.get n source <> Some ")"%char) ->
  parser_ok source p -> type (current p) = O_PAREN ->
  (3 * measure p + 2 <= fuel)%nat ->
  ensures source (parse_expression fuel) p (fun _ _ => False).
Proof.
  intros Hno Hok Hty Hf.
  destruct fuel as [|[|fuel]]; try lia.
  cbn [parse_expression parse_atomic].
  eapply ensures_bind; [apply ensures_peek with
                          (Q := fun tok p' => tok = current p /\ p' = p);
                        auto|].
  intros tok p' [-> ->]. rewrite Hty. cbn [token_type_eqb].
  eapply ensures_bind with (Q := fun _ _ => False);
    [|intros ? ? Hfalse; destruct Hfalse].
  eapply ensures_bind;
    [apply consume_type_spec; [exact Hok|discriminate]|].
  intros [|] p1 [Hstep1 H1]; [|destruct H1 as [_ H1]; congruence].
  destruct H1 as [Hm1 _].
  eapply ensures_bind;
    [apply (proj1 (parser_total source fuel)); [apply Hstep1|lia]|].
  intros inner p2 [Hstep2 _].
  eapply ensures_bind;
    [apply consume_type_spec; [apply Hstep2|discriminate]|].
  intros [|] p3 [_ H3]; cbn [negb]; [|apply ensures_throw].
  destruct H3 as [_ Hclose]. destruct Hstep2 as ((_ & _ & Hid & Htok) & _).
  rewrite Forall_forall in Htok.
  destruct (Htok _ (current_in_tokens p2 Hid) Hclose) as (n & Hn).
  now apply Hno in Hn.
Qed.

End ParseOutcomes.

(** ** What follows a complete expression is not read *)

Section TrailingText.

Lemma run_length_app p v c rest :
  all_chars p v = true -> p c = false ->
  run_length p (v ++ String c rest) = String.length v.
Proof.
  intros Hv Hc. induction v as [|d v IH]; simpl in *.
  - now rewrite Hc.
  - apply andb_prop in Hv as [-> Hv]. now rewrite IH.
Qed.

Lemma substring_prefix v x : substring 0 (String.length v) (v ++ x) = v.
Proof.
  induction v as [|c v IH]; simpl; [now destruct x|now rewrite IH].
Qed.

Lemma drop_app v x : drop (String.length v) (v ++ x) = x.
Proof. induction v as [|c v IH]; simpl; auto. Qed.

Lemma get_app_length v c rest :
  String.get (String.length v) (v ++ String c rest) = Some c.
Proof. induction v as [|d v IH]; simpl; auto. Qed.

Lemma isalnum_facts c :
  isalnum c = true ->
  isspace c = false /\ Ascii.eqb c "." = false /\ Ascii.eqb c "\" = false
  /\ Ascii.eqb c "(" = false /\ Ascii.eqb c ")" = false.
Proof.
  intros H.
  assert (Hne : forall d, isalnum d = false -> Ascii.eqb c d = false).
  { intros d Hd. apply Ascii.eqb_neq. intros ->. congruence. }
  repeat split; try (apply Hne; reflexivity).
  unfold isalnum, isspace in *.
  destruct (nat_of_ascii c =? 32)%nat eqn:E1;
    [apply Nat.eqb_eq in E1; rewrite E1 in H; discriminate H|].
  destruct (9 <=? nat_of_ascii c)%nat eqn:E2; [|reflexivity].
  destruct (nat_of_ascii c <=? 13)%nat eqn:E3; [|reflexivity].
  apply Nat.leb_le in E3.
  repeat match type of H with
         | context [(?a <=? ?b)%nat] =>
             let E := fresh in
             destruct (a <=? b)%nat eqn:E;
             [apply Nat.leb_le in E|apply Nat.leb_gt in E]
         end; simpl in H; try discriminate H; lia.
Qed.

(** A text that begins with a variable and a closing parenthesis. *)
Lemma lex_variable c v rest :
  all_chars isalnum (String c v) = true ->
  let name := String c v in
  let source := name ++ String ")" rest in
  lexer_next_token (mk_lexer source 0)
  = Returns (mk_token VARIABLE name, mk_lexer source (String.length name))
  /\ lexer_next_token (mk_lexer source (String.length name))
     = Returns (mk_token C_PAREN ")",
                mk_lexer source (String.length name + 1)).
Proof.
  intros Hall name source.
  pose proof Hall as Hc. cbn [all_chars] in Hc. apply andb_prop in Hc as [Hc _].
  destruct (isalnum_facts c Hc) as (Hs & H1 & H2 & H3 & H4).
  assert (Hrs : run_length isspace source = 0%nat).
  { unfold source, name. cbn [append run_length]. now rewrite Hs. }
  assert (Hg : String.get 0 source = Some c) by reflexivity.
  assert (Hra : run_length isalnum source = String.length name).
  { now apply run_length_app. }
  assert (Hrc : run_length isspace (String ")" rest) = 0%nat) by reflexivity.
  split; unfold lexer_next_token; rewrite !from_pos_drop; cbn [text_ pos_].
  - cbn [drop]. rewrite Hrs. cbn [Nat.add drop].
    rewrite Hg, H1, H2, H3, H4, Hc, Hra.
    unfold source at 1. now rewrite substring_prefix.
  - assert (Hd : drop (String.length name) source = String ")" rest)
      by apply drop_app.
    assert (Hgc : String.get (String.length name) source = Some ")"%char)
      by apply get_app_length.
    rewrite Hd, Hrc, Nat.add_0_r, Hgc. reflexivity.
Qed.

(** However the text goes on after the closing parenthesis, the variable
    before it is the whole result. *)
Lemma parse_variable_then_close (fuel : nat) (name rest : string) :
  name <> "" -> all_chars isalnum name = true ->
  parse_text (3 + fuel) (name ++ String ")" rest)
  = Some (Returns (Some (ATOMIC (mk_token VARIABLE name)))).
Proof.
  intros Hne Hall. destruct name as [|c v]; [congruence|].
  destruct (lex_variable c v rest Hall) as [H0 H1].
  unfold parse_text, new_parser. rewrite H0.
  unfold parse. cbn [Nat.add parse_expression parse_atomic application_loop].
  unfold consume_type, consume_variable, pbind, peek, pret, next_token.
  cbn [token_id_ tokens_ lexer_ nth type token_type_eqb List.length Nat.leb].
  rewrite H1.
  reflexivity.
Qed.

End TrailingText.

(** Inside parentheses a missing expression is not reported: the null
    pointer is stored as the child of the [GROUP], and both converters
    turn it into the empty term. *)
Lemma empty_parentheses (new_addr : nat -> addr) (h : heap) :
  parse_text 4 "()" = Some (Returns (Some (GROUP None)))
  /\ display_dbj new_addr 4 "()" h = Some (Returns "{}")
  /\ display_slc new_addr 4 "()" h = Some (Returns "{}").
Proof. repeat split. Qed.

(** ** More on the lexer *)

Section LexerTokens.

Lemma length_drop n s : String.length (drop n s) = (String.length s - n)%nat.
Proof.
  revert s. induction n as [|n IH]; intros [|c s]; simpl; auto.
Qed.

Lemma get_None_ge n s : String.get n s = None -> (String.length s <= n)%nat.
Proof.
  revert n. induction s as [|c s IH]; intros [|n]; simpl; try lia.
  - discriminate.
  - intros H. apply IH in H. lia.
Qed.

Lemma get_ge_None n s : (String.length s <= n)%nat -> String.get n s = None.
Proof.
  revert n. induction s as [|c s IH]; intros [|n]; simpl; auto; try lia.
  intros H. apply IH. lia.
Qed.

Lemma substring_drop n m s : substring n m s = substring 0 m (drop n s).
Proof.
  revert m s. induction n as [|n IH]; intros m [|c s]; simpl; auto.
  destruct m; reflexivity.
Qed.

Lemma run_prefix_all p s :
  all_chars p (substring 0 (run_length p s) s) = true.
Proof.
  induction s as [|c s IH]; simpl; [reflexivity|].
  destruct (p c) eqn:E; simpl; [now rewrite E|reflexivity].
Qed.

Lemma run_prefix_length p s :
  String.length (substring 0 (run_length p s) s) = run_length p s.
Proof.
  induction s as [|c s IH]; simpl; [reflexivity|].
  destruct (p c); simpl; auto.
Qed.

Lemma run_length_all p s :
  run_length p s = String.length s -> all_chars p s = true.
Proof.
  induction s as [|c s IH]; simpl; [reflexivity|].
  destruct (p c); simpl; [intros [= H]; auto|discriminate].
Qed.

Lemma run_length_get p s i :
  (i < run_length p s)%nat -> exists ch, String.get i s = Some ch /\ p ch = true.
Proof.
  revert i. induction s as [|c s IH]; simpl; intros i Hi; [lia|].
  destruct (p c) eqn:E; [|lia].
  destruct i as [|i]; [now exists c|]. apply IH. lia.
Qed.

Lemma spaces_ahead_run lexer :
  spaces_ahead lexer (run_length isspace (drop (pos_ lexer) (text_ lexer))).
Proof.
  split.
  - intros i Hi. rewrite get_drop. now apply run_length_get.
  - intros ch. rewrite get_drop. apply get_after_run.
Qed.

Lemma spaces_ahead_unique lexer k k' :
  spaces_ahead lexer k -> spaces_ahead lexer k' -> k = k'.
Proof.
  intros [Hs Hn] [Hs' Hn'].
  destruct (Nat.lt_total k k') as [H|[H|H]]; [|exact H|].
  - destruct (Hs' k H) as (ch & Hg & Hsp). apply Hn in Hg. congruence.
  - destruct (Hs k' H) as (ch & Hg & Hsp). apply Hn' in Hg. congruence.
Qed.

(** X1.  A call of the lexer on a cursor inside the text keeps the text,
    never moves the cursor back or past the end, and moves it forward by
    at least one character for every token but [EOF_TOK]; [EOF_TOK] is
    returned only with the cursor at the end of the text, all that was
    left being white space.  The only failure is "Invalid token". *)
Theorem lexer_moves_forward (lexer : ULC_lexer) :
  lexer_ok lexer ->
  match lexer_next_token lexer with
  | Returns (tok, lexer') =>
      text_ lexer' = text_ lexer
      /\ (pos_ lexer <= pos_ lexer' <= String.length (text_ lexer))%nat
      /\ (type tok <> EOF_TOK -> (pos_ lexer < pos_ lexer')%nat)
      /\ (type tok = EOF_TOK ->
          pos_ lexer' = String.length (text_ lexer)
          /\ all_chars isspace (drop (pos_ lexer) (text_ lexer)) = true)
  | Throws e => e = InvalidTokenError
  end.
Proof.
  intros Hok. pose proof (lexer_next_token_progress lexer Hok) as Hp.
  destruct (lexer_next_token lexer) as [[tok lexer']|e] eqn:E; [|exact Hp].
  destruct Hp as (Ht & Hok' & Hle & Hlt).
  unfold lexer_ok, remaining in *. rewrite Ht in *.
  split; [reflexivity|]. split; [lia|]. split; [intros H; apply Hlt in H; lia|].
  intros Heof. unfold lexer_next_token in E. rewrite from_pos_drop in E.
  set (k := run_length isspace (drop (pos_ lexer) (text_ lexer))) in *.
  destruct (String.get (pos_ lexer + k) (text_ lexer)) as [ch|] eqn:Hg.
  - exfalso. revert E.
    destruct (Ascii.eqb ch "."); [intros [= <- _]; discriminate|].
    destruct (Ascii.eqb ch "\"); [intros [= <- _]; discriminate|].
    destruct (Ascii.eqb ch "("); [intros [= <- _]; discriminate|].
    destruct (Ascii.eqb ch ")"); [intros [= <- _]; discriminate|].
    destruct (isalnum ch); [intros [= <- _]; discriminate|discriminate].
  - injection E as _ <-. simpl. apply get_None_ge in Hg.
    pose proof (run_length_le isspace (drop (pos_ lexer) (text_ lexer))) as Hr.
    fold k in Hr. rewrite length_drop in Hr.
    split; [lia|]. apply run_length_all. fold k. rewrite length_drop. lia.
Qed.

Lemma lexer_moves_forward_witness :
  let lexer := mk_lexer "ab  .c" 2 in
  lexer_ok lexer
  /\ lexer_next_token lexer = Returns (mk_token DOT ".", mk_lexer "ab  .c" 5)
  /\ match lexer_next_token lexer with
     | Returns (tok, lexer') =>
         text_ lexer' = text_ lexer
         /\ (pos_ lexer <= pos_ lexer' <= String.length (text_ lexer))%nat
         /\ (type tok <> EOF_TOK -> (pos_ lexer < pos_ lexer')%nat)
         /\ (type tok = EOF_TOK ->
             pos_ lexer' = String.length (text_ lexer)
             /\ all_chars isspace (drop (pos_ lexer) (text_ lexer)) = true)
     | Throws e => e = InvalidTokenError
     end.
Proof.
  intros lexer.
  assert (Hok : lexer_ok lexer) by (unfold lexer_ok; simpl; lia).
  split; [exact Hok|]. split; [reflexivity|].
  exact (lexer_moves_forward lexer Hok).
Defined.

Lemma length_zero s : String.length s = 0%nat -> s = "".
Proof. destruct s; [reflexivity|discriminate]. Qed.

Lemma lexable_char_cases ch :
  lexable_char ch = false <->
  Ascii.eqb ch "." = false /\ Ascii.eqb ch "\" = false
  /\ Ascii.eqb ch "(" = false /\ Ascii.eqb ch ")" = false
  /\ isalnum ch = false /\ isspace ch = false.
Proof.
  unfold lexable_char.
  destruct (isspace ch), (isalnum ch), (Ascii.eqb ch "."), (Ascii.eqb ch "\"),
    (Ascii.eqb ch "("), (Ascii.eqb ch ")"); simpl; intuition congruence.
Qed.

(** X2.  The lexer fails exactly when the first character after the
    white space at the cursor is none of [.], [\], [(], [)], a letter or
    a digit; the failure is "Invalid token". *)
Theorem lexer_invalid_token (lexer : ULC_lexer) (e : exception) :
  lexer_next_token lexer = Throws e <->
  e = InvalidTokenError
  /\ exists k ch, spaces_ahead lexer k
       /\ String.get (pos_ lexer + k) (text_ lexer) = Some ch
       /\ lexable_char ch = false.
Proof.
  pose proof (spaces_ahead_run lexer) as Hrun.
  unfold lexer_next_token. rewrite from_pos_drop.
  set (k0 := run_length isspace (drop (pos_ lexer) (text_ lexer))) in *.
  split.
  - destruct (String.get (pos_ lexer + k0) (text_ lexer)) as [ch|] eqn:Hg;
      [|discriminate].
    destruct (Ascii.eqb ch ".") eqn:E1; [discriminate|].
    destruct (Ascii.eqb ch "\") eqn:E2; [discriminate|].
    destruct (Ascii.eqb ch "(") eqn:E3; [discriminate|].
    destruct (Ascii.eqb ch ")") eqn:E4; [discriminate|].
    destruct (isalnum ch) eqn:E5; [discriminate|].
    intros [= <-]. split; [reflexivity|]. exists k0, ch.
    split; [exact Hrun|]. split; [exact Hg|].
    apply lexable_char_cases. repeat split; auto.
    destruct Hrun as [_ Hn]. now apply Hn.
  - intros (-> & k & ch & Hk & Hg & Hlex).
    rewrite (spaces_ahead_unique lexer k0 k Hrun Hk), Hg.
    apply lexable_char_cases in Hlex.
    destruct Hlex as (-> & -> & -> & -> & -> & _). reflexivity.
Qed.

(** X3.  A [VARIABLE] token is the longest run of letters and digits that
    starts at the first character after the white space: its text is not
    empty, is read from the input at that place, holds letters and digits
    only, and the cursor is left behind it on a character that is neither
    (or at the end). *)
Theorem lexer_variable_token (lexer lexer' : ULC_lexer) (tok : ULC_token) :
  lexer_next_token lexer = Returns (tok, lexer') ->
  type tok = VARIABLE ->
  exists k,
    spaces_ahead lexer k
    /\ text tok
       = substring (pos_ lexer + k) (String.length (text tok)) (text_ lexer)
    /\ text tok <> ""
    /\ all_chars isalnum (text tok) = true
    /\ pos_ lexer' = (pos_ lexer + k + String.length (text tok))%nat
    /\ (forall ch, String.get (pos_ lexer') (text_ lexer) = Some ch ->
                   isalnum ch = false).
Proof.
  pose proof (spaces_ahead_run lexer) as Hrun.
  unfold lexer_next_token. rewrite !from_pos_drop.
  set (k0 := run_length isspace (drop (pos_ lexer) (text_ lexer))) in *.
  destruct (String.get (pos_ lexer + k0) (text_ lexer)) as [ch|] eqn:Hg;
    [|intros [= <- _]; discriminate].
  destruct (Ascii.eqb ch "."); [intros [= <- _]; discriminate|].
  destruct (Ascii.eqb ch "\"); [intros [= <- _]; discriminate|].
  destruct (Ascii.eqb ch "("); [intros [= <- _]; discriminate|].
  destruct (Ascii.eqb ch ")"); [intros [= <- _]; discriminate|].
  destruct (isalnum ch) eqn:E5; [|discriminate].
  intros [= <- <-] _. cbn [text pos_ text_].
  set (rest := drop (pos_ lexer + k0) (text_ lexer)).
  assert (Hlen : String.length
            (substring (pos_ lexer + k0) (run_length isalnum rest) (text_ lexer))
          = run_length isalnum rest).
  { rewrite substring_drop. apply run_prefix_length. }
  exists k0. split; [exact Hrun|]. rewrite Hlen.
  split; [reflexivity|]. split; [|split; [|split; [reflexivity|]]].
  - intros Hempty. rewrite Hempty in Hlen. simpl in Hlen.
    rewrite <- (Nat.add_0_r (pos_ lexer + k0)), get_drop in Hg.
    fold rest in Hg.
    destruct rest as [|c r]; [discriminate|]. simpl in Hg, Hlen.
    injection Hg as ->. rewrite E5 in Hlen. discriminate.
  - rewrite substring_drop. apply run_prefix_all.
  - intros c. rewrite get_drop. apply get_after_run.
Qed.

Lemma lexer_variable_token_witness :
  exists k,
    spaces_ahead (mk_lexer "\x. foo1)" 3) k
    /\ "foo1" = substring (3 + k) 4 "\x. foo1)"
    /\ "foo1" <> ""
    /\ all_chars isalnum "foo1" = true
    /\ 8%nat = (3 + k + 4)%nat
    /\ (forall ch, String.get 8 "\x. foo1)" = Some ch -> isalnum ch = false).
Proof.
  exact (lexer_variable_token (mk_lexer "\x. foo1)" 3) (mk_lexer "\x. foo1)" 8)
           (mk_token VARIABLE "foo1") eq_refl eq_refl).
Defined.

(** X4.  Once the lexer has returned [EOF_TOK] it returns the same token
    again, from the same state, however often it is called. *)
Theorem lexer_eof_again (lexer lexer' : ULC_lexer) (tok : ULC_token) :
  lexer_next_token lexer = Returns (tok, lexer') ->
  type tok = EOF_TOK ->
  lexer_next_token lexer' = Returns (tok, lexer').
Proof.
  unfold lexer_next_token at 1. rewrite from_pos_drop.
  set (k0 := run_length isspace (drop (pos_ lexer) (text_ lexer))) in *.
  destruct (String.get (pos_ lexer + k0) (text_ lexer)) as [ch|] eqn:Hg.
  - destruct (Ascii.eqb ch "."); [intros [= <- _]; discriminate|].
    destruct (Ascii.eqb ch "\"); [intros [= <- _]; discriminate|].
    destruct (Ascii.eqb ch "("); [intros [= <- _]; discriminate|].
    destruct (Ascii.eqb ch ")"); [intros [= <- _]; discriminate|].
    destruct (isalnum ch); [intros [= <- _]; discriminate|discriminate].
  - intros [= <- <-] _. unfold lexer_next_token. rewrite from_pos_drop.
    cbn [pos_ text_]. rewrite Nat.add_0_r.
    apply get_None_ge in Hg.
    assert (Hd : drop (pos_ lexer + k0) (text_ lexer) = "").
    { apply length_zero. rewrite length_drop. lia. }
    rewrite Hd. cbn [run_length]. rewrite Nat.add_0_r.
    rewrite (get_ge_None _ _ Hg). now rewrite Nat.add_0_r.
Qed.

Lemma lexer_eof_again_witness :
  lexer_next_token (mk_lexer "x  " 3)
  = Returns (mk_token EOF_TOK "", mk_lexer "x  " 3).
Proof.
  exact (lexer_eof_again (mk_lexer "x  " 1) (mk_lexer "x  " 3)
           (mk_token EOF_TOK "") eq_refl eq_refl).
Defined.

End LexerTokens.

(** ** The shape of what the parser returns *)

Section ParserShapes.

Variable name_ok : string -> Prop.

Hypothesis lexer_names : forall lexer tok lexer',
  lexer_next_token lexer = Returns (tok, lexer') ->
  type tok = VARIABLE -> name_ok (text tok).

Lemma whenever_bind {A B} (m : P A) (k : A -> P B) p Q R :
  whenever m p Q ->
  (forall a p', Q a p' -> whenever (k a) p' R) ->
  whenever (pbind m k) p R.
Proof.
  unfold whenever, pbind. intros Hm Hk b p2.
  destruct (m p) as [[[a p1]|e]|]; try discriminate.
  apply Hk. now apply Hm.
Qed.

Lemma whenever_ret {A} (a : A) p (Q : A -> ULC_parser -> Prop) :
  Q a p -> whenever (pret a) p Q.
Proof. intros H b p' [= <- <-]. exact H. Qed.

Lemma whenever_weaken {A} (m : P A) p (Q R : A -> ULC_parser -> Prop) :
  whenever m p Q -> (forall a p', Q a p' -> R a p') -> whenever m p R.
Proof. intros H HQR a p' E. apply HQR. now apply H. Qed.

Lemma whenever_peek p :
  whenever peek p (fun tok p' => tok = current p /\ p' = p).
Proof. intros tok p' [= <- <-]. auto. Qed.

Lemma lexed_current p :
  lexed name_ok p -> type (current p) = VARIABLE -> name_ok (text (current p)).
Proof.
  unfold lexed, current. intros Hl.
  destruct (Nat.lt_ge_cases (token_id_ p) (List.length (tokens_ p))) as [H|H].
  - rewrite Forall_forall in Hl. apply Hl. now apply nth_In.
  - rewrite nth_overflow by exact H. discriminate.
Qed.

Lemma next_token_cursor p :
  lexed name_ok p ->
  whenever next_token p
    (fun _ p' => lexed name_ok p' /\ token_id_ p' = S (token_id_ p)).
Proof.
  intros Hl tok p'. unfold next_token.
  destruct (List.length (tokens_ p) <=? S (token_id_ p))%nat.
  - destruct (lexer_next_token (lexer_ p)) as [[tok1 lexer1]|e] eqn:E;
      [|discriminate].
    intros [= _ <-]. split; [|reflexivity].
    unfold lexed. cbn [tokens_]. apply Forall_app. split; [exact Hl|].
    constructor; [|constructor]. now apply lexer_names with (1 := E).
  - intros [= _ <-]. split; [exact Hl|reflexivity].
Qed.

Lemma consume_type_cursor t p :
  lexed name_ok p ->
  whenever (consume_type t) p
    (fun b p' =>
       lexed name_ok p'
       /\ (if b then token_id_ p' = S (token_id_ p) /\ type (current p) = t
           else p' = p /\ type (current p) <> t)).
Proof.
  intros Hl. unfold consume_type.
  eapply whenever_bind; [apply whenever_peek|].
  intros tok p' [-> ->].
  destruct (token_type_eqb (type (current p)) t) eqn:E.
  - apply token_type_eqb_eq in E.
    eapply whenever_bind; [now apply next_token_cursor|].
    intros _ p1 [Hl1 Hid]. apply whenever_ret. auto.
  - apply whenever_ret. split; [exact Hl|]. split; [reflexivity|].
    intros H. rewrite H in E. now destruct t.
Qed.

Lemma consume_variable_cursor p :
  lexed name_ok p ->
  whenever consume_variable p
    (fun res p' =>
       lexed name_ok p'
       /\ match res with
          | Some node =>
              token_id_ p' = S (token_id_ p)
              /\ node = ATOMIC (current p) /\ variable_token name_ok (current p)
          | None => p' = p /\ type (current p) <> VARIABLE
          end).
Proof.
  intros Hl. unfold consume_variable.
  eapply whenever_bind; [apply whenever_peek|].
  intros tok p' [-> ->].
  destruct (token_type_eqb (type (current p)) VARIABLE) eqn:E.
  - apply token_type_eqb_eq in E.
    eapply whenever_bind; [now apply next_token_cursor|].
    intros _ p1 [Hl1 Hid]. apply whenever_ret.
    split; [exact Hl1|]. split; [exact Hid|]. split; [reflexivity|].
    split; [exact E|]. now apply lexed_current.
  - apply whenever_ret. split; [exact Hl|]. split; [reflexivity|].
    intros H. rewrite H in E. discriminate.
Qed.

Lemma backtrack_cursor p p' shape :
  lexed name_ok p' ->
  whenever (_ <~ set_token_id (token_id_ p) ;; pret None) p'
    (parsed name_ok shape p).
Proof.
  intros Hl res p2. unfold pbind, set_token_id, pret. intros [= <- <-].
  split; [exact Hl|reflexivity].
Qed.

(** The four parsing functions, together: the shape of the node they
    return, and where they leave the cursor. *)
Lemma parser_shapes (fuel : nat) :
  (forall p, lexed name_ok p ->
     whenever (parse_expression fuel) p
       (parsed name_ok (expression name_ok) p))
  /\ (forall head p, lexed name_ok p -> spine name_ok head ->
        whenever (application_loop fuel head) p
          (fun res p' =>
             lexed name_ok p' /\ (token_id_ p <= token_id_ p')%nat
             /\ exists node, res = Some node /\ spine name_ok node))
  /\ (forall p, lexed name_ok p ->
        whenever (parse_abstraction fuel) p
          (parsed name_ok (expression name_ok) p))
  /\ (forall p, lexed name_ok p ->
        whenever (parse_atomic fuel) p
          (fun res p' =>
             parsed name_ok (atom name_ok) p res p'
             /\ (res = None ->
                 type (current p) <> VARIABLE /\ type (current p) <> O_PAREN))).
Proof.
  induction fuel as [|fuel (IHe & IHl & IHb & IHa)].
  { unfold whenever. repeat split; intros; discriminate. }
  split; [|split; [|split]].
  - (* parse_expression *)
    intros p Hl. cbn [parse_expression].
    eapply whenever_bind; [apply whenever_peek|].
    intros tok p' [-> ->].
    destruct (token_type_eqb (type (current p)) LAMBDA); [now apply IHb|].
    eapply whenever_bind; [now apply IHa|].
    intros [head|] p1 [[Hl1 H1] _].
    + destruct H1 as [Hat Hid].
      eapply whenever_weaken;
        [apply IHl; [exact Hl1|now apply spine_atom]|].
      intros res p2 (Hl2 & Hid2 & node & -> & Hsp).
      split; [exact Hl2|]. split; [now apply expression_spine|lia].
    + apply whenever_ret. split; [exact Hl1|exact H1].
  - (* application_loop *)
    intros head p Hl Hsp. cbn [application_loop].
    eapply whenever_bind; [apply whenever_peek|].
    intros tok p' [-> ->].
    destruct (token_type_eqb (type (current p)) VARIABLE
              || token_type_eqb (type (current p)) O_PAREN) eqn:E.
    + eapply whenever_bind; [now apply IHa|].
      intros [next_arg|] p1 [[Hl1 H1] Hnone].
      * destruct H1 as [Hat Hid].
        eapply whenever_weaken;
          [apply IHl; [exact Hl1|now apply spine_application]|].
        intros res p2 (Hl2 & Hid2 & node & -> & Hsp2).
        split; [exact Hl2|]. split; [lia|]. now exists node.
      * exfalso. destruct (Hnone eq_refl) as [Hv Ho].
        apply Bool.orb_true_iff in E.
        destruct E as [E|E]; apply token_type_eqb_eq in E; contradiction.
    + apply whenever_ret. split; [exact Hl|]. split; [lia|]. now exists head.
  - (* parse_abstraction *)
    intros p Hl. cbn [parse_abstraction].
    eapply whenever_bind with (Q := fun id p' => id = token_id_ p /\ p' = p);
      [intros id p' [= <- <-]; auto|].
    intros id p' [-> ->].
    eapply whenever_bind; [now apply consume_type_cursor|].
    intros [|] p1 [Hl1 H1]; [|now apply backtrack_cursor].
    destruct H1 as [Hid1 _].
    eapply whenever_bind; [now apply consume_variable_cursor|].
    intros [var|] p2 [Hl2 H2]; [|now apply backtrack_cursor].
    destruct H2 as (Hid2 & -> & Hvar).
    eapply whenever_bind; [now apply consume_type_cursor|].
    intros [|] p3 [Hl3 H3]; [|now apply backtrack_cursor].
    destruct H3 as [Hid3 _].
    eapply whenever_bind; [now apply IHe|].
    intros [expr|] p4 [Hl4 H4]; [|now apply backtrack_cursor].
    destruct H4 as [Hex Hid4].
    apply whenever_ret. split; [exact Hl4|].
    split; [now apply expression_abstraction|lia].
  - (* parse_atomic *)
    intros p Hl. cbn [parse_atomic].
    eapply whenever_bind; [now apply consume_type_cursor|].
    intros [|] p1 [Hl1 H1].
    + destruct H1 as [Hid1 _].
      eapply whenever_bind; [now apply IHe|].
      intros inner p2 [Hl2 H2].
      eapply whenever_bind; [now apply consume_type_cursor|].
      intros [|] p3 [Hl3 H3]; cbn [negb]; [|intros r p' E; discriminate E].
      destruct H3 as [Hid3 _].
      apply whenever_ret. split; [|discriminate].
      split; [exact Hl3|]. split.
      * destruct inner as [inner|]; [|apply atom_empty].
        apply atom_group. apply H2.
      * destruct inner as [inner|]; [destruct H2 as [_ H2]|]; lia.
    + destruct H1 as [-> Hno].
      eapply whenever_weaken; [now apply consume_variable_cursor|].
      intros [node|] p2 [Hl2 H2].
      * destruct H2 as (Hid & -> & Hvar).
        split; [|discriminate]. split; [exact Hl2|].
        split; [now apply atom_variable|lia].
      * destruct H2 as [-> Hnv]. split; [|auto].
        split; [exact Hl2|reflexivity].
Qed.

End ParserShapes.

Section ParsedTrees.

Lemma lexer_variable_name lexer tok lexer' :
  lexer_next_token lexer = Returns (tok, lexer') ->
  type tok = VARIABLE -> identifier (text tok).
Proof.
  unfold lexer_next_token. rewrite !from_pos_drop.
  set (pos := (pos_ lexer
               + run_length isspace (drop (pos_ lexer) (text_ lexer)))%nat).
  destruct (String.get pos (text_ lexer)) as [ch|] eqn:Hg;
    [|intros [= <- _]; discriminate].
  destruct (Ascii.eqb ch "."); [intros [= <- _]; discriminate|].
  destruct (Ascii.eqb ch "\"); [intros [= <- _]; discriminate|].
  destruct (Ascii.eqb ch "("); [intros [= <- _]; discriminate|].
  destruct (Ascii.eqb ch ")"); [intros [= <- _]; discriminate|].
  destruct (isalnum ch) eqn:E5; [|discriminate].
  intros [= <- _] _. cbn [text]. rewrite substring_drop.
  rewrite <- (Nat.add_0_r pos), get_drop in Hg.
  split; [|apply run_prefix_all].
  destruct (drop pos (text_ lexer)) as [|c r]; [discriminate|].
  simpl in Hg. injection Hg as ->. simpl. rewrite E5. discriminate.
Qed.

(** X5.  The parser returns null exactly when it leaves the cursor on the
    token it started from: a parse that fails takes back every token it
    consumed, and a parse that returns a node has consumed at least one.
    The cursor never ends before the place it started from. *)
Theorem parse_null_iff_nothing_consumed (fuel : nat) (p p' : ULC_parser)
    (res : option ULC_AST_node) :
  parse fuel p = Some (Returns (res, p')) ->
  (token_id_ p <= token_id_ p')%nat
  /\ (res = None <-> token_id_ p' = token_id_ p).
Proof.
  intros E.
  assert (Hl : lexed (fun _ => True) p).
  { unfold lexed. apply Forall_forall. auto. }
  assert (Hn : forall lexer tok lexer',
             lexer_next_token lexer = Returns (tok, lexer') ->
             type tok = VARIABLE -> (fun _ : string => True) (text tok))
    by auto.
  destruct (proj1 (parser_shapes _ Hn fuel) p Hl res p' E) as [_ H].
  destruct res as [node|].
  - destruct H as [_ H]. split; [lia|]. split; [discriminate|lia].
  - split; [lia|]. split; auto.
Qed.

Lemma parse_null_iff_nothing_consumed_witness :
  let p := mk_parser (mk_lexer "\x y" 1) [mk_token LAMBDA "\"] 0 in
  let p' := mk_parser (mk_lexer "\x y" 4)
              [mk_token LAMBDA "\"; mk_token VARIABLE "x";
               mk_token VARIABLE "y"] 0 in
  parse 10 p = Some (Returns (None, p'))
  /\ (token_id_ p <= token_id_ p')%nat
  /\ (@None ULC_AST_node = None <-> token_id_ p' = token_id_ p).
Proof.
  intros p p'.
  assert (E : parse 10 p = Some (Returns (None, p'))) by (vm_compute; reflexivity).
  split; [exact E|].
  exact (parse_null_iff_nothing_consumed 10 p p' None E).
Defined.

(** X6.  A tree parsed from a text follows the grammar
    [e ::= \v. e | s], [s ::= a | s a], [a ::= v | ( e ) | ( )]: the
    binder of every [DEFINITION] is a variable, applications nest to the
    left with atoms as arguments, and every variable name is a non-empty
    word of letters and digits. *)
Theorem parse_text_grammar (fuel : nat) (source : string)
    (node : ULC_AST_node) :
  parse_text fuel source = Some (Returns (Some node)) ->
  expression identifier node.
Proof.
  unfold parse_text, new_parser.
  destruct (lexer_next_token (mk_lexer source 0)) as [[tok lexer']|e] eqn:El;
    [|discriminate].
  destruct (parse fuel (mk_parser lexer' [tok] 0)) as [[[root p']|e]|] eqn:Ep;
    try discriminate.
  intros [= ->].
  assert (Hl : lexed identifier (mk_parser lexer' [tok] 0)).
  { unfold lexed. cbn [tokens_]. constructor; [|constructor].
    now apply lexer_variable_name with (1 := El). }
  destruct (proj1 (parser_shapes identifier lexer_variable_name fuel) _ Hl _ _ Ep)
    as [_ [H _]].
  exact H.
Qed.

Lemma parse_text_grammar_witness :
  expression identifier
    (DEFINITION (ATOMIC (mk_token VARIABLE "x"))
       (APPLICATION
          (APPLICATION (ATOMIC (mk_token VARIABLE "x"))
             (ATOMIC (mk_token VARIABLE "y1")))
          (GROUP (Some (ATOMIC (mk_token VARIABLE "z")))))).
Proof.
  apply (parse_text_grammar 20 "\x. x y1 (z)"). vm_compute. reflexivity.
Defined.

End ParsedTrees.

(** ** More on the converters *)

Section ConvertersByDistance.

Variable new_addr : nat -> addr.

Lemma dbj_operand_depth node :
  (forall d d' c h, convert_subset_dbj new_addr node d c h
                    = convert_subset_dbj new_addr node d' c h) ->
  forall d d' c h,
    dbj_operand new_addr node d c h = dbj_operand new_addr node d' c h.
Proof.
  intros IH d d' c h. destruct node; try reflexivity;
    unfold dbj_operand, bind; now rewrite (IH d d').
Qed.

Lemma slc_operand_depth node :
  (forall d d' c h, convert_subset new_addr node d c h
                    = convert_subset new_addr node d' c h) ->
  forall d d' c h,
    slc_operand new_addr node d c h = slc_operand new_addr node d' c h.
Proof.
  intros IH d d' c h. destruct node; try reflexivity;
    unfold slc_operand, bind; now rewrite (IH d d').
Qed.

Lemma convert_subset_dbj_depth node :
  forall d d' c h,
    convert_subset_dbj new_addr node d c h
    = convert_subset_dbj new_addr node d' c h.
Proof.
  induction node as [v|binder _ body IH|f IHf a IHa|inner IH|]
    using node_induction; intros d d' c h;
    rewrite (convert_subset_dbj_eq new_addr _ d),
      (convert_subset_dbj_eq new_addr _ d'); auto.
  - unfold bind. now rewrite (dbj_operand_depth body IH (d + 1)%Z (d' + 1)%Z).
  - unfold bind. rewrite (dbj_operand_depth f IHf d d').
    destruct (dbj_operand new_addr f d' c h) as [[ef h1]|e]; [|reflexivity].
    cbn [make_shared]. now rewrite (dbj_operand_depth a IHa d d').
Qed.

Lemma convert_subset_depth node :
  forall d d' c h,
    convert_subset new_addr node d c h = convert_subset new_addr node d' c h.
Proof.
  induction node as [v|binder _ body IH|f IHf a IHa|inner IH|]
    using node_induction; intros d d' c h;
    rewrite (convert_subset_eq new_addr _ d),
      (convert_subset_eq new_addr _ d'); auto.
  - unfold bind. destruct (lambda_marker new_addr h) as [[ptop h1]|e];
      [|reflexivity].
    now rewrite (slc_operand_depth body IH (d + 1)%Z (d' + 1)%Z).
  - unfold bind. rewrite (slc_operand_depth f IHf d d').
    destruct (slc_operand new_addr f d' c h) as [[ef h1]|e]; [|reflexivity].
    cbn [make_shared]. now rewrite (slc_operand_depth a IHa d d').
Qed.

(** X7.  The argument [lambda_depth] of the two converters is passed
    along and incremented under every binder, but never read: the result,
    failures included, is the same for every value of it. *)
Theorem lambda_depth_unused (node : ULC_AST_node) (d d' : Z)
    (captured : list string) (h : heap) :
  convert_subset_dbj new_addr node d captured h
  = convert_subset_dbj new_addr node d' captured h
  /\ convert_subset new_addr node d captured h
     = convert_subset new_addr node d' captured h.
Proof.
  split; [apply convert_subset_dbj_depth|apply convert_subset_depth].
Qed.

Lemma option_map_Some {A B} (f : A -> B) (x : option A) (b : B) :
  option_map f x = Some b -> exists a, x = Some a /\ b = f a.
Proof. destruct x as [a|]; [intros [= <-]; now exists a|discriminate]. Qed.

Lemma operands_resolved node :
  (forall c t, resolve_term node c = Some t ->
     forall d h, convert_subset_dbj new_addr node d c h = emit_dbj new_addr t h
                 /\ convert_subset new_addr node d c h = emit_slc new_addr t h) ->
  forall c o, resolve_operand node c = Some o ->
    forall d h, dbj_operand new_addr node d c h = emit_dbj_operand new_addr o h
                /\ slc_operand new_addr node d c h
                   = emit_slc_operand new_addr o h.
Proof.
  intros IH c o Ho d h.
  assert (Hsub : forall t, resolve_term node c = Some t ->
            bind (convert_subset_dbj new_addr node d c) (make_shared new_addr) h
            = emit_dbj_operand new_addr (O_term t) h
            /\ bind (convert_subset new_addr node d c) (make_shared new_addr) h
               = emit_slc_operand new_addr (O_term t) h).
  { intros t Ht. destruct (IH c t Ht d h) as [E1 E2].
    cbn [emit_dbj_operand emit_slc_operand]. unfold bind.
    now rewrite E1, E2. }
  destruct node as [v|binder body|f a|inner];
    unfold resolve_operand in Ho; apply option_map_Some in Ho as (x & Hx & ->);
    try (now apply Hsub).
  unfold dbj_operand, slc_operand, resolve, bind. rewrite Hx. now split.
Qed.

(** Both converters depend on a tree only through its resolved term. *)
Lemma convert_resolved node :
  forall c t, resolve_term node c = Some t ->
    forall d h, convert_subset_dbj new_addr node d c h = emit_dbj new_addr t h
                /\ convert_subset new_addr node d c h = emit_slc new_addr t h.
Proof.
  induction node as [v|binder _ body IH|f IHf a IHa|inner IH|]
    using node_induction; intros c t; rewrite resolve_term_eq; intros Ht d h;
    rewrite convert_subset_dbj_eq, convert_subset_eq.
  - discriminate.
  - apply option_map_Some in Ht as (o & Ho & ->).
    cbn [emit_dbj emit_slc]. unfold bind. split.
    + now rewrite (proj1 (operands_resolved body IH _ _ Ho (d + 1)%Z h)).
    + destruct (lambda_marker new_addr h) as [[ptop h1]|e]; [|reflexivity].
      now rewrite (proj2 (operands_resolved body IH _ _ Ho (d + 1)%Z h1)).
  - destruct (resolve_operand f c) as [rf|] eqn:Hf; [|discriminate].
    destruct (resolve_operand a c) as [ra|] eqn:Ha; [|discriminate].
    injection Ht as <-. cbn [emit_dbj emit_slc]. unfold bind. split.
    + rewrite (proj1 (operands_resolved f IHf _ _ Hf d h)).
      destruct (emit_dbj_operand new_addr rf h) as [[ef h1]|e]; [|reflexivity].
      cbn [make_shared].
      now rewrite (proj1 (operands_resolved a IHa _ _ Ha d (S h1))).
    + rewrite (proj2 (operands_resolved f IHf _ _ Hf d h)).
      destruct (emit_slc_operand new_addr rf h) as [[ef h1]|e]; [|reflexivity].
      cbn [make_shared].
      now rewrite (proj2 (operands_resolved a IHa _ _ Ha d (S h1))).
  - now apply IH.
  - injection Ht as <-. now split.
Qed.

(** X8.  The converters see a tree only through the distances from its
    variables to their binders: two trees with the same resolved term,
    for instance two that differ in the names of bound variables or in
    parentheses around compound expressions, are converted to the very
    same set from the same heap, in both modes. *)
Theorem same_distances_same_set (node1 node2 : ULC_AST_node)
    (c1 c2 : list string) (d1 d2 : Z) (t : resolved) (h : heap) :
  resolve_term node1 c1 = Some t ->
  resolve_term node2 c2 = Some t ->
  convert_subset_dbj new_addr node1 d1 c1 h
  = convert_subset_dbj new_addr node2 d2 c2 h
  /\ convert_subset new_addr node1 d1 c1 h
     = convert_subset new_addr node2 d2 c2 h.
Proof.
  intros H1 H2.
  destruct (convert_resolved node1 c1 t H1 d1 h) as [-> ->].
  destruct (convert_resolved node2 c2 t H2 d2 h) as [-> ->].
  now split.
Qed.

End ConvertersByDistance.

Lemma same_distances_same_set_witness :
  let x := ATOMIC (mk_token VARIABLE "x") in
  let y := ATOMIC (mk_token VARIABLE "y") in
  let a := ATOMIC (mk_token VARIABLE "a") in
  let b := ATOMIC (mk_token VARIABLE "b") in
  let node1 := DEFINITION x (DEFINITION y (APPLICATION x y)) in
  let node2 :=
    DEFINITION a
      (GROUP (Some (DEFINITION b (GROUP (Some (APPLICATION a b)))))) in
  (parse_text 20 "\x.\y.x y" = Some (Returns (Some node1))
   /\ parse_text 20 "\a.(\b.(a b))" = Some (Returns (Some node2)))
  /\ convert_subset_dbj N.of_nat node1 0 [] 0
     = convert_subset_dbj N.of_nat node2 0 [] 0
  /\ convert_subset N.of_nat node1 0 [] 0
     = convert_subset N.of_nat node2 0 [] 0.
Proof.
  intros x y a b node1 node2. split; [split; vm_compute; reflexivity|].
  apply (same_distances_same_set N.of_nat node1 node2 [] [] 0 0
           (R_lambda (O_term (R_lambda (O_term
              (R_apply (O_index 2) (O_index 1))))))); reflexivity.
Defined.

Section ConverterOutcomes.

Variable new_addr : nat -> addr.

Lemma returns_bind_inv {A B} (m : M A) (k : A -> M B) h :
  returns (bind m k h) ->
  exists a h', m h = Returns (a, h') /\ returns (k a h').
Proof.
  unfold returns, bind. destruct (m h) as [[a h']|e].
  - intros H. now exists a, h'.
  - intros [r H]. discriminate.
Qed.

Lemma find_position_In captured x position :
  find_position captured x = Some position -> In x captured.
Proof.
  intros H. destruct (in_dec string_dec x captured) as [Hin|Hout]; [exact Hin|].
  rewrite (find_position_None _ _ Hout) in H. discriminate.
Qed.

Lemma slc_operand_inv node :
  (forall d c h, returns (convert_subset new_addr node d c h) ->
                 closed c node /\ variables_are_operands node) ->
  forall d c h, returns (slc_operand new_addr node d c h) ->
                closed c node /\ operand_of variables_are_operands node.
Proof.
  intros IH d c h Hr.
  destruct node as [v|binder body|f a|inner]; unfold slc_operand in Hr;
    apply returns_bind_inv in Hr as (x & h1 & Hx & _);
    try (apply (IH d c h); now exists (x, h1)).
  apply resolve_inv in Hx as [Hx _]. split; [|exact I].
  simpl. now apply find_position_In with x.
Qed.

Lemma convert_subset_inv node :
  forall d c h, returns (convert_subset new_addr node d c h) ->
                closed c node /\ variables_are_operands node.
Proof.
  induction node as [v|binder _ body IH|f IHf a IHa|inner IH|]
    using node_induction; intros d c h; rewrite convert_subset_eq; intros Hr.
  - destruct Hr as [r Hr]. discriminate.
  - apply returns_bind_inv in Hr as (ptop & h1 & _ & Hr).
    apply returns_bind_inv in Hr as (e & h2 & He & _).
    apply (slc_operand_inv body IH (d + 1)%Z _ h1). now exists (e, h2).
  - apply returns_bind_inv in Hr as (ef & h1 & Hf & Hr).
    apply returns_bind_inv in Hr as (pp & h2 & Hp & Hr).
    apply returns_bind_inv in Hr as (ea & h3 & Ha & _).
    destruct (slc_operand_inv f IHf d c h) as [Hcf Hvf]; [now exists (ef, h1)|].
    destruct (slc_operand_inv a IHa d c h2) as [Hca Hva]; [now exists (ea, h3)|].
    simpl. auto.
  - now apply IH in Hr.
  - simpl. auto.
Qed.

(** X9.  Name-preserving conversion returns a set exactly for the trees
    in which every variable is bound by an enclosing binder and stands as
    the body of a [DEFINITION] or as an operand of an [APPLICATION]; on
    every other tree it throws. *)
Theorem convert_returns_iff (node : ULC_AST_node) (lambda_depth : Z)
    (captured : list string) (h : heap) :
  returns (convert_subset new_addr node lambda_depth captured h)
  <-> closed captured node /\ variables_are_operands node.
Proof.
  split.
  - apply convert_subset_inv.
  - intros [Hc Hv]. now apply convert_subset_returns.
Qed.

(** X10.  A variable is resolved to its innermost enclosing binder: the
    position found on the capture stack is the 1-based place of the first
    entry with that name, so a binder that reuses a name hides the outer
    one. *)
Theorem find_position_nearest (captured : list string) (var_name : string)
    (position : Z) :
  find_position captured var_name = Some position
  <-> (1 <= position)%Z
      /\ nth_error captured (Z.to_nat (position - 1)) = Some var_name
      /\ ~ In var_name (firstn (Z.to_nat (position - 1)) captured).
Proof.
  revert position.
  induction captured as [|x captured IH]; intros position; simpl.
  - split; [discriminate|]. intros (_ & H & _).
    destruct (Z.to_nat (position - 1)); discriminate.
  - destruct (String.eqb_spec x var_name) as [->|Hne].
    + split.
      * intros [= <-]. simpl. repeat split; auto. lia.
      * intros (H1 & Hn & Hf).
        destruct (Z.to_nat (position - 1)) as [|k] eqn:Ek.
        -- f_equal. lia.
        -- exfalso. apply Hf. simpl. auto.
    + split.
      * intros H. apply option_map_Some in H as (q & Hq & ->).
        apply IH in Hq as (H1 & Hn & Hf).
        replace (Z.to_nat (Z.succ q - 1)) with (S (Z.to_nat (q - 1))) by lia.
        simpl. repeat split; [lia|exact Hn|]. intros [E|Hin]; auto.
      * intros (H1 & Hn & Hf).
        destruct (Z.to_nat (position - 1)) as [|k] eqn:Ek.
        -- simpl in Hn. congruence.
        -- simpl in Hn, Hf.
           assert (Hq : find_position captured var_name = Some (position - 1)%Z).
           { apply IH. replace (Z.to_nat (position - 1 - 1)) with k by lia.
             repeat split; [lia|exact Hn|]. intros Hin. apply Hf. auto. }
           rewrite Hq. simpl. f_equal. lia.
Qed.

Lemma resolve_term_operand node c t :
  resolve_term node c = Some t -> resolve_operand node c = Some (O_term t).
Proof.
  destruct node; unfold resolve_operand; intros H; try now rewrite H.
  discriminate.
Qed.

(** X11.  Name-preserving mode does not tell an abstraction from an
    application of the empty group: the marker [{{}}] it inserts for a
    binder is the set it builds for [()] in function position, so
    [\x.(M)] and [() (M)] are converted to the very same set whenever [M]
    resolves to the same term in both places. *)
Theorem abstraction_is_empty_application (binder body arg : ULC_AST_node)
    (captured : list string) (d d' : Z) (t : resolved) (h : heap) :
  resolve_term body (text (value binder) :: captured) = Some t ->
  resolve_term arg captured = Some t ->
  convert_subset new_addr (DEFINITION binder body) d captured h
  = convert_subset new_addr (APPLICATION (GROUP None) arg) d' captured h.
Proof.
  intros Hb Ha.
  assert (H1 : resolve_term (DEFINITION binder body) captured
               = Some (R_lambda (O_term t))).
  { rewrite resolve_term_eq. now rewrite (resolve_term_operand _ _ _ Hb). }
  assert (H2 : resolve_term (APPLICATION (GROUP None) arg) captured
               = Some (R_apply (O_term R_null) (O_term t))).
  { rewrite resolve_term_eq. now rewrite (resolve_term_operand _ _ _ Ha). }
  rewrite (proj2 (convert_resolved new_addr _ _ _ H1 d h)).
  rewrite (proj2 (convert_resolved new_addr _ _ _ H2 d' h)).
  reflexivity.
Qed.

End ConverterOutcomes.

Lemma convert_returns_iff_witness :
  let node := DEFINITION (ATOMIC (mk_token VARIABLE "x"))
                (APPLICATION (ATOMIC (mk_token VARIABLE "x"))
                   (GROUP (Some (ATOMIC (mk_token VARIABLE "x"))))) in
  parse_text 20 "\x.x (x)" = Some (Returns (Some node))
  /\ closed [] node
  /\ ~ returns (convert_subset N.of_nat node 0 [] 0).
Proof.
  intros node. split; [vm_compute; reflexivity|].
  split; [simpl; auto|].
  intros Hr. apply (convert_returns_iff N.of_nat node 0 [] 0) in Hr.
  destruct Hr as [_ Hv]. simpl in Hv. tauto.
Defined.

Lemma abstraction_is_empty_application_witness :
  let y := ATOMIC (mk_token VARIABLE "y") in
  let inner := GROUP (Some (DEFINITION y y)) in
  let node1 := DEFINITION (ATOMIC (mk_token VARIABLE "x")) inner in
  let node2 := APPLICATION (GROUP None) inner in
  (parse_text 20 "\x.(\y.y)" = Some (Returns (Some node1))
   /\ parse_text 20 "() (\y.y)" = Some (Returns (Some node2)))
  /\ convert_subset N.of_nat node1 0 [] 0 = convert_subset N.of_nat node2 0 [] 0.
Proof.
  intros y inner node1 node2. split; [split; vm_compute; reflexivity|].
  apply (abstraction_is_empty_application N.of_nat _ inner inner [] 0 0
           (R_lambda (O_index 1))); reflexivity.
Defined.

(** ** Reading the results back *)

Section Readback.

Variable new_addr : nat -> addr.

(** Where the elements of a De Bruijn set come from. *)
Lemma emit_dbj_heap :
  forall t h s h', emit_dbj new_addr t h = Returns (s, h') -> (h <= h')%nat.
Proof.
  apply (resolved_induction
    (fun t => forall h s h',
       emit_dbj new_addr t h = Returns (s, h') -> (h <= h')%nat)
    (fun o => forall h e h',
       emit_dbj_operand new_addr o h = Returns (e, h') -> (h <= h')%nat)).
  - intros h s h' [= _ <-]. lia.
  - intros body IH h s h' E. cbn [emit_dbj] in E.
    apply bind_inv in E as (e & h1 & He & [= _ <-]). now apply IH in He.
  - intros f IHf a IHa h s h' E. cbn [emit_dbj] in E.
    apply bind_inv in E as (ef & h1 & Hf & E).
    apply bind_inv in E as (pp & h2 & [= _ <-] & E).
    apply bind_inv in E as (ea & h3 & Ha & [= _ <-]).
    apply IHf in Hf. apply IHa in Ha. lia.
  - intros position h e h' [= _ <-]. lia.
  - intros t IH h e h' E. cbn [emit_dbj_operand] in E.
    apply bind_inv in E as (s & h1 & Hs & [= _ <-]). apply IH in Hs. lia.
Qed.

Lemma emit_dbj_operand_inv o h e h' :
  emit_dbj_operand new_addr o h = Returns (e, h') ->
  (exists n, o = O_index n /\ e = int_elt n /\ h' = h)
  \/ (exists t s h1, o = O_term t /\ e = shared_ptr_elt (new_addr h1) s
                     /\ emit_dbj new_addr t h = Returns (s, h1)
                     /\ (h <= h1)%nat /\ h' = S h1).
Proof.
  destruct o as [n|t]; cbn [emit_dbj_operand].
  - intros [= <- <-]. left. now exists n.
  - intros E. apply bind_inv in E as (s & h1 & Hs & [= <- <-]).
    right. exists t, s, h1. repeat split; auto.
    now apply emit_dbj_heap in Hs.
Qed.

Lemma decode_wrapper_first q ef y :
  decode [shared_ptr_elt q [ef]; y]
  = decode_application decode_operand [ef] y.
Proof. reflexivity. Qed.

Lemma decode_wrapper_last p s1 q ef :
  List.length s1 <> 1%nat ->
  decode [shared_ptr_elt p s1; shared_ptr_elt q [ef]]
  = decode_application decode_operand [ef] (shared_ptr_elt p s1).
Proof.
  intros H. destruct s1 as [|a1 [|a2 s1]]; try reflexivity. now destruct H.
Qed.

Lemma decode_emitted :
  distinct_addresses new_addr ->
  forall t h s h',
    emit_dbj new_addr t h = Returns (s, h') ->
    decode s = Some t /\ List.length s <> 1%nat.
Proof.
  intros Hd.
  apply (resolved_induction
    (fun t => forall h s h',
       emit_dbj new_addr t h = Returns (s, h') ->
       decode s = Some t /\ List.length s <> 1%nat)
    (fun o => forall h e h',
       emit_dbj_operand new_addr o h = Returns (e, h') ->
       decode_operand e = Some o
       /\ forall p s, e = shared_ptr_elt p s -> List.length s <> 1%nat)).
  - intros h s h' [= <- _]. split; [reflexivity|discriminate].
  - intros body IH h s h' E. cbn [emit_dbj] in E.
    apply bind_inv in E as (e & h1 & He & [= <- _]).
    destruct (IH _ _ _ He) as [Hdec _].
    destruct (emit_dbj_operand_inv _ _ _ _ He)
      as [(n & _ & -> & _)|(t & s & h2 & _ & -> & _)];
      cbn [set_insert elt_compare index Nat.compare];
      (split; [|discriminate]);
      unfold decode; cbn [decode_set String.eqb Ascii.eqb Bool.eqb];
      fold decode; now rewrite Hdec.
  - intros f IHf a IHa h s h' E. cbn [emit_dbj] in E.
    apply bind_inv in E as (ef & h1 & Hf & E).
    apply bind_inv in E as (pp & h2 & [= <- <-] & E).
    apply bind_inv in E as (ea & h3 & Ha & [= <- _]).
    destruct (IHf _ _ _ Hf) as [Hdf _].
    destruct (IHa _ _ _ Ha) as [Hda Hla].
    destruct (emit_dbj_operand_inv _ _ _ _ Ha)
      as [(n & _ & -> & _)|(t & s & h2 & _ & -> & _ & Hle & _)].
    + cbn [set_insert elt_compare index Nat.compare].
      split; [|discriminate].
      rewrite decode_wrapper_first. cbn [decode_application].
      now rewrite Hdf, Hda.
    + cbn [set_insert elt_compare].
      destruct (N.compare_spec (new_addr h2) (new_addr h1)) as [E|_|_].
      * apply Hd in E. lia.
      * split; [|discriminate].
        rewrite decode_wrapper_last by exact (Hla _ s eq_refl).
        cbn [decode_application]. now rewrite Hdf, Hda.
      * split; [|discriminate].
        rewrite decode_wrapper_first. cbn [decode_application].
        now rewrite Hdf, Hda.
  - intros position h e h' [= <- _]. split; [reflexivity|discriminate].
  - intros t IH h e h' E. cbn [emit_dbj_operand] in E.
    apply bind_inv in E as (s & h1 & Hs & [= <- _]).
    destruct (IH _ _ _ Hs) as [Hdec Hlen].
    split.
    + cbn [decode_operand]. fold (decode s). now rewrite Hdec.
    + now intros p s' [= _ <-].
Qed.

(** X12.  The De Bruijn encoding loses nothing: when sets that are alive
    together have different addresses, the set returned for a tree can be
    read back, whatever order the addresses put its elements in, and what
    is read is the resolved term of the tree. *)
Theorem convert_dbj_readback (node : ULC_AST_node) (lambda_depth : Z)
    (captured : list string) (t : resolved) (h h' : heap) (s : SLC_set) :
  distinct_addresses new_addr ->
  resolve_term node captured = Some t ->
  convert_subset_dbj new_addr node lambda_depth captured h = Returns (s, h') ->
  decode s = Some t.
Proof.
  intros Hd Ht E.
  rewrite (proj1 (convert_resolved new_addr _ _ _ Ht lambda_depth h)) in E.
  now apply (decode_emitted Hd) in E.
Qed.

End Readback.

Lemma convert_dbj_readback_witness :
  let x := ATOMIC (mk_token VARIABLE "x") in
  let node := DEFINITION x (APPLICATION x (GROUP None)) in
  let t := R_lambda (O_term (R_apply (O_index 1) (O_term R_null))) in
  parse_text 30 "\x.x ()" = Some (Returns (Some node))
  /\ distinct_addresses pairwise_swapped
  /\ rendered (convert_dbj pairwise_swapped (Some node)) 0
     = Returns "{λ, {{}, {1}}}"
  /\ exists s h',
       convert_subset_dbj pairwise_swapped node 0 [] 0 = Returns (s, h')
       /\ decode s = Some t.
Proof.
  intros x node t. split; [vm_compute; reflexivity|].
  split; [exact pairwise_swapped_distinct|].
  split; [vm_compute; reflexivity|].
  eexists _, _. split; [vm_compute; reflexivity|].
  apply (convert_dbj_readback pairwise_swapped node 0 [] t 0 3).
  - exact pairwise_swapped_distinct.
  - reflexivity.
  - vm_compute. reflexivity.
Defined.

(** ** The text of a converted term *)

Section Notation.

Variable new_addr : nat -> addr.

Hypothesis addresses_grow : increasing_addresses new_addr.

Lemma append_empty_r (s : string) : s ++ "" = s.
Proof. induction s as [|c s IH]; simpl; [reflexivity|now rewrite IH]. Qed.

Lemma to_string_single x : to_string [x] = "{" ++ elt_to_string x ++ "}".
Proof. unfold to_string. cbn [elems_to_string]. now rewrite append_empty_r. Qed.

Lemma to_string_pair x y :
  to_string [x; y] = "{" ++ elt_to_string x ++ ", " ++ elt_to_string y ++ "}".
Proof.
  unfold to_string. cbn [elems_to_string].
  rewrite append_empty_r. cbn [append]. now rewrite !append_assoc.
Qed.

Lemma set_insert_later h e s :
  later_operand new_addr (S h) e ->
  set_insert e [shared_ptr_elt (new_addr h) s]
  = [shared_ptr_elt (new_addr h) s; e].
Proof.
  destruct e as [sym|p s'|n]; cbn [later_operand]; [easy| |reflexivity].
  intros (i & -> & Hi). cbn [set_insert elt_compare].
  assert (H : (new_addr h < new_addr i)%N) by (apply addresses_grow; lia).
  apply N.compare_gt_iff in H. now rewrite H.
Qed.

Lemma set_insert_after_symbol h e sym :
  later_operand new_addr h e ->
  set_insert e [string_view_elt sym] = [string_view_elt sym; e].
Proof. destruct e; cbn [later_operand]; [easy|reflexivity|reflexivity]. Qed.

Lemma emit_dbj_notation :
  forall t h, exists s h',
    emit_dbj new_addr t h = Returns (s, h')
    /\ (h <= h')%nat /\ to_string s = dbj_notation t.
Proof.
  apply (resolved_induction
    (fun t => forall h, exists s h',
       emit_dbj new_addr t h = Returns (s, h')
       /\ (h <= h')%nat /\ to_string s = dbj_notation t)
    (fun o => forall h, exists e h',
       emit_dbj_operand new_addr o h = Returns (e, h')
       /\ (h <= h')%nat /\ later_operand new_addr h e
       /\ elt_to_string e = dbj_operand_notation o)).
  - intros h. exists [], h. repeat split. lia.
  - intros body IH h. destruct (IH h) as (e & h1 & He & Hle & Hlater & Hs).
    eexists _, _. cbn [emit_dbj]. rewrite (bind_returns _ _ _ _ _ He).
    split; [reflexivity|]. split; [exact Hle|].
    rewrite (set_insert_after_symbol h) by exact Hlater.
    rewrite to_string_pair, Hs. reflexivity.
  - intros f IHf a IHa h.
    destruct (IHf h) as (ef & h1 & Hf & Hle1 & _ & Hsf).
    destruct (IHa (S h1)) as (ea & h2 & Ha & Hle2 & Hlater & Hsa).
    eexists _, _. cbn [emit_dbj]. rewrite (bind_returns _ _ _ _ _ Hf).
    unfold make_shared at 1. unfold bind at 1.
    rewrite (bind_returns _ _ _ _ _ Ha).
    split; [reflexivity|]. split; [lia|].
    rewrite set_insert_later by exact Hlater.
    rewrite to_string_pair, elt_to_string_shared_ptr, to_string_single.
    rewrite Hsf, Hsa. cbn [append dbj_notation].
    now rewrite !append_assoc.
  - intros position h. exists (int_elt position), h. repeat split. lia.
  - intros t IH h. destruct (IH h) as (s & h1 & Hs & Hle & Hstr).
    eexists _, _. cbn [emit_dbj_operand]. rewrite (bind_returns _ _ _ _ _ Hs).
    split; [reflexivity|]. split; [lia|].
    split; [now exists h1|]. now rewrite elt_to_string_shared_ptr.
Qed.

(** X13.  When every allocation lands above the earlier ones, the text
    of a De Bruijn conversion is the notation of the resolved term:
    [{λ, b}] for an abstraction with body [b], [{{f}, a}] for the
    application of [f] to [a], the distance to the binder for a variable
    and [{}] for an empty group. *)
Theorem convert_dbj_notation (node : ULC_AST_node) (lambda_depth : Z)
    (captured : list string) (t : resolved) (h : heap) :
  resolve_term node captured = Some t ->
  rendered (convert_subset_dbj new_addr node lambda_depth captured) h
  = Returns (dbj_notation t).
Proof.
  intros Ht. unfold rendered.
  rewrite (proj1 (convert_resolved new_addr _ _ _ Ht lambda_depth h)).
  destruct (emit_dbj_notation t h) as (s & h' & -> & _ & ->). reflexivity.
Qed.

Lemma make_number_increasing number h :
  exists s,
    make_number new_addr number h
    = Returns (s, (S (S (S h)) + Z.to_nat (number - 1))%nat)
    /\ to_string s = numeral_string number.
Proof.
  unfold make_number, bind, make_shared.
  set (count := Z.to_nat (number - 1)).
  set (num_base := set_insert (shared_ptr_elt (new_addr (S h)) [])
                     (set_insert (shared_ptr_elt (new_addr h) []) [])).
  set (pb := shared_ptr_elt (new_addr (S (S h))) num_base).
  assert (Hbase : elt_to_string pb = "{{}, {}}").
  { unfold pb. rewrite elt_to_string_shared_ptr. apply num_base_renders.
    intros E. apply (increasing_distinct new_addr addresses_grow) in E. lia. }
  assert (Htop : forall y, In y (set_insert pb []) ->
                           made_before new_addr (S (S (S h))) y).
  { intros y [<-|[]]. exists (S (S h)), num_base. split; [reflexivity|lia]. }
  rewrite (add_extras_increasing new_addr count addresses_grow _ _ Htop).
  eexists. split; [reflexivity|].
  unfold to_string, numeral_string. fold count. cbn [set_insert app elems_to_string].
  rewrite Hbase, extras_rendered_in_a_row. reflexivity.
Qed.

Lemma emit_slc_notation :
  forall t h, exists s h',
    emit_slc new_addr t h = Returns (s, h')
    /\ (h <= h')%nat /\ to_string s = slc_notation t.
Proof.
  apply (resolved_induction
    (fun t => forall h, exists s h',
       emit_slc new_addr t h = Returns (s, h')
       /\ (h <= h')%nat /\ to_string s = slc_notation t)
    (fun o => forall h, exists e h',
       emit_slc_operand new_addr o h = Returns (e, h')
       /\ (h <= h')%nat /\ later_operand new_addr h e
       /\ elt_to_string e = slc_operand_notation o)).
  - intros h. exists [], h. repeat split. lia.
  - intros body IH h.
    destruct (IH (S (S h))) as (e & h1 & He & Hle & Hlater & Hs).
    eexists _, _. cbn [emit_slc]. unfold lambda_marker, make_shared at 1 2.
    unfold bind at 1 2. rewrite (bind_returns _ _ _ _ _ He).
    split; [reflexivity|]. split; [lia|].
    rewrite set_insert_later by exact Hlater.
    rewrite to_string_pair, Hs. reflexivity.
  - intros f IHf a IHa h.
    destruct (IHf h) as (ef & h1 & Hf & Hle1 & _ & Hsf).
    destruct (IHa (S h1)) as (ea & h2 & Ha & Hle2 & Hlater & Hsa).
    eexists _, _. cbn [emit_slc]. rewrite (bind_returns _ _ _ _ _ Hf).
    unfold make_shared at 1. unfold bind at 1.
    rewrite (bind_returns _ _ _ _ _ Ha).
    split; [reflexivity|]. split; [lia|].
    rewrite set_insert_later by exact Hlater.
    rewrite to_string_pair, elt_to_string_shared_ptr, to_string_single.
    rewrite Hsf, Hsa. cbn [append slc_notation].
    now rewrite !append_assoc.
  - intros position h.
    destruct (make_number_increasing position h) as (s & Hs & Hstr).
    eexists _, _. cbn [emit_slc_operand]. rewrite (bind_returns _ _ _ _ _ Hs).
    split; [reflexivity|]. split; [lia|].
    split; [eexists; split; [reflexivity|lia]|].
    now rewrite elt_to_string_shared_ptr.
  - intros t IH h. destruct (IH h) as (s & h1 & Hs & Hle & Hstr).
    eexists _, _. cbn [emit_slc_operand]. rewrite (bind_returns _ _ _ _ _ Hs).
    split; [reflexivity|]. split; [lia|].
    split; [now exists h1|]. now rewrite elt_to_string_shared_ptr.
Qed.

(** X14.  When every allocation lands above the earlier ones, the text
    of a name-preserving conversion is the notation of the resolved term
    with sets only: [{{{}}, b}] for an abstraction with body [b],
    [{{f}, a}] for an application, and for a variable the numeral of its
    distance to the binder, [{{{}, {}}}] followed by one [{}] for each
    binder in between. *)
Theorem convert_notation (node : ULC_AST_node) (lambda_depth : Z)
    (captured : list string) (t : resolved) (h : heap) :
  resolve_term node captured = Some t ->
  rendered (convert_subset new_addr node lambda_depth captured) h
  = Returns (slc_notation t).
Proof.
  intros Ht. unfold rendered.
  rewrite (proj2 (convert_resolved new_addr _ _ _ Ht lambda_depth h)).
  destruct (emit_slc_notation t h) as (s & h' & -> & _ & ->). reflexivity.
Qed.

End Notation.

Lemma of_nat_increasing : increasing_addresses N.of_nat.
Proof. intros i j H. lia. Qed.

Lemma convert_dbj_notation_witness :
  let x := ATOMIC (mk_token VARIABLE "x") in
  let y := ATOMIC (mk_token VARIABLE "y") in
  let node := DEFINITION x (DEFINITION y
                (APPLICATION (APPLICATION x y) (GROUP (Some (DEFINITION x x))))) in
  parse_text 30 "\x.\y.x y (\x.x)" = Some (Returns (Some node))
  /\ rendered (convert_subset_dbj N.of_nat node 0 []) 0
     = Returns "{λ, {λ, {{{{2}, 1}}, {λ, 1}}}}".
Proof.
  intros x y node. split; [vm_compute; reflexivity|].
  apply (convert_dbj_notation N.of_nat of_nat_increasing node 0 []
           (R_lambda (O_term (R_lambda (O_term
              (R_apply (O_term (R_apply (O_index 2) (O_index 1)))
                       (O_term (R_lambda (O_index 1)))))))) 0).
  reflexivity.
Defined.

Lemma convert_notation_witness :
  let x := ATOMIC (mk_token VARIABLE "x") in
  let y := ATOMIC (mk_token VARIABLE "y") in
  let node := DEFINITION x (DEFINITION y (APPLICATION x y)) in
  parse_text 30 "\x.\y.x y" = Some (Returns (Some node))
  /\ rendered (convert_subset N.of_nat node 0 []) 0
     = Returns "{{{}}, {{{}}, {{{{{}, {}}, {}}}, {{{}, {}}}}}}".
Proof.
  intros x y node. split; [vm_compute; reflexivity|].
  apply (convert_notation N.of_nat of_nat_increasing node 0 []
           (R_lambda (O_term (R_lambda (O_term
              (R_apply (O_index 2) (O_index 1)))))) 0).
  reflexivity.
Defined.

(** ** Reading a printed set back *)

Section RoundTrip.

Variable new_addr : nat -> addr.

Hypothesis addresses_grow : increasing_addresses new_addr.

Lemma elems_to_string_separated first l :
  elems_to_string first l = separated first (map elt_to_string l).
Proof.
  revert first. induction l as [|e l IH]; intros first; simpl; [reflexivity|].
  now rewrite IH.
Qed.

Lemma pretty_eq children :
  pretty (Group children) = "{" ++ separated true (map pretty children) ++ "}".
Proof. reflexivity. Qed.

Lemma build_list_increasing l :
  Forall (fun c => forall h, exists s h',
            build new_addr c h = Returns (s, h')
            /\ (h <= h')%nat /\ to_string s = pretty c) l ->
  forall acc h,
    (forall y, In y acc -> made_before new_addr h y) ->
    exists news h',
      build_list new_addr l acc h = Returns ((acc ++ news)%list, h')
      /\ (h <= h')%nat
      /\ map elt_to_string news = map pretty l.
Proof.
  induction 1 as [|c l Hc _ IH]; intros acc h Hacc.
  - exists [], h. cbn [build_list]. rewrite app_nil_r. repeat split. lia.
  - destruct (Hc h) as (s & h1 & Hs & Hle & Hstr).
    cbn [build_list]. rewrite (bind_returns _ _ _ _ _ Hs).
    unfold make_shared at 1. unfold bind at 1.
    rewrite set_insert_last.
    + destruct (IH (acc ++ [shared_ptr_elt (new_addr h1) s])%list (S h1))
        as (news & h2 & Hl & Hle2 & Hmap).
      * intros y Hy. apply in_app_or in Hy as [Hy|[<-|[]]].
        -- apply made_before_mono with h; [lia|auto].
        -- exists h1, s. split; [reflexivity|lia].
      * exists (shared_ptr_elt (new_addr h1) s :: news), h2.
        rewrite Hl, <- app_assoc. split; [reflexivity|]. split; [lia|].
        cbn [map]. now rewrite elt_to_string_shared_ptr, Hstr, Hmap.
    + intros y Hy. destruct (Hacc y Hy) as (i & s' & -> & Hi).
      unfold elt_lt. simpl. apply N.compare_lt_iff.
      apply addresses_grow. lia.
Qed.

Lemma build_increasing g :
  forall h, exists s h',
    build new_addr g h = Returns (s, h')
    /\ (h <= h')%nat /\ to_string s = pretty g.
Proof.
  induction g as [children IH] using group_induction. intros h.
  destruct (build_list_increasing children IH [] h) as (news & h' & Hl & Hle & Hm).
  { intros y []. }
  exists news, h'. rewrite build_eq, Hl. split; [reflexivity|].
  split; [exact Hle|].
  unfold to_string. now rewrite elems_to_string_separated, Hm, pretty_eq.
Qed.

Lemma braces_app s t : braces (s ++ t) = braces s ++ braces t.
Proof.
  induction s as [|c s IH]; simpl; [reflexivity|].
  destruct (is_brace c); simpl; now rewrite IH.
Qed.

Lemma braces_pretty g : braces (pretty g) = print g.
Proof.
  induction g as [children IH] using group_induction.
  rewrite pretty_eq, print_eq.
  change (braces ("{" ++ separated true (map pretty children) ++ "}"))
    with ("{" ++ braces (separated true (map pretty children) ++ "}")).
  rewrite braces_app. f_equal. f_equal.
  generalize true.
  induction IH as [|c l Hc _ IHl]; intros first; [reflexivity|].
  cbn [map separated print_list]. rewrite !braces_app, Hc, IHl.
  now destruct first.
Qed.

(** X15.  Reading a text and printing the result normalises the text:
    when every allocation lands above the earlier ones, the text printed
    for a parsed term is the first complete group of the input with
    everything but its braces dropped and [", "] between the groups
    inside a group; a text already in this form is printed back
    unchanged. *)
Theorem parse_toposet_prints_first_group (str rest : string) (g : group)
    (h : heap) :
  braces str = print g ++ rest ->
  rendered (parse_toposet new_addr str) h = Returns (pretty g)
  /\ rendered (parse_toposet new_addr (pretty g)) h = Returns (pretty g).
Proof.
  intros E.
  assert (Hg : forall text rest',
             braces text = print g ++ rest' ->
             rendered (parse_toposet new_addr text) h = Returns (pretty g)).
  { intros text rest' Et. unfold rendered, parse_toposet.
    rewrite parse_toposet_loop_braces, Et.
    fold (parse_toposet new_addr (print g ++ rest') h).
    rewrite parse_toposet_first_group.
    destruct (build_increasing g h) as (s & h' & -> & _ & ->). reflexivity. }
  split; [now apply Hg with rest|].
  apply Hg with "". now rewrite braces_pretty, append_empty_r.
Qed.

Lemma separated_repeat k :
  separated false (repeat "{}" k) = String.concat "" (repeat ", {}" k).
Proof.
  induction k as [|k IH]; [reflexivity|].
  cbn [repeat separated]. rewrite IH.
  destruct k; [reflexivity|]. cbn [repeat String.concat]. reflexivity.
Qed.

Lemma pretty_numeral n : pretty (numeral_group n) = numeral_string n.
Proof.
  unfold numeral_group, numeral_string. rewrite pretty_eq.
  cbn [map separated pretty]. rewrite map_repeat.
  change (pretty (Group [])) with "{}".
  rewrite separated_repeat. cbn [append]. rewrite ?append_assoc. reflexivity.
Qed.

Lemma slc_notation_pretty :
  forall t, slc_notation t = pretty (slc_group t).
Proof.
  apply (resolved_induction
    (fun t => slc_notation t = pretty (slc_group t))
    (fun o => slc_operand_notation o = pretty (slc_operand_group o))).
  - reflexivity.
  - intros body IH. cbn [slc_notation slc_group]. rewrite pretty_eq, IH.
    cbn [map separated pretty append]. now rewrite append_empty_r.
  - intros f IHf a IHa. cbn [slc_notation slc_group].
    rewrite pretty_eq, IHf, IHa.
    cbn [map separated]. rewrite (pretty_eq [slc_operand_group f]).
    cbn [map separated append]. rewrite !append_empty_r.
    now rewrite !append_assoc.
  - intros position. cbn [slc_operand_notation slc_operand_group].
    now rewrite pretty_numeral.
  - intros t IH. exact IH.
Qed.

(** X16.  The bracket parser reads back what name-preserving mode
    prints: when every allocation lands above the earlier ones, the text
    of a converted tree, given to [parse_toposet] and printed again, is
    the same text. *)
Theorem parse_toposet_reads_convert (node : ULC_AST_node) (lambda_depth : Z)
    (captured : list string) (t : resolved) (h h0 : heap) :
  resolve_term node captured = Some t ->
  exists text,
    rendered (convert_subset new_addr node lambda_depth captured) h
    = Returns text
    /\ rendered (parse_toposet new_addr text) h0 = Returns text.
Proof.
  intros Ht. exists (slc_notation t). split.
  - unfold rendered.
    rewrite (proj2 (convert_resolved new_addr _ _ _ Ht lambda_depth h)).
    destruct (emit_slc_notation new_addr addresses_grow t h)
      as (s & h' & -> & _ & ->).
    reflexivity.
  - rewrite slc_notation_pretty. unfold rendered, parse_toposet.
    rewrite parse_toposet_loop_braces, braces_pretty.
    rewrite <- (append_empty_r (print (slc_group t))).
    fold (parse_toposet new_addr (print (slc_group t) ++ "") h0).
    rewrite parse_toposet_first_group.
    destruct (build_increasing (slc_group t) h0) as (s & h' & -> & _ & ->).
    reflexivity.
Qed.

End RoundTrip.

Lemma parse_toposet_prints_first_group_witness :
  let g := Group [Group []; Group [Group []]] in
  braces "a { {} x { { } } } } {" = print g ++ "}{"
  /\ rendered (parse_toposet N.of_nat "a { {} x { { } } } } {") 0
     = Returns "{{}, {{}}}"
  /\ rendered (parse_toposet N.of_nat "{{}, {{}}}") 0 = Returns "{{}, {{}}}".
Proof.
  intros g. split; [reflexivity|].
  exact (parse_toposet_prints_first_group N.of_nat of_nat_increasing
           "a { {} x { { } } } } {" "}{" g 0 eq_refl).
Defined.

Lemma parse_toposet_reads_convert_witness :
  let x := ATOMIC (mk_token VARIABLE "x") in
  let node := DEFINITION x (APPLICATION x x) in
  parse_text 30 "\x.x x" = Some (Returns (Some node))
  /\ exists text,
       rendered (convert_subset N.of_nat node 0 []) 0 = Returns text
       /\ rendered (parse_toposet N.of_nat text) 0 = Returns text.
Proof.
  intros x node. split; [vm_compute; reflexivity|].
  apply (parse_toposet_reads_convert N.of_nat of_nat_increasing node 0 []
           (R_lambda (O_term (R_apply (O_index 1) (O_index 1)))) 0 0).
  reflexivity.
Defined.

(** ** The page script: [parseSet] *)

Section ParseSet.

Lemma parseSet_loop_empty_stack str hp :
  parseSet_loop str hp [] = js_type_error.
Proof.
  revert hp. induction str as [|ch str IH]; intros hp; [reflexivity|].
  cbn [parseSet_loop tl].
  destruct (Ascii.eqb ch "{"); [reflexivity|].
  destruct (Ascii.eqb ch "}"); apply IH.
Qed.

Lemma count_open ch str :
  opens (String ch str)
  = ((if Ascii.eqb ch "{" then 1 else 0) + opens str)%nat.
Proof. reflexivity. Qed.

Lemma count_close ch str :
  closes (String ch str)
  = ((if Ascii.eqb ch "}" then 1 else 0) + closes str)%nat.
Proof. reflexivity. Qed.

Lemma parseSet_loop_type_error str :
  forall hp stack,
    parseSet_loop str hp stack = js_type_error
    <-> exists pre post,
          str = pre ++ post
          /\ (List.length stack + opens pre <= closes pre)%nat.
Proof.
  induction str as [|ch str IH]; intros hp stack.
  - cbn [parseSet_loop]. split.
    + destruct (rev stack) as [|bottom l] eqn:E; [|discriminate].
      intros _. exists "", "". split; [reflexivity|].
      apply (f_equal (@rev _)) in E. rewrite rev_involutive in E. subst stack.
      cbn. lia.
    + intros (pre & post & E & H).
      destruct pre; [|discriminate]. cbn in H.
      destruct stack; [reflexivity|cbn in H; lia].
  - destruct stack as [|top stack].
    { rewrite parseSet_loop_empty_stack. split; [|reflexivity].
      intros _. exists "", (String ch str). split; [reflexivity|cbn; lia]. }
    cbn [parseSet_loop tl].
    assert (Hpre :
      (exists pre post, String ch str = pre ++ post
                        /\ (S (List.length stack) + opens pre <= closes pre)%nat)
      <-> (exists pre post, str = pre ++ post
             /\ (S (List.length stack)
                 + ((if Ascii.eqb ch "{" then 1 else 0) + opens pre)
                 <= (if Ascii.eqb ch "}" then 1 else 0) + closes pre)%nat)).
    { split.
      - intros (pre & post & E & H).
        apply prefix_of_String in E as [[-> ->]|(pre' & -> & ->)].
        + cbn in H. lia.
        + rewrite count_open, count_close in H. now exists pre', post.
      - intros (pre & post & -> & H). exists (String ch pre), post.
        split; [reflexivity|]. now rewrite count_open, count_close. }
    cbn [List.length]. rewrite Hpre.
    destruct (Ascii.eqb ch "{") eqn:Eo.
    + apply Ascii.eqb_eq in Eo. subst ch. cbn [Ascii.eqb Bool.eqb andb].
      rewrite IH. cbn [List.length].
      split; intros (pre & post & E & H); exists pre, post; (split; [exact E|lia]).
    + destruct (Ascii.eqb ch "}") eqn:Ec.
      * rewrite IH.
        split; intros (pre & post & E & H); exists pre, post;
          (split; [exact E|lia]).
      * rewrite IH. cbn [List.length].
        split; intros (pre & post & E & H); exists pre, post;
          (split; [exact E|lia]).
Qed.

(** X17.  [parseSet] fails, with the [TypeError] of reading a property
    of [undefined], exactly when some part of the text read from its
    start has more closing than opening braces; a text that ends with
    groups still open is not a failure. *)
Theorem parseSet_type_error (str : string) :
  parseSet str = js_type_error
  <-> exists pre post, str = pre ++ post /\ (opens pre < closes pre)%nat.
Proof.
  unfold parseSet. rewrite parseSet_loop_type_error. cbn [List.length].
  split; intros (pre & post & E & H); exists pre, post; (split; [exact E|lia]).
Qed.

End ParseSet.

Section ParseSetResult.

Lemma parseSet_loop_braces str :
  forall hp stack,
    parseSet_loop str hp stack = parseSet_loop (braces str) hp stack.
Proof.
  induction str as [|ch str IH]; intros hp stack; [reflexivity|].
  cbn [braces parseSet_loop]. unfold is_brace.
  destruct (Ascii.eqb ch "{") eqn:Eo; cbn [orb].
  - cbn [parseSet_loop]. rewrite Eo.
    destruct stack as [|top stack]; [reflexivity|]. apply IH.
  - destruct (Ascii.eqb ch "}") eqn:Ec.
    + cbn [parseSet_loop]. rewrite Eo, Ec. apply IH.
    + apply IH.
Qed.

Lemma braces_head ch b str :
  braces str = String ch b -> ch = "{"%char \/ ch = "}"%char.
Proof.
  induction str as [|c str IH]; cbn [braces]; [discriminate|].
  unfold is_brace.
  destruct (Ascii.eqb c "{") eqn:Eo; cbn [orb].
  - apply Ascii.eqb_eq in Eo. intros [= <- _]. now left.
  - destruct (Ascii.eqb c "}") eqn:Ec; [|exact IH].
    apply Ascii.eqb_eq in Ec. intros [= <- _]. now right.
Qed.

Lemma length_array_push n x hp :
  List.length (array_push n x hp) = List.length hp.
Proof.
  revert n. induction hp as [|a hp IH]; intros [|n]; simpl; auto.
Qed.

Lemma array_push_same n x hp a :
  nth_error hp n = Some a ->
  nth_error (array_push n x hp) n = Some (a ++ [x])%list.
Proof.
  revert n. induction hp as [|b hp IH]; intros [|n]; simpl; try discriminate.
  - now intros [= ->].
  - apply IH.
Qed.

Lemma array_push_other n x hp j :
  j <> n -> nth_error (array_push n x hp) j = nth_error hp j.
Proof.
  revert n j. induction hp as [|b hp IH]; intros [|n] [|j] H; simpl; auto;
    congruence.
Qed.

Lemma array_push_first n x hp first others :
  nth 0 hp [] = first :: others ->
  exists others', nth 0 (array_push n x hp) [] = first :: others'.
Proof.
  destruct hp as [|a hp]; [discriminate|]. simpl. intros ->.
  destruct n; simpl; eauto.
Qed.

Lemma root_at_bottom_tl stack : root_at_bottom stack -> root_at_bottom (tl stack).
Proof.
  intros [->|([|a above] & ->)]; [now left|now left|].
  right. now exists above.
Qed.

Lemma root_at_bottom_cons x stack :
  root_at_bottom stack -> stack <> [] -> root_at_bottom (x :: stack).
Proof.
  intros [->|(above & ->)] H; [easy|]. right. now exists (x :: above).
Qed.

(** The first element of the first array, once there, is what is
    returned. *)
Lemma parseSet_loop_first str :
  forall hp stack v hp' first others,
    parseSet_loop str hp stack = js_returns v hp' ->
    root_at_bottom stack ->
    nth 0 hp [] = first :: others ->
    v = js_array first.
Proof.
  induction str as [|ch str IH]; intros hp stack v hp' first others E Hroot Hfirst.
  - cbn [parseSet_loop] in E.
    destruct Hroot as [->|(above & ->)]; [discriminate|].
    rewrite rev_app_distr in E. cbn [rev app] in E.
    injection E as <- _. unfold array_get. now rewrite Hfirst.
  - cbn [parseSet_loop] in E.
    destruct (Ascii.eqb ch "{").
    + destruct stack as [|top stack]; [discriminate|].
      destruct (array_push_first top (List.length hp) (hp ++ [[]]) first others)
        as (others' & Hf).
      { destruct hp; [discriminate|exact Hfirst]. }
      apply (IH _ _ _ _ _ others' E); [|exact Hf].
      apply root_at_bottom_cons; [exact Hroot|discriminate].
    + destruct (Ascii.eqb ch "}").
      * apply (IH _ _ _ _ _ others E); [|exact Hfirst].
        now apply root_at_bottom_tl.
      * now apply (IH _ _ _ _ _ others E).
Qed.

(** X18.  What [parseSet] returns is [undefined] when the text has no
    brace at all, and the first array put into the first one otherwise:
    the array made for the first opening brace. *)
Theorem parseSet_result (str : string) (v : js_value) (hp : js_heap) :
  parseSet str = js_returns v hp ->
  (v = js_undefined <-> braces str = "")
  /\ (v = js_undefined \/ v = js_array 1).
Proof.
  unfold parseSet. rewrite parseSet_loop_braces.
  destruct (braces str) as [|ch b] eqn:Eb.
  - intros [= <- _]. split; [now split|now left].
  - destruct (braces_head _ _ _ Eb) as [-> | ->];
      cbn [parseSet_loop Ascii.eqb Bool.eqb andb tl List.length app array_push].
    + intros E.
      assert (Hv : v = js_array 1).
      { apply (parseSet_loop_first _ _ _ _ _ 1%nat [] E); [|reflexivity].
        right. now exists [1%nat]. }
      subst v. split; [split; discriminate|now right].
    + rewrite parseSet_loop_empty_stack. discriminate.
Qed.

Lemma array_shape_stable hp hp' low g :
  (forall j a, (low <= j)%nat -> nth_error hp j = Some a ->
               nth_error hp' j = Some a) ->
  forall id, array_shape hp low id g -> array_shape hp' low id g.
Proof.
  intros Hsame. induction g as [children IH] using group_induction.
  intros id H. inversion H as [id' ids children' Hlow Hn Hall]; subst.
  apply array_shape_intro with ids; [exact Hlow|now apply Hsame|].
  clear H Hn. induction Hall as [|i c ids cs Hi _ IHall]; constructor.
  - inversion IH; subst. auto.
  - inversion IH; subst. auto.
Qed.

Lemma array_shape_lower hp low low' g :
  (low' <= low)%nat ->
  forall id, array_shape hp low id g -> array_shape hp low' id g.
Proof.
  intros Hle. induction g as [children IH] using group_induction.
  intros id H. inversion H as [id' ids children' Hlow Hn Hall]; subst.
  apply array_shape_intro with ids; [lia|exact Hn|].
  clear H Hn. induction Hall as [|i c ids cs Hi _ IHall]; constructor.
  - inversion IH; subst. auto.
  - inversion IH; subst. auto.
Qed.

Lemma nth_error_app_new {A} (l : list A) (x : A) :
  nth_error (l ++ [x]) (List.length l) = Some x.
Proof. induction l as [|y l IH]; simpl; auto. Qed.

(** The arrays made for the groups [children], read with the array [n]
    on top of the stack. *)
Lemma parseSet_loop_children children :
  Forall (fun c => forall rest hp n stack,
            (n < List.length hp)%nat ->
            exists hp',
              parseSet_loop (print c ++ rest) hp (n :: stack)
              = parseSet_loop rest hp' (n :: stack)
              /\ grows hp n [List.length hp] hp'
              /\ array_shape hp' (List.length hp) (List.length hp) c)
         children ->
  forall rest hp n stack,
    (n < List.length hp)%nat ->
    exists hp' ids,
      parseSet_loop (print_list children ++ rest) hp (n :: stack)
      = parseSet_loop rest hp' (n :: stack)
      /\ grows hp n ids hp'
      /\ Forall2 (array_shape hp' (List.length hp)) ids children.
Proof.
  induction 1 as [|c l Hc _ IH]; intros rest hp n stack Hn.
  - exists hp, []. split; [reflexivity|]. split; [|constructor].
    split; [lia|]. split; [|auto]. intros a Ha. now rewrite app_nil_r.
  - cbn [print_list]. rewrite append_assoc.
    destruct (Hc (print_list l ++ rest) hp n stack Hn)
      as (hp1 & E1 & (Hlen1 & Hn1 & Ho1) & Hshape).
    destruct (IH rest hp1 n stack ltac:(lia))
      as (hp2 & ids & E2 & (Hlen2 & Hn2 & Ho2) & Hall).
    exists hp2, (List.length hp :: ids). rewrite E1, E2.
    split; [reflexivity|]. split; [split; [lia|split]|].
    + intros a Ha. rewrite (Hn2 _ (Hn1 _ Ha)). now rewrite <- app_assoc.
    + intros j Hj Hne. rewrite Ho2 by lia. now apply Ho1.
    + constructor.
      * apply array_shape_stable with hp1; [|exact Hshape].
        intros j a Hj Ha. rewrite Ho2; [exact Ha| |lia].
        apply nth_error_Some. congruence.
      * clear - Hall Hlen1.
        induction Hall as [|i c' ids cs Hi _ IHall]; constructor; auto.
        now apply array_shape_lower with (List.length hp1).
Qed.

Lemma parseSet_loop_group g :
  forall rest hp n stack,
    (n < List.length hp)%nat ->
    exists hp',
      parseSet_loop (print g ++ rest) hp (n :: stack)
      = parseSet_loop rest hp' (n :: stack)
      /\ grows hp n [List.length hp] hp'
      /\ array_shape hp' (List.length hp) (List.length hp) g.
Proof.
  induction g as [children IH] using group_induction.
  intros rest hp n stack Hn. rewrite print_eq, !append_assoc.
  cbn [append parseSet_loop Ascii.eqb Bool.eqb andb].
  set (m := List.length hp).
  set (hp1 := array_push n m (hp ++ [[]])%list).
  assert (Hlen1 : List.length hp1 = S m).
  { unfold hp1. rewrite length_array_push, length_app. simpl. lia. }
  assert (Hm1 : nth_error hp1 m = Some []).
  { unfold hp1. rewrite array_push_other by lia. apply nth_error_app_new. }
  destruct (parseSet_loop_children children IH (String "}" rest) hp1 m
              (n :: stack))
    as (hp2 & ids & E & (Hlen2 & Hm2 & Ho2) & Hall); [lia|].
  exists hp2. rewrite E.
  cbn [append parseSet_loop Ascii.eqb Bool.eqb andb tl].
  split; [reflexivity|]. split; [split; [lia|split]|].
  - intros a Ha. rewrite Ho2 by lia. unfold hp1.
    apply array_push_same. rewrite nth_error_app1 by exact Hn. exact Ha.
  - intros j Hj Hne. rewrite Ho2 by lia. unfold hp1.
    rewrite array_push_other by exact Hne. now rewrite nth_error_app1.
  - apply array_shape_intro with ids; [lia|exact (Hm2 [] Hm1)|].
    rewrite Hlen1 in Hall. clear - Hall.
    induction Hall as [|i c ids cs Hi _ IHall]; constructor; auto.
    apply array_shape_lower with (S m); [lia|exact Hi].
Qed.

Lemma parseSet_first_group str g :
  braces str = print g ->
  exists hp,
    parseSet str = js_returns (js_array 1) hp /\ array_shape hp 1 1 g.
Proof.
  intros E. unfold parseSet. rewrite parseSet_loop_braces, E.
  rewrite <- (append_empty_r (print g)).
  destruct (parseSet_loop_group g "" [[]] 0%nat []) as (hp & -> & Hg & Hshape);
    [simpl; lia|].
  destruct Hg as (_ & H0 & _). specialize (H0 [] eq_refl).
  exists hp. split; [|exact Hshape].
  cbn [parseSet_loop rev app]. unfold array_get.
  now rewrite (nth_error_nth _ _ _ H0).
Qed.

(** What has been made before the stack was left with the first array
    and arrays made later is not touched again. *)
Lemma parseSet_loop_frozen (made : nat) str :
  forall hp stack v hp',
    parseSet_loop str hp stack = js_returns v hp' ->
    (made <= List.length hp)%nat ->
    (forall id, In id stack -> id = 0%nat \/ (made <= id)%nat) ->
    forall j, (1 <= j < made)%nat -> nth_error hp' j = nth_error hp j.
Proof.
  induction str as [|ch str IH]; intros hp stack v hp' E Hlen Hstack j Hj.
  - cbn [parseSet_loop] in E. destruct (rev stack); [discriminate|].
    now injection E as _ <-.
  - cbn [parseSet_loop] in E.
    destruct (Ascii.eqb ch "{").
    + destruct stack as [|top stack]; [discriminate|].
      rewrite (IH _ _ _ _ E).
      * rewrite array_push_other.
        -- apply nth_error_app1. lia.
        -- destruct (Hstack top (or_introl eq_refl)); lia.
      * rewrite length_array_push, length_app. simpl. lia.
      * intros id [<-|Hin]; [right; lia|now apply Hstack].
      * exact Hj.
    + destruct (Ascii.eqb ch "}").
      * apply (IH _ _ _ _ E); auto.
        intros id Hin. apply Hstack. destruct stack; [easy|now right].
      * now apply (IH _ _ _ _ E).
Qed.

(** X19.  On a text whose braces begin with a complete group, whatever
    [parseSet] returns is an array with the nesting of that group: one
    array for each group inside it, in order, each with the arrays of the
    groups inside it in turn; what follows the group changes nothing in
    it.  When nothing follows, [parseSet] does return.  What is pushed
    into an array after the array has been put into its parent is seen
    from the parent. *)
Theorem parseSet_group (str rest : string) (g : group) :
  braces str = print g ++ rest ->
  (forall v hp,
     parseSet str = js_returns v hp ->
     v = js_array 1 /\ array_shape hp 1 1 g)
  /\ (rest = "" -> exists hp, parseSet str = js_returns (js_array 1) hp).
Proof.
  intros E. split.
  - intros v hp. unfold parseSet. rewrite parseSet_loop_braces, E.
    destruct (parseSet_loop_group g rest [[]] 0%nat [])
      as (hp1 & -> & (Hlen & H0 & _) & Hshape); [simpl; lia|].
    specialize (H0 [] eq_refl). cbn [List.length app] in *.
    intros Hr. split.
    + apply (parseSet_loop_first _ _ _ _ _ 1%nat [] Hr).
      * right. now exists [].
      * now rewrite (nth_error_nth _ _ _ H0).
    + apply array_shape_stable with hp1; [|exact Hshape].
      intros j a Hj Ha. rewrite <- Ha.
      apply (parseSet_loop_frozen (List.length hp1) _ _ _ _ _ Hr).
      * lia.
      * intros id [<-|[]]. now left.
      * split; [exact Hj|]. apply nth_error_Some. congruence.
  - intros ->. rewrite append_empty_r in E.
    destruct (parseSet_first_group str g E) as (hp & Hp & _). now exists hp.
Qed.

(** X20.  The page draws the term it prints: when every allocation
    lands above the earlier ones, [parseSet] applied to the text of a
    name-preserving conversion returns an array with the nesting of that
    term. *)
Theorem parseSet_reads_convert (new_addr : nat -> addr) (node : ULC_AST_node)
    (lambda_depth : Z) (captured : list string) (t : resolved) (h : heap) :
  increasing_addresses new_addr ->
  resolve_term node captured = Some t ->
  exists text hp,
    rendered (convert_subset new_addr node lambda_depth captured) h
    = Returns text
    /\ parseSet text = js_returns (js_array 1) hp
    /\ array_shape hp 1 1 (slc_group t).
Proof.
  intros Hinc Ht.
  destruct (parseSet_first_group (slc_notation t) (slc_group t)) as (hp & E & Hs).
  { rewrite slc_notation_pretty. apply braces_pretty. }
  exists (slc_notation t), hp. split; [|now split].
  unfold rendered.
  rewrite (proj2 (convert_resolved new_addr _ _ _ Ht lambda_depth h)).
  destruct (emit_slc_notation new_addr Hinc t h) as (s & h' & -> & _ & ->).
  reflexivity.
Qed.

End ParseSetResult.

Lemma parseSet_result_witness :
  let hp := [[1%nat]; [2%nat]; []] in
  parseSet "a{b{}}" = js_returns (js_array 1) hp
  /\ (js_array 1 = js_undefined <-> braces "a{b{}}" = "")
  /\ (js_array 1 = js_undefined \/ js_array 1 = js_array 1).
Proof.
  intros hp. split; [reflexivity|].
  apply (parseSet_result "a{b{}}" (js_array 1) hp). reflexivity.
Defined.

Lemma parseSet_group_witness :
  let g := Group [Group []; Group [Group []]] in
  let hp := [[1; 5]; [2; 3]; []; [4]; []; []]%nat in
  braces "{{}, {{}}} {}" = print g ++ "{}"
  /\ parseSet "{{}, {{}}} {}" = js_returns (js_array 1) hp
  /\ array_shape hp 1 1 g.
Proof.
  intros g hp. split; [reflexivity|]. split; [reflexivity|].
  apply (proj1 (parseSet_group "{{}, {{}}} {}" "{}" g eq_refl) (js_array 1) hp).
  reflexivity.
Defined.

Lemma parseSet_reads_convert_witness :
  let x := ATOMIC (mk_token VARIABLE "x") in
  let node := DEFINITION x (APPLICATION x x) in
  let t := R_lambda (O_term (R_apply (O_index 1) (O_index 1))) in
  (increasing_addresses N.of_nat /\ resolve_term node [] = Some t)
  /\ exists text hp,
       rendered (convert_subset N.of_nat node 0 []) 0 = Returns text
       /\ parseSet text = js_returns (js_array 1) hp
       /\ array_shape hp 1 1 (slc_group t).
Proof.
  intros x node t. split; [split; [exact of_nat_increasing|reflexivity]|].
  apply (parseSet_reads_convert N.of_nat node 0 [] t 0).
  - exact of_nat_increasing.
  - reflexivity.
Defined.

(** ** The earlier converter *)

Section EarlierNotation.

Variable new_addr : nat -> addr.

Hypothesis addresses_grow : increasing_addresses new_addr.

Ltac run_old_binds :=
  unfold bind, ret;
  repeat match goal with
         | |- context [match ?m ?h with Returns _ => _ | Throws _ => _ end] =>
             destruct (m h) as [[? ?]|?]
         end;
  reflexivity.

Lemma old_convert_subset_eq node h :
  old_convert_subset new_addr node h
  = match node with
    | DEFINITION binder body =>
        pl <- make_shared new_addr
                (set_insert (string_view_elt (text (value binder)))
                   [string_view_elt "λ"]) ;;
        e <- old_operand new_addr body ;;
        ret (set_insert e [pl])
    | APPLICATION f a =>
        ef <- old_operand new_addr f ;;
        pp <- make_shared new_addr (set_insert ef [string_view_elt "⊕"]) ;;
        ea <- old_operand new_addr a ;;
        ret (set_insert ea [pp])
    | GROUP None => ret []
    | GROUP (Some inner) => old_convert_subset new_addr inner
    | ATOMIC _ => ret []
    end h.
Proof.
  destruct node as [v|binder body|f a|[inner|]]; try reflexivity.
  - destruct body; cbn [old_convert_subset old_operand set_insert];
      run_old_binds.
  - destruct f, a; cbn [old_convert_subset old_operand set_insert];
      run_old_binds.
Qed.

Lemma atom_parts node :
  atom identifier node ->
  match node with
  | ATOMIC v => identifier (text v)
  | GROUP (Some inner) => expression identifier inner
  | GROUP None => True
  | _ => False
  end.
Proof. intros H. destruct H as [var [_ Hv]|inner Hi|]; auto. Qed.

Lemma spine_parts node :
  spine identifier node ->
  match node with
  | APPLICATION f a => spine identifier f /\ atom identifier a
  | _ => atom identifier node
  end.
Proof.
  intros H. destruct H as [node Ha|f a Hf Ha]; [|auto].
  destruct node; auto. now apply atom_parts in Ha.
Qed.

Lemma expression_parts node :
  expression identifier node ->
  match node with
  | DEFINITION binder body =>
      (exists var, binder = ATOMIC var /\ identifier (text var))
      /\ expression identifier body
  | _ => spine identifier node
  end.
Proof.
  intros H. destruct H as [var body [_ Hv] Hb|node Hs].
  - split; [now exists var|exact Hb].
  - destruct node; auto.
    apply spine_parts, atom_parts in Hs. contradiction.
Qed.

Lemma grammatical_parts node :
  grammatical node ->
  match node with
  | ATOMIC v => identifier (text v)
  | DEFINITION binder body =>
      (exists var, binder = ATOMIC var /\ identifier (text var))
      /\ grammatical body
  | APPLICATION f a => grammatical f /\ grammatical a
  | GROUP (Some inner) => grammatical inner
  | GROUP None => True
  end.
Proof.
  intros H.
  assert (Hs : spine identifier node ->
          match node with
          | ATOMIC v => identifier (text v)
          | DEFINITION _ _ => False
          | APPLICATION f a => grammatical f /\ grammatical a
          | GROUP (Some inner) => grammatical inner
          | GROUP None => True
          end).
  { intros Hsp. apply spine_parts in Hsp.
    destruct node as [v|binder body|f a|[inner|]].
    - now apply atom_parts in Hsp.
    - now apply atom_parts in Hsp.
    - destruct Hsp as [Hf Ha]. unfold grammatical. auto.
    - apply atom_parts in Hsp. unfold grammatical. auto.
    - exact I. }
  assert (Ha : atom identifier node -> spine identifier node)
    by apply spine_atom.
  destruct H as [H|[H|H]].
  - apply expression_parts in H.
    destruct node as [v|binder body|f a|[inner|]]; try now apply Hs.
    destruct H as [Hb He]. split; [exact Hb|]. unfold grammatical. auto.
  - destruct node as [v|binder body|f a|[inner|]]; try now apply Hs.
    now apply Hs in H.
  - destruct node as [v|binder body|f a|[inner|]]; try now apply Hs, Ha.
    now apply Ha, Hs in H.
Qed.

Lemma alnum_before_symbol c :
  isalnum c = true ->
  Ascii.compare c "206" = Lt /\ Ascii.compare c "226" = Lt.
Proof.
  destruct c as [b0 b1 b2 b3 b4 b5 b6 b7].
  destruct b0, b1, b2, b3, b4, b5, b6, b7; intros H;
    try discriminate H; split; reflexivity.
Qed.

Lemma identifier_before_symbols name :
  identifier name ->
  String.compare name "λ" = Lt /\ String.compare name "⊕" = Lt.
Proof.
  intros [Hne Hall]. destruct name as [|c name]; [now destruct Hne|].
  simpl in Hall. apply andb_prop in Hall as [Hc _].
  destruct (alnum_before_symbol c Hc) as [H1 H2].
  cbn [String.compare]. now rewrite H1, H2.
Qed.

Lemma old_operand_notation node :
  (grammatical node -> forall h, exists s h',
     old_convert_subset new_addr node h = Returns (s, h')
     /\ (h <= h')%nat /\ to_string s = old_notation node) ->
  grammatical node ->
  forall h, exists e h',
    old_operand new_addr node h = Returns (e, h')
    /\ (h <= h')%nat
    /\ match node with
       | ATOMIC v => e = string_view_elt (text v) /\ identifier (text v)
       | _ => later_operand new_addr h e
              /\ elt_to_string e = old_notation node
       end.
Proof.
  intros IH Hg h.
  assert (Hsub : (forall v, node <> ATOMIC v) ->
            exists e h',
              bind (old_convert_subset new_addr node) (make_shared new_addr) h
              = Returns (e, h')
              /\ (h <= h')%nat /\ later_operand new_addr h e
              /\ elt_to_string e = old_notation node).
  { intros _. destruct (IH Hg h) as (s & h1 & Hs & Hle & Hstr).
    eexists _, _. rewrite (bind_returns _ _ _ _ _ Hs).
    split; [reflexivity|]. split; [lia|].
    split; [now exists h1|]. now rewrite elt_to_string_shared_ptr. }
  destruct node as [v|binder body|f a|inner].
  - exists (string_view_elt (text v)), h. split; [reflexivity|].
    split; [lia|]. split; [reflexivity|]. now apply grammatical_parts in Hg.
  - destruct Hsub as (e & h' & E & Hle & Hl & Hs); [discriminate|].
    exists e, h'. auto.
  - destruct Hsub as (e & h' & E & Hle & Hl & Hs); [discriminate|].
    exists e, h'. auto.
  - destruct Hsub as (e & h' & E & Hle & Hl & Hs); [discriminate|].
    exists e, h'. auto.
Qed.

(** An operand next to the set made just before it: a name goes before
    the set, a set made later after it. *)
Lemma to_string_beside_pointer node e h s :
  match node with
  | ATOMIC v => e = string_view_elt (text v) /\ identifier (text v)
  | _ => later_operand new_addr (S h) e
         /\ elt_to_string e = old_notation node
  end ->
  to_string (set_insert e [shared_ptr_elt (new_addr h) s])
  = match node with
    | ATOMIC v => "{" ++ text v ++ ", " ++ to_string s ++ "}"
    | _ => "{" ++ to_string s ++ ", " ++ old_notation node ++ "}"
    end.
Proof.
  destruct node as [v|binder body|f a|inner].
  - intros [-> _]. cbn [set_insert elt_compare index Nat.compare].
    now rewrite to_string_pair, elt_to_string_shared_ptr.
  - intros [Hl Hs]. rewrite (set_insert_later new_addr addresses_grow) by exact Hl.
    now rewrite to_string_pair, elt_to_string_shared_ptr, Hs.
  - intros [Hl Hs]. rewrite (set_insert_later new_addr addresses_grow) by exact Hl.
    now rewrite to_string_pair, elt_to_string_shared_ptr, Hs.
  - intros [Hl Hs]. rewrite (set_insert_later new_addr addresses_grow) by exact Hl.
    now rewrite to_string_pair, elt_to_string_shared_ptr, Hs.
Qed.

Lemma to_string_beside_symbol node e h :
  match node with
  | ATOMIC v => e = string_view_elt (text v) /\ identifier (text v)
  | _ => later_operand new_addr h e /\ elt_to_string e = old_notation node
  end ->
  to_string (set_insert e [string_view_elt "⊕"])
  = match node with
    | ATOMIC v => "{" ++ text v ++ ", ⊕}"
    | _ => "{⊕, " ++ old_notation node ++ "}"
    end.
Proof.
  destruct node as [v|binder body|f a|inner].
  - intros [-> Hid]. cbn [set_insert elt_compare].
    rewrite (proj2 (identifier_before_symbols _ Hid)).
    now rewrite to_string_pair.
  - intros [Hl Hs]. rewrite (set_insert_after_symbol new_addr h) by exact Hl.
    now rewrite to_string_pair, Hs.
  - intros [Hl Hs]. rewrite (set_insert_after_symbol new_addr h) by exact Hl.
    now rewrite to_string_pair, Hs.
  - intros [Hl Hs]. rewrite (set_insert_after_symbol new_addr h) by exact Hl.
    now rewrite to_string_pair, Hs.
Qed.

Lemma old_notation_eq node :
  old_notation node
  = match node with
    | DEFINITION binder body =>
        match body with
        | ATOMIC v =>
            "{" ++ text v ++ ", " ++ ("{" ++ text (value binder) ++ ", λ}") ++ "}"
        | _ =>
            "{" ++ ("{" ++ text (value binder) ++ ", λ}") ++ ", "
            ++ old_notation body ++ "}"
        end
    | APPLICATION f a =>
        match a with
        | ATOMIC v =>
            "{" ++ text v ++ ", "
            ++ match f with
               | ATOMIC v => "{" ++ text v ++ ", ⊕}"
               | _ => "{⊕, " ++ old_notation f ++ "}"
               end ++ "}"
        | _ =>
            "{" ++ match f with
                   | ATOMIC v => "{" ++ text v ++ ", ⊕}"
                   | _ => "{⊕, " ++ old_notation f ++ "}"
                   end ++ ", " ++ old_notation a ++ "}"
        end
    | GROUP (Some inner) => old_notation inner
    | GROUP None => "{}"
    | ATOMIC _ => "{}"
    end.
Proof. destruct node as [v|binder body|f a|[inner|]]; reflexivity. Qed.

Lemma old_convert_subset_notation node :
  grammatical node ->
  forall h, exists s h',
    old_convert_subset new_addr node h = Returns (s, h')
    /\ (h <= h')%nat /\ to_string s = old_notation node.
Proof.
  induction node as [v|binder _ body IH|f IHf a IHa|inner IH|]
    using node_induction; intros Hg h;
    rewrite old_convert_subset_eq, old_notation_eq;
    pose proof (grammatical_parts _ Hg) as Hparts; cbn beta iota in Hparts.
  - exists [], h. repeat split. lia.
  - destruct Hparts as [(var & -> & Hid) Hbody].
    destruct (old_operand_notation body IH Hbody (S h))
      as (e & h1 & He & Hle & Hcase).
    eexists _, _. unfold make_shared at 1. unfold bind at 1.
    rewrite (bind_returns _ _ _ _ _ He).
    split; [reflexivity|]. split; [lia|].
    rewrite (to_string_beside_pointer body) by exact Hcase.
    cbn [set_insert elt_compare value].
    rewrite (proj1 (identifier_before_symbols _ Hid)), to_string_pair.
    destruct body; reflexivity.
  - destruct Hparts as [Hf Ha].
    destruct (old_operand_notation f IHf Hf h) as (ef & h1 & Ef & Hle1 & Hcf).
    destruct (old_operand_notation a IHa Ha (S h1)) as (ea & h2 & Ea & Hle2 & Hca).
    eexists _, _. rewrite (bind_returns _ _ _ _ _ Ef).
    unfold make_shared at 1. unfold bind at 1.
    rewrite (bind_returns _ _ _ _ _ Ea).
    split; [reflexivity|]. split; [lia|].
    rewrite (to_string_beside_pointer a) by exact Hca.
    rewrite (to_string_beside_symbol f _ h) by exact Hcf.
    destruct a; reflexivity.
  - now apply IH.
  - exists [], h. repeat split. lia.
Qed.

(** X21.  The earlier converter, which keeps the names, never fails on a
    parsed tree, and when every allocation lands above the earlier ones
    its text is the notation in which a name is printed before the symbol
    or the set it shares a set with: [{x, λ}] for the binder [x],
    [{f, ⊕}] for a variable in function position, [{⊕, F}] for a compound
    function, and a variable before the set next to it. *)
Theorem old_convert_notation (node : ULC_AST_node) (h : heap) :
  expression identifier node ->
  rendered (old_convert_subset new_addr node) h = Returns (old_notation node).
Proof.
  intros He. unfold rendered.
  destruct (old_convert_subset_notation node (or_introl He) h)
    as (s & h' & -> & _ & ->).
  reflexivity.
Qed.

End EarlierNotation.

Lemma old_convert_notation_witness :
  let x := mk_token VARIABLE "x" in
  let y := mk_token VARIABLE "y" in
  let node := DEFINITION (ATOMIC y) (DEFINITION (ATOMIC x) (ATOMIC y)) in
  parse_text 30 "\y.\x.y" = Some (Returns (Some node))
  /\ rendered (old_convert_subset N.of_nat node) 0
     = Returns "{{y, λ}, {y, {x, λ}}}".
Proof.
  intros x y node. split; [vm_compute; reflexivity|].
  assert (Hx : variable_token identifier x).
  { split; [reflexivity|]. split; [discriminate|reflexivity]. }
  assert (Hy : variable_token identifier y).
  { split; [reflexivity|]. split; [discriminate|reflexivity]. }
  apply (old_convert_notation N.of_nat of_nat_increasing node 0).
  apply expression_abstraction; [exact Hy|].
  apply expression_abstraction; [exact Hx|].
  apply expression_spine, spine_atom, atom_variable, Hy.
Defined.

(** ** The parser and the tokens of the text *)

Section Tokens.

Lemma lex_tokens_length n :
  forall lexer toks lexer',
    lex_tokens n lexer = Returns (toks, lexer') -> List.length toks = n.
Proof.
  induction n as [|n IH]; intros lexer toks lexer'; cbn [lex_tokens].
  - now intros [= <- _].
  - destruct (lexer_next_token lexer) as [[tok l1]|e]; [|discriminate].
    destruct (lex_tokens n l1) as [[ts l2]|e] eqn:E; [|discriminate].
    intros [= <- _]. simpl. f_equal. now apply IH with l1 l2.
Qed.

Lemma lex_tokens_snoc n :
  forall lexer toks l1 tok l2,
    lex_tokens n lexer = Returns (toks, l1) ->
    lexer_next_token l1 = Returns (tok, l2) ->
    lex_tokens (S n) lexer = Returns ((toks ++ [tok])%list, l2).
Proof.
  induction n as [|n IH]; intros lexer toks l1 tok l2.
  - cbn [lex_tokens]. intros [= <- <-] ->. reflexivity.
  - intros H Hn. cbn [lex_tokens] in H.
    destruct (lexer_next_token lexer) as [[t0 l0]|e] eqn:E0; [|discriminate].
    destruct (lex_tokens n l0) as [[ts l']|e] eqn:E; [|discriminate].
    injection H as <- <-.
    change (lex_tokens (S (S n)) lexer)
      with (match lexer_next_token lexer with
            | Throws e => Throws e
            | Returns (tok, lexer') =>
                match lex_tokens (S n) lexer' with
                | Returns (toks, lexer'') => Returns (tok :: toks, lexer'')
                | Throws e => Throws e
                end
            end).
    rewrite E0, (IH _ _ _ _ _ E Hn). reflexivity.
Qed.

Lemma lex_tokens_split n m :
  forall lexer toks lexer',
    lex_tokens (n + m) lexer = Returns (toks, lexer') ->
    exists l1,
      lex_tokens n lexer = Returns (firstn n toks, l1)
      /\ lex_tokens m l1 = Returns (skipn n toks, lexer').
Proof.
  induction n as [|n IH]; intros lexer toks lexer' H.
  - exists lexer. split; [reflexivity|exact H].
  - cbn [Nat.add lex_tokens] in H. cbn [lex_tokens].
    destruct (lexer_next_token lexer) as [[t0 l0]|e]; [|discriminate].
    destruct (lex_tokens (n + m) l0) as [[ts l']|e] eqn:E; [|discriminate].
    injection H as <- <-.
    destruct (IH _ _ _ E) as (l1 & H1 & H2).
    exists l1. cbn [firstn skipn]. now rewrite H1.
Qed.

Lemma tokens_begin_prefix source a b :
  tokens_begin source (a ++ b) -> tokens_begin source a.
Proof.
  intros [lexer H]. rewrite length_app in H.
  apply lex_tokens_split in H as (l1 & H & _).
  rewrite firstn_app, firstn_all, Nat.sub_diag in H. cbn [firstn] in H.
  rewrite app_nil_r in H. now exists l1.
Qed.

Lemma lexer_canonical lexer tok lexer' :
  lexer_next_token lexer = Returns (tok, lexer') -> canonical tok.
Proof.
  intros H. pose proof (lexer_variable_name _ _ _ H) as Hv.
  revert H Hv. unfold lexer_next_token, canonical.
  destruct (String.get _ (text_ lexer)) as [ch|];
    [|intros [= <- _] _; exact I].
  destruct (Ascii.eqb ch "."); [intros [= <- _] _; reflexivity|].
  destruct (Ascii.eqb ch "\"); [intros [= <- _] _; reflexivity|].
  destruct (Ascii.eqb ch "("); [intros [= <- _] _; reflexivity|].
  destruct (Ascii.eqb ch ")"); [intros [= <- _] _; reflexivity|].
  destruct (isalnum ch); [|discriminate].
  intros [= <- _] Hv. cbn [type] in *. now apply Hv.
Qed.

Lemma lex_tokens_canonical n :
  forall lexer toks lexer',
    lex_tokens n lexer = Returns (toks, lexer') -> Forall canonical toks.
Proof.
  induction n as [|n IH]; intros lexer toks lexer'; cbn [lex_tokens].
  - intros [= <- _]. constructor.
  - destruct (lexer_next_token lexer) as [[tok l1]|e] eqn:E0; [|discriminate].
    destruct (lex_tokens n l1) as [[ts l2]|e] eqn:E; [|discriminate].
    intros [= <- _]. constructor.
    + now apply lexer_canonical with (1 := E0).
    + now apply IH with l1 l2.
Qed.

Variable source : string.

Lemma tokens_split p : tokens_ p = (consumed p ++ ahead p)%list.
Proof. unfold consumed, ahead. now rewrite firstn_skipn. Qed.

Lemma length_consumed p :
  buffered source p -> List.length (consumed p) = token_id_ p.
Proof. intros [_ H]. unfold consumed. rewrite length_firstn. lia. Qed.

Lemma ahead_current p :
  buffered source p ->
  ahead p = current p :: skipn (S (token_id_ p)) (tokens_ p).
Proof. intros [_ H]. unfold ahead. now apply skipn_current. Qed.

Lemma buffered_canonical p : buffered source p -> canonical (current p).
Proof.
  intros [H Hid]. apply lex_tokens_canonical in H.
  rewrite Forall_forall in H. apply H. unfold current. now apply nth_In.
Qed.

Lemma ahead_begin p w more :
  buffered source p -> ahead p = (w ++ more)%list ->
  tokens_begin source (consumed p ++ w).
Proof.
  intros [H _] Ha. apply tokens_begin_prefix with more.
  rewrite <- app_assoc, <- Ha, <- tokens_split. now exists (lexer_ p).
Qed.

Lemma current_begin p :
  buffered source p -> tokens_begin source (consumed p ++ [current p]).
Proof.
  intros Hb. apply ahead_begin with (skipn (S (token_id_ p)) (tokens_ p));
    [exact Hb|]. now apply ahead_current.
Qed.

Lemma after_cursor p delta p' :
  buffered source p -> after source p delta p' ->
  token_id_ p' = (token_id_ p + List.length delta)%nat.
Proof.
  intros Hb [Hb' Hc]. apply (f_equal (@List.length _)) in Hc.
  rewrite length_app, !length_consumed in Hc by assumption. exact Hc.
Qed.

Lemma after_refl p : buffered source p -> after source p [] p.
Proof. intros H. split; [exact H|]. now rewrite app_nil_r. Qed.

Lemma after_trans p d1 p1 d2 p2 :
  after source p d1 p1 -> after source p1 d2 p2 ->
  after source p (d1 ++ d2) p2.
Proof.
  intros [_ H1] [Hb H2]. split; [exact Hb|]. now rewrite H2, H1, app_assoc.
Qed.

(** Setting the cursor back to where it was in [p]. *)
Lemma backtrack_after p delta p' :
  buffered source p -> after source p delta p' ->
  let back := mk_parser (lexer_ p') (tokens_ p') (token_id_ p) in
  buffered source back
  /\ consumed back = consumed p
  /\ ahead back = (delta ++ ahead p')%list.
Proof.
  intros Hb Ha back. pose proof (after_cursor _ _ _ Hb Ha) as Hid.
  destruct Ha as [[Hl' Hid'] Hc].
  assert (Hlen : List.length (consumed p) = token_id_ p)
    by now apply length_consumed.
  assert (Ht : tokens_ p' = (consumed p ++ delta ++ ahead p')%list).
  { rewrite (tokens_split p'), Hc. now rewrite <- app_assoc. }
  split; [split; [exact Hl'|cbn [back tokens_ token_id_]; lia]|].
  unfold consumed at 1, ahead at 1. cbn [back tokens_ token_id_].
  rewrite Ht, <- Hlen. split.
  - rewrite firstn_app, firstn_all, Nat.sub_diag. cbn [firstn].
    now rewrite app_nil_r.
  - rewrite skipn_app, skipn_all, Nat.sub_diag. reflexivity.
Qed.

Lemma answers_bind {A B} (m : P A) (k : A -> P B) p Q R E :
  answers m p Q E ->
  (forall a p', Q a p' -> answers (k a) p' R E) ->
  answers (pbind m k) p R E.
Proof.
  unfold answers, pbind. destruct (m p) as [[[a p']|e]|]; auto.
  intros HQ Hk. now apply Hk.
Qed.

Lemma answers_ret {A} (a : A) p (Q : A -> ULC_parser -> Prop) E :
  Q a p -> answers (pret a) p Q E.
Proof. intros H. exact H. Qed.

Lemma answers_weaken {A} (m : P A) p (Q R : A -> ULC_parser -> Prop)
    (E E' : Prop) :
  answers m p Q E -> (forall a p', Q a p' -> R a p') -> (E -> E') ->
  answers m p R E'.
Proof.
  unfold answers. destruct (m p) as [[[a p']|e]|]; auto.
Qed.

Lemma next_token_after p E :
  buffered source p ->
  answers next_token p (fun _ p' => after source p [current p] p') E.
Proof.
  intros [Hl Hid]. unfold answers, next_token.
  assert (Hcons : firstn (S (token_id_ p)) (tokens_ p)
                  = (consumed p ++ [current p])%list).
  { unfold consumed, current.
    rewrite <- (firstn_skipn (token_id_ p) (tokens_ p)) at 1.
    rewrite skipn_current by exact Hid.
    rewrite firstn_app, length_firstn, Nat.min_l by lia.
    replace (S (token_id_ p) - token_id_ p)%nat with 1%nat by lia.
    rewrite firstn_firstn, Nat.min_r by lia. reflexivity. }
  destruct (List.length (tokens_ p) <=? S (token_id_ p))%nat eqn:Hlen.
  - apply Nat.leb_le in Hlen.
    destruct (lexer_next_token (lexer_ p)) as [[tok lexer']|e] eqn:E1.
    + split.
      * split; cbn [tokens_ lexer_ token_id_].
        -- rewrite length_app. cbn [List.length].
           rewrite Nat.add_1_r. now apply lex_tokens_snoc with (lexer_ p).
        -- rewrite length_app. simpl. lia.
      * unfold consumed at 1. cbn [tokens_ token_id_].
        rewrite firstn_app, <- Hcons.
        replace (S (token_id_ p) - List.length (tokens_ p))%nat with 0%nat by lia.
        cbn [firstn]. now rewrite app_nil_r.
    + apply lexer_throws in E1 as [-> _]. discriminate.
  - split; [split; [exact Hl|]|].
    + apply Nat.leb_gt in Hlen. cbn [tokens_ token_id_]. lia.
    + exact Hcons.
Qed.

Lemma answers_peek {B} (k : ULC_token -> P B) p R E :
  answers (k (current p)) p R E -> answers (pbind peek k) p R E.
Proof. intros H. exact H. Qed.

Lemma token_type_eqb_neq a b : token_type_eqb a b = false -> a <> b.
Proof. intros H ->. now destruct b. Qed.

Lemma consume_type_after t p E :
  buffered source p ->
  answers (consume_type t) p
    (fun b p' =>
       if b then after source p [current p] p' /\ type (current p) = t
       else p' = p /\ type (current p) <> t) E.
Proof.
  intros Hb. unfold consume_type. apply answers_peek.
  destruct (token_type_eqb (type (current p)) t) eqn:Et.
  - apply token_type_eqb_eq in Et.
    eapply answers_bind; [now apply next_token_after|].
    intros tok p' Ha. apply answers_ret. now split.
  - apply token_type_eqb_neq in Et. apply answers_ret. now split.
Qed.

Lemma consume_variable_after p E :
  buffered source p ->
  answers consume_variable p
    (fun res p' =>
       match res with
       | Some node =>
           node = ATOMIC (current p) /\ type (current p) = VARIABLE
           /\ after source p [current p] p'
       | None => p' = p /\ type (current p) <> VARIABLE
       end) E.
Proof.
  intros Hb. unfold consume_variable. apply answers_peek.
  destruct (token_type_eqb (type (current p)) VARIABLE) eqn:Et.
  - apply token_type_eqb_eq in Et.
    eapply answers_bind; [now apply next_token_after|].
    intros tok p' Ha. apply answers_ret. cbn beta iota. auto.
  - apply token_type_eqb_neq in Et. apply answers_ret. now split.
Qed.

End Tokens.

Section ParserAnswers.

Variable source : string.

Lemma tokens_of_fold l :
  forall head,
    tokens_of (fold_left APPLICATION l head)
    = (tokens_of head ++ List.concat (map tokens_of l))%list.
Proof.
  induction l as [|a l IH]; intros head; cbn [fold_left map List.concat].
  - now rewrite app_nil_r.
  - rewrite IH. cbn [tokens_of]. now rewrite app_assoc.
Qed.

Lemma spine_fold l :
  Forall (atom identifier) l ->
  forall head, spine identifier head ->
               spine identifier (fold_left APPLICATION l head).
Proof.
  induction 1 as [|a l Ha _ IH]; intros head Hs; cbn [fold_left]; [exact Hs|].
  apply IH. now apply spine_application.
Qed.

Lemma reaches_trans K1 w K2 w' K3 :
  reaches K1 w K2 -> reaches K2 w' K3 -> reaches K1 (w ++ w') K3.
Proof.
  induction 1 as [K|K1 w1 K2 w2 K4 Hstep _ IH]; intros H; [exact H|].
  rewrite <- app_assoc. apply reaches_advance with K2; auto.
Qed.

Lemma unbalanced_from_advance K delta K1 suffix :
  advance K delta K1 -> unbalanced_from K1 suffix ->
  unbalanced_from K (delta ++ suffix).
Proof.
  intros Hstep (pre & K' & inner & rest & -> & Hreach & Hbad).
  exists (delta ++ pre)%list, K', inner, rest.
  split; [now rewrite app_assoc|]. split; [|exact Hbad].
  now apply reaches_advance with K1.
Qed.

Lemma fails_from_advance K p delta K1 p1 :
  after source p delta p1 -> advance K delta K1 ->
  fails_from source K1 p1 -> fails_from source K p.
Proof.
  intros [_ Hc] Hstep (suffix & Hbegin & Hbad).
  exists (delta ++ suffix)%list. split.
  - now rewrite app_assoc, <- Hc.
  - now apply unbalanced_from_advance with K1.
Qed.

Lemma answers_get_token_id {B} (k : nat -> P B) p R E :
  answers (k (token_id_ p)) p R E -> answers (pbind get_token_id k) p R E.
Proof. intros H. exact H. Qed.

Lemma answers_backtrack id p (Q : option ULC_AST_node -> ULC_parser -> Prop) E :
  Q None (mk_parser (lexer_ p) (tokens_ p) id) ->
  answers (_ <~ set_token_id id ;; pret None) p Q E.
Proof. intros H. exact H. Qed.

Lemma answers_throw {A} p (Q : A -> ULC_parser -> Prop) (E : Prop) :
  E -> answers (pthrow UnbalancedParenError) p Q E.
Proof. intros H _. exact H. Qed.

Lemma canonical_lambda tok :
  canonical tok -> type tok = LAMBDA -> tok = lambda_token.
Proof. unfold canonical. intros H Ht. now rewrite Ht in H. Qed.

Lemma canonical_dot tok : canonical tok -> type tok = DOT -> tok = dot_token.
Proof. unfold canonical. intros H Ht. now rewrite Ht in H. Qed.

Lemma canonical_open tok :
  canonical tok -> type tok = O_PAREN -> tok = open_token.
Proof. unfold canonical. intros H Ht. now rewrite Ht in H. Qed.

Lemma canonical_close tok :
  canonical tok -> type tok = C_PAREN -> tok = close_token.
Proof. unfold canonical. intros H Ht. now rewrite Ht in H. Qed.

Lemma canonical_variable tok :
  canonical tok -> type tok = VARIABLE -> variable_token identifier tok.
Proof. unfold canonical. intros H Hv. rewrite Hv in H. now split. Qed.

(** Giving up an abstraction after the tokens [delta]. *)
Lemma backtrack_read p delta p' w more :
  buffered source p -> after source p delta p' ->
  no_expression (delta ++ w) -> ahead p' = (w ++ more)%list ->
  expression_read source p None
    (mk_parser (lexer_ p') (tokens_ p') (token_id_ p)).
Proof.
  intros Hb Ha Hno Hw.
  destruct (backtrack_after source p delta p' Hb Ha) as (Hb' & Hc & Hahead).
  split; [exact Hb'|]. split; [exact Hc|].
  exists (delta ++ w)%list, more. split; [exact Hno|].
  now rewrite Hahead, Hw, app_assoc.
Qed.

(** The four parsing functions, together: what they return is written
    with the tokens they consume, and they throw only at a parenthesis
    that is not closed. *)
Lemma parser_answers (fuel : nat) :
  (forall p, buffered source p ->
     answers (parse_expression fuel) p (expression_read source p)
       (fails_from source at_expression p))
  /\ (forall head p, buffered source p ->
        answers (application_loop fuel head) p (arguments_read source head p)
          (fails_from source at_argument p))
  /\ (forall p, buffered source p -> type (current p) = LAMBDA ->
        answers (parse_abstraction fuel) p (expression_read source p)
          (fails_from source at_expression p))
  /\ (forall K p, buffered source p ->
        answers (parse_atomic fuel) p (atom_read source p)
          (fails_from source K p)).
Proof.
  induction fuel as [|fuel (IHe & IHl & IHb & IHa)].
  { unfold answers. repeat split; intros; exact I. }
  split; [|split; [|split]].
  - (* parse_expression *)
    intros p Hb. cbn [parse_expression]. apply answers_peek.
    destruct (token_type_eqb (type (current p)) LAMBDA) eqn:El.
    { apply token_type_eqb_eq in El. now apply IHb. }
    apply token_type_eqb_neq in El.
    eapply answers_bind; [apply (IHa at_expression p Hb)|].
    intros [a|] p1 Hr; unfold atom_read in Hr.
    + destruct Hr as [Hat Haf].
      eapply answers_weaken; [apply (IHl a p1), Haf| |].
      * intros res p2 (Hb2 & l & Hall & -> & Hc & Hst).
        split; [exact Hb2|]. split; [|split; [|exact Hst]].
        -- apply expression_spine, spine_fold; [exact Hall|now apply spine_atom].
        -- rewrite Hc, (proj2 Haf), tokens_of_fold. now rewrite app_assoc.
      * apply fails_from_advance with (tokens_of a); [exact Haf|].
        now apply advance_atom.
    + destruct Hr as [-> [Hv Ho]]. apply answers_ret.
      split; [exact Hb|]. split; [reflexivity|].
      exists [current p], (skipn (S (token_id_ p)) (tokens_ p)).
      split; [|now apply (ahead_current source)].
      apply no_expression_token. destruct (type (current p)); auto; congruence.
  - (* application_loop *)
    intros head p Hb. cbn [application_loop]. apply answers_peek.
    destruct (token_type_eqb (type (current p)) VARIABLE
              || token_type_eqb (type (current p)) O_PAREN) eqn:Ev.
    + eapply answers_bind; [apply (IHa at_argument p Hb)|].
      intros [a|] p1 Hr; unfold atom_read in Hr.
      * destruct Hr as [Hat Haf].
        eapply answers_weaken; [apply (IHl (APPLICATION head a) p1), Haf| |].
        -- intros res p2 (Hb2 & l & Hall & -> & Hc & Hst).
           split; [exact Hb2|]. exists (a :: l).
           split; [now constructor|]. split; [reflexivity|].
           split; [|exact Hst].
           cbn [map List.concat]. rewrite Hc, (proj2 Haf).
           now rewrite <- !app_assoc.
        -- apply fails_from_advance with (tokens_of a); [exact Haf|].
           now apply advance_atom.
      * destruct Hr as [-> Hst]. apply answers_ret.
        split; [exact Hb|]. exists []. split; [constructor|].
        split; [reflexivity|]. split; [|exact Hst].
        cbn [map List.concat]. now rewrite app_nil_r.
    + apply Bool.orb_false_iff in Ev as [Ev Eo].
      apply token_type_eqb_neq in Ev, Eo. apply answers_ret.
      split; [exact Hb|]. exists []. split; [constructor|].
      split; [reflexivity|]. split; [|now split].
      cbn [map List.concat]. now rewrite app_nil_r.
  - (* parse_abstraction *)
    intros p Hb Hl. cbn [parse_abstraction]. apply answers_get_token_id.
    pose proof (canonical_lambda _ (buffered_canonical source p Hb) Hl) as Hlam.
    eapply answers_bind; [now apply (consume_type_after source)|].
    intros [|] p1 H1; [|destruct H1 as [_ H1]; contradiction].
    destruct H1 as [Ha1 _]. rewrite Hlam in Ha1.
    eapply answers_bind; [apply (consume_variable_after source), Ha1|].
    intros [var|] p2 H2.
    + destruct H2 as (-> & Hv & Ha2).
      pose proof (canonical_variable _ (buffered_canonical source p1 (proj1 Ha1)) Hv)
        as Hvar.
      pose proof (after_trans source _ _ _ _ _ Ha1 Ha2) as Ha12.
      eapply answers_bind; [apply (consume_type_after source), Ha2|].
      intros [|] p3 H3.
      * destruct H3 as [Ha3 Hd].
        pose proof (canonical_dot _ (buffered_canonical source p2 (proj1 Ha2)) Hd)
          as Hdot.
        rewrite Hdot in Ha3.
        pose proof (after_trans source _ _ _ _ _ Ha12 Ha3) as Ha.
        cbn [app] in Ha.
        eapply answers_bind.
        { eapply answers_weaken; [apply (IHe p3), Ha3|intros res p4 H; exact H|].
          apply fails_from_advance with [lambda_token; current p1; dot_token];
            [exact Ha|now apply advance_binder]. }
        intros [body|] p4 H4.
        -- destruct H4 as (Hb4 & Hex & Hc & Hst). apply answers_ret.
           split; [exact Hb4|]. split; [|split; [|exact Hst]].
           ++ now apply expression_abstraction.
           ++ cbn [tokens_of value]. rewrite Hc, (proj2 Ha).
              now rewrite <- app_assoc.
        -- destruct H4 as (Hb4 & Hc & w & more & Hw & Hahead).
           apply answers_backtrack.
           apply backtrack_read
             with (delta := [lambda_token; current p1; dot_token])
                  (w := w) (more := more); auto.
           ++ split; [exact Hb4|]. rewrite Hc. apply Ha.
           ++ now apply no_expression_body.
      * destruct H3 as [-> Hnd]. apply answers_backtrack.
        apply backtrack_read
          with (delta := [lambda_token; current p1]) (w := [current p2])
               (more := skipn (S (token_id_ p2)) (tokens_ p2)); auto.
        -- now apply no_expression_dot.
        -- apply (ahead_current source), Ha2.
    + destruct H2 as [-> Hnv]. apply answers_backtrack.
      apply backtrack_read
        with (delta := [lambda_token]) (w := [current p1])
             (more := skipn (S (token_id_ p1)) (tokens_ p1)); auto.
      * now apply no_expression_variable.
      * apply (ahead_current source), Ha1.
  - (* parse_atomic *)
    intros K p Hb. cbn [parse_atomic].
    eapply answers_bind; [now apply (consume_type_after source)|].
    intros [|] p1 H1.
    + destruct H1 as [Ha1 Ho].
      rewrite (canonical_open _ (buffered_canonical source p Hb) Ho) in Ha1.
      eapply answers_bind.
      { eapply answers_weaken; [apply (IHe p1), Ha1|intros res p2 H; exact H|].
        apply fails_from_advance with [open_token];
          [exact Ha1|apply advance_open]. }
      intros inner p2 H2.
      assert (Hb2 : buffered source p2) by apply H2.
      eapply answers_bind; [now apply (consume_type_after source)|].
      intros [|] p3 H3; cbn [negb].
      * destruct H3 as [Ha3 Hc].
        rewrite (canonical_close _ (buffered_canonical source p2 Hb2) Hc) in Ha3.
        apply answers_ret. unfold atom_read.
        destruct inner as [e|].
        -- destruct H2 as (_ & Hex & Hc2 & _).
           split; [now apply atom_group|]. split; [apply Ha3|].
           rewrite (proj2 Ha3), Hc2, (proj2 Ha1). cbn [tokens_of].
           now rewrite <- !app_assoc.
        -- destruct H2 as (_ & Hc2 & _).
           split; [apply atom_empty|]. split; [apply Ha3|].
           rewrite (proj2 Ha3), Hc2, (proj2 Ha1). cbn [tokens_of].
           now rewrite <- !app_assoc.
      * destruct H3 as [-> Hnc]. apply answers_throw.
        destruct inner as [e|].
        -- destruct H2 as (_ & Hex & Hc2 & Hst).
           exists (open_token :: tokens_of e ++ [current p2])%list. split.
           ++ pose proof (current_begin source p2 Hb2) as Hbegin.
              rewrite Hc2, (proj2 Ha1) in Hbegin.
              now rewrite <- !app_assoc in Hbegin.
           ++ exists [], K, (tokens_of e), [current p2].
              split; [reflexivity|]. split; [constructor|].
              left. now exists e, (current p2).
        -- destruct H2 as (_ & Hc2 & w & more & Hw & Hahead).
           exists (open_token :: w). split.
           ++ pose proof (ahead_begin source p2 w more Hb2 Hahead) as Hbegin.
              rewrite Hc2, (proj2 Ha1) in Hbegin.
              now rewrite <- !app_assoc in Hbegin.
           ++ exists [], K, [], w.
              split; [reflexivity|]. split; [constructor|].
              right. split; [reflexivity|]. split; [exact Hw|].
              intros tok Hhd. rewrite (ahead_current source p2 Hb2) in Hahead.
              destruct w as [|t w]; [discriminate|].
              injection Hhd as ->. injection Hahead as <- _. exact Hnc.
    + destruct H1 as [-> Hno].
      eapply answers_weaken; [now apply (consume_variable_after source)| |intros H; exact H].
      intros [node|] p2 H2; unfold atom_read.
      * destruct H2 as (-> & Hv & Ha).
        split; [|exact Ha]. apply atom_variable.
        now apply canonical_variable, Hv; apply (buffered_canonical source).
      * destruct H2 as [-> Hnv]. split; [reflexivity|now split].
Qed.

End ParserAnswers.

Section ParserReads.

Variable source : string.
Variable toks : list ULC_token.

Hypothesis text_begins : tokens_begin source toks.

Lemma yields_bind {A B} (m : P A) (k : A -> P B) p Q R :
  yields m p Q ->
  (forall a p', Q a p' -> yields (k a) p' R) ->
  yields (pbind m k) p R.
Proof.
  unfold yields, pbind. intros Hm Hk r.
  destruct (m p) as [[[a p']|e]|] eqn:E; [| |discriminate].
  - destruct (Hm _ eq_refl) as (a' & p'' & [= <- <-] & HQ). now apply Hk.
  - destruct (Hm _ eq_refl) as (a' & p'' & Hr & _). discriminate.
Qed.

Lemma yields_ret {A} (a : A) p (Q : A -> ULC_parser -> Prop) :
  Q a p -> yields (pret a) p Q.
Proof. intros H r [= <-]. now exists a, p. Qed.

Lemma yields_peek {B} (k : ULC_token -> P B) p R :
  yields (k (current p)) p R -> yields (pbind peek k) p R.
Proof. intros H. exact H. Qed.

Lemma yields_get_token_id {B} (k : nat -> P B) p R :
  yields (k (token_id_ p)) p R -> yields (pbind get_token_id k) p R.
Proof. intros H. exact H. Qed.

Lemma yields_weaken {A} (m : P A) p (Q R : A -> ULC_parser -> Prop) :
  yields m p Q -> (forall a p', Q a p' -> R a p') -> yields m p R.
Proof.
  intros H HQR r Hr. destruct (H r Hr) as (a & p' & -> & HQ).
  exists a, p'. auto.
Qed.

Lemma gives_up_bind {A B} (m : P A) (k : A -> P B) p :
  gives_up m p -> gives_up (pbind m k) p.
Proof.
  unfold gives_up, pbind. intros Hm r.
  destruct (m p) as [[[a p']|e]|] eqn:E; [| |discriminate].
  - specialize (Hm _ eq_refl). discriminate.
  - specialize (Hm _ eq_refl). injection Hm as ->. now intros [= <-].
Qed.

Lemma yields_gives_up {A B} (m : P A) (k : A -> P B) p Q :
  yields m p Q ->
  (forall a p', Q a p' -> gives_up (k a) p') ->
  gives_up (pbind m k) p.
Proof.
  unfold yields, gives_up, pbind. intros Hm Hk r.
  destruct (m p) as [[[a p']|e]|] eqn:E; [| |discriminate].
  - destruct (Hm _ eq_refl) as (a' & p'' & [= <- <-] & HQ). now apply Hk.
  - destruct (Hm _ eq_refl) as (a' & p'' & Hr & _). discriminate.
Qed.

Lemma gives_up_peek {B} (k : ULC_token -> P B) p :
  gives_up (k (current p)) p -> gives_up (pbind peek k) p.
Proof. intros H. exact H. Qed.

Lemma gives_up_get_token_id {B} (k : nat -> P B) p :
  gives_up (k (token_id_ p)) p -> gives_up (pbind get_token_id k) p.
Proof. intros H. exact H. Qed.

Lemma stands_current p t rest :
  stands source toks p (t :: rest) -> current p = t.
Proof.
  intros [[Hb (more & Hm)] Ht].
  rewrite Hm, (tokens_split p), <- app_assoc in Ht.
  apply app_inv_head in Ht.
  rewrite (ahead_current source p Hb) in Ht. now injection Ht.
Qed.

Lemma stands_after p delta rest p' :
  stands source toks p (delta ++ rest) -> stands source toks p' rest ->
  after source p delta p'.
Proof.
  intros [_ Ht] [[Hb' _] Ht']. split; [exact Hb'|].
  rewrite Ht', app_assoc in Ht. now apply app_inv_tail in Ht.
Qed.

Lemma next_token_stands p t t' rest :
  stands source toks p (t :: t' :: rest) ->
  yields next_token p (fun _ p' => stands source toks p' (t' :: rest)).
Proof.
  intros Hs. pose proof (stands_current _ _ _ Hs) as Hcur.
  destruct Hs as [[Hb (more & Hm)] Ht].
  pose proof (next_token_after source p True Hb) as Hn.
  unfold answers in Hn. intros r Hr.
  assert (Hpost : forall tok p',
             next_token p = Some (Returns (tok, p')) ->
             (exists more', toks = (tokens_ p' ++ more')%list) ->
             exists a p'', Some (Returns (tok, p')) = Some (Returns (a, p''))
                           /\ stands source toks p'' (t' :: rest)).
  { intros tok p' E Hmore. rewrite E in Hn. exists tok, p'.
    split; [reflexivity|]. split; [split; [apply Hn|exact Hmore]|].
    rewrite (proj2 Hn), Hcur, <- app_assoc. exact Ht. }
  revert Hr. unfold next_token in *.
  destruct (List.length (tokens_ p) <=? S (token_id_ p))%nat eqn:Hlen.
  - apply Nat.leb_le in Hlen. destruct Hb as [Hl Hid].
    assert (Hall : tokens_ p = (consumed p ++ [t])%list).
    { rewrite (tokens_split p) at 1. f_equal.
      rewrite (ahead_current source p (conj Hl Hid)), Hcur. f_equal.
      apply skipn_all2. lia. }
    assert (Hmore : more = t' :: rest).
    { rewrite Hm, Hall, <- app_assoc in Ht. apply app_inv_head in Ht.
      now injection Ht. }
    destruct text_begins as [lexer Hlex].
    rewrite Hm, length_app in Hlex.
    apply lex_tokens_split in Hlex as (l1 & H1 & H2).
    rewrite firstn_app, firstn_all, Nat.sub_diag in H1. cbn [firstn] in H1.
    rewrite app_nil_r, Hl in H1. injection H1 as <-.
    rewrite skipn_app, skipn_all, Nat.sub_diag in H2. cbn [skipn app] in H2.
    rewrite Hmore in H2. cbn [List.length lex_tokens] in H2.
    destruct (lexer_next_token (lexer_ p)) as [[tok l2]|e]; [|discriminate].
    destruct (lex_tokens (List.length rest) l2) as [[ts l3]|e]; [|discriminate].
    injection H2 as -> _ _.
    intros [= <-]. 
    destruct (Hpost _ _ eq_refl) as (a & p'' & [= <- <-] & Hs').
    { exists rest. cbn [tokens_]. rewrite Hm, Hmore, <- app_assoc. reflexivity. }
    eexists _, _. split; [reflexivity|exact Hs'].
  - intros [= <-].
    destruct (Hpost _ _ eq_refl) as (a & p'' & [= <- <-] & Hs').
    { now exists more. }
    eexists _, _. split; [reflexivity|exact Hs'].
Qed.

Lemma consume_type_yes ty p t t' rest :
  stands source toks p (t :: t' :: rest) -> type t = ty ->
  yields (consume_type ty) p
    (fun b p' => b = true /\ stands source toks p' (t' :: rest)).
Proof.
  intros Hs Hty. unfold consume_type. apply yields_peek.
  rewrite (stands_current _ _ _ Hs), Hty.
  replace (token_type_eqb ty ty) with true by now destruct ty.
  eapply yields_bind; [apply next_token_stands with t; exact Hs|].
  intros tok p' Hs'. apply yields_ret. now split.
Qed.

Lemma consume_type_no ty p t rest :
  stands source toks p (t :: rest) -> type t <> ty ->
  yields (consume_type ty) p (fun b p' => b = false /\ p' = p).
Proof.
  intros Hs Hty. unfold consume_type. apply yields_peek.
  rewrite (stands_current _ _ _ Hs).
  destruct (token_type_eqb (type t) ty) eqn:E.
  - apply token_type_eqb_eq in E. contradiction.
  - apply yields_ret. now split.
Qed.

Lemma consume_variable_yes p t t' rest :
  stands source toks p (t :: t' :: rest) -> type t = VARIABLE ->
  yields consume_variable p
    (fun res p' => res = Some (ATOMIC t) /\ stands source toks p' (t' :: rest)).
Proof.
  intros Hs Hty. unfold consume_variable. apply yields_peek.
  rewrite (stands_current _ _ _ Hs), Hty. cbn [token_type_eqb].
  eapply yields_bind; [apply next_token_stands with t; exact Hs|].
  intros tok p' Hs'. apply yields_ret. now split.
Qed.

Lemma consume_variable_no p t rest :
  stands source toks p (t :: rest) -> type t <> VARIABLE ->
  yields consume_variable p (fun res p' => res = None /\ p' = p).
Proof.
  intros Hs Hty. unfold consume_variable. apply yields_peek.
  rewrite (stands_current _ _ _ Hs).
  destruct (token_type_eqb (type t) VARIABLE) eqn:E.
  - apply token_type_eqb_eq in E. contradiction.
  - apply yields_ret. now split.
Qed.

End ParserReads.

Section ParserComplete.

Variable source : string.
Variable toks : list ULC_token.

Hypothesis text_begins : tokens_begin source toks.

Lemma atom_first a :
  atom identifier a ->
  exists t ts, tokens_of a = t :: ts /\ (type t = VARIABLE \/ type t = O_PAREN).
Proof.
  intros H. destruct H as [var [Hv _]|inner _|]; cbn [tokens_of]; eauto.
Qed.

Lemma spine_atoms s :
  spine identifier s ->
  exists a0 l,
    atom identifier a0 /\ Forall (atom identifier) l
    /\ s = fold_left APPLICATION l a0.
Proof.
  induction 1 as [a Ha|f a Hf (a0 & l & Ha0 & Hl & ->) Ha].
  - exists a, []. repeat split; auto.
  - exists a0, (l ++ [a])%list. split; [exact Ha0|]. split.
    + apply Forall_app. auto.
    + now rewrite fold_left_app.
Qed.

Lemma expression_cases e :
  expression identifier e ->
  (exists v body, e = DEFINITION (ATOMIC v) body
                  /\ variable_token identifier v
                  /\ expression identifier body)
  \/ spine identifier e.
Proof.
  intros H. destruct H as [var body Hv Hb|node Hs]; [left|now right].
  now exists var, body.
Qed.

Lemma no_expression_nonempty w : no_expression w -> w <> [].
Proof. intros H. destruct H; discriminate. Qed.

Lemma backtrack_stands p delta rest p' :
  stands source toks p (delta ++ rest) -> stands source toks p' rest ->
  stands source toks (mk_parser (lexer_ p') (tokens_ p') (token_id_ p))
    (delta ++ rest).
Proof.
  intros Hs Hs'. pose proof (stands_after _ _ _ _ _ _ Hs Hs') as Ha.
  destruct Hs as [[Hb _] Ht], Hs' as [[_ Hmore] _].
  destruct (backtrack_after source p delta p' Hb Ha) as (Hb' & Hc & _).
  split; [split; [exact Hb'|exact Hmore]|]. now rewrite Hc.
Qed.

Lemma yields_backtrack id p (Q : option ULC_AST_node -> ULC_parser -> Prop) :
  Q None (mk_parser (lexer_ p) (tokens_ p) id) ->
  yields (_ <~ set_token_id id ;; pret None) p Q.
Proof. intros H r [= <-]. eexists _, _. split; [reflexivity|exact H]. Qed.

(** On a token that starts no expression nothing is read. *)
Lemma parse_expression_stops fuel p :
  type (current p) = DOT \/ type (current p) = C_PAREN
  \/ type (current p) = EOF_TOK ->
  yields (parse_expression fuel) p (fun res p' => res = None /\ p' = p).
Proof.
  intros H r. destruct fuel as [|[|fuel]].
  - discriminate.
  - cbn [parse_expression parse_atomic]. unfold pbind, peek, out_of_fuel.
    destruct (token_type_eqb _ LAMBDA) eqn:E; [|discriminate].
    apply token_type_eqb_eq in E. unfold current in H.
    rewrite E in H. destruct H as [H|[H|H]]; discriminate.
  - pose proof (parse_no_production fuel p H) as Hp. unfold parse in Hp.
    cbn [Nat.add] in Hp. rewrite Hp. intros [= <-]. now exists None, p.
Qed.

(** The parser reads back the tokens of a tree that are followed by a
    token that cannot go on an application. *)
Lemma parser_reads (fuel : nat) :
  (forall e p next rest,
      expression identifier e -> stops next ->
      stands source toks p (tokens_of e ++ next :: rest) ->
      yields (parse_expression fuel) p
        (fun res p' => res = Some e /\ stands source toks p' (next :: rest)))
  /\ (forall l head p next rest,
        Forall (atom identifier) l -> stops next ->
        stands source toks p (List.concat (map tokens_of l) ++ next :: rest) ->
        yields (application_loop fuel head) p
          (fun res p' =>
             res = Some (fold_left APPLICATION l head)
             /\ stands source toks p' (next :: rest)))
  /\ (forall v body p next rest,
        variable_token identifier v -> expression identifier body ->
        stops next ->
        stands source toks p
          (tokens_of (DEFINITION (ATOMIC v) body) ++ next :: rest) ->
        yields (parse_abstraction fuel) p
          (fun res p' =>
             res = Some (DEFINITION (ATOMIC v) body)
             /\ stands source toks p' (next :: rest)))
  /\ (forall a p t rest,
        atom identifier a ->
        stands source toks p (tokens_of a ++ t :: rest) ->
        yields (parse_atomic fuel) p
          (fun res p' => res = Some a /\ stands source toks p' (t :: rest))).
Proof.
  induction fuel as [|fuel (IHe & IHl & IHb & IHa)].
  { unfold yields. repeat split; intros; discriminate. }
  split; [|split; [|split]].
  - (* parse_expression *)
    intros e p next rest He Hst Hs. cbn [parse_expression]. apply yields_peek.
    destruct (expression_cases e He) as [(v & body & -> & Hv & Hb)|Hsp].
    + cbn [tokens_of value app] in Hs.
      rewrite (stands_current _ _ _ _ _ Hs). cbn [type lambda_token token_type_eqb].
      now apply IHb.
    + destruct (spine_atoms e Hsp) as (a0 & l & Ha0 & Hl & ->).
      rewrite tokens_of_fold, <- app_assoc in Hs.
      destruct (atom_first a0 Ha0) as (t & ts & Ht & Hty).
      assert (Hcur : current p = t).
      { rewrite Ht in Hs. now apply stands_current in Hs. }
      rewrite Hcur.
      replace (token_type_eqb (type t) LAMBDA) with false
        by (destruct Hty as [-> | ->]; reflexivity).
      destruct (List.concat (map tokens_of l) ++ next :: rest)%list
        as [|t1 rest1] eqn:Erest; [now destruct (List.concat (map tokens_of l))|].
      eapply yields_bind; [apply (IHa a0 p t1 rest1 Ha0 Hs)|].
      intros res p1 [-> Hs1]. rewrite <- Erest in Hs1.
      now apply IHl.
  - (* application_loop *)
    intros l head p next rest Hl Hst Hs. cbn [application_loop].
    apply yields_peek. destruct Hl as [|a l Ha Hl].
    + cbn [map List.concat app] in Hs.
      rewrite (stands_current _ _ _ _ _ Hs).
      destruct Hst as [Hv Ho].
      replace (token_type_eqb (type next) VARIABLE) with false
        by (destruct (type next); auto; congruence).
      replace (token_type_eqb (type next) O_PAREN) with false
        by (destruct (type next); auto; congruence).
      apply yields_ret. now split.
    + cbn [map List.concat] in Hs. rewrite <- app_assoc in Hs.
      destruct (atom_first a Ha) as (t & ts & Ht & Hty).
      assert (Hcur : current p = t).
      { rewrite Ht in Hs. now apply stands_current in Hs. }
      rewrite Hcur.
      replace (token_type_eqb (type t) VARIABLE
               || token_type_eqb (type t) O_PAREN) with true
        by (destruct Hty as [-> | ->]; reflexivity).
      destruct (List.concat (map tokens_of l) ++ next :: rest)%list
        as [|t1 rest1] eqn:Erest; [now destruct (List.concat (map tokens_of l))|].
      eapply yields_bind; [apply (IHa a p t1 rest1 Ha Hs)|].
      intros res p1 [-> Hs1]. rewrite <- Erest in Hs1.
      cbn [fold_left]. now apply IHl.
  - (* parse_abstraction *)
    intros v body p next rest [Hv Hid] Hb Hst Hs. cbn [parse_abstraction].
    apply yields_get_token_id. cbn [tokens_of value app] in Hs.
    eapply yields_bind;
      [apply (consume_type_yes source toks text_begins LAMBDA) with (1 := Hs);
       reflexivity|].
    intros b p1 [-> Hs1].
    destruct (tokens_of body ++ next :: rest)%list as [|t1 rest1] eqn:Erest;
      [now destruct (tokens_of body)|].
    eapply yields_bind;
      [apply (consume_variable_yes source toks text_begins) with (1 := Hs1);
       exact Hv|].
    intros var p2 [-> Hs2].
    eapply yields_bind;
      [apply (consume_type_yes source toks text_begins DOT) with (1 := Hs2);
       reflexivity|].
    intros b p3 [-> Hs3]. rewrite <- Erest in Hs3.
    eapply yields_bind; [now apply (IHe body p3 next rest)|].
    intros res p4 [-> Hs4]. apply yields_ret. now split.
  - (* parse_atomic *)
    intros a p t rest Ha Hs. cbn [parse_atomic].
    destruct Ha as [var [Hv Hid]|inner Hi|]; cbn [tokens_of app] in Hs.
    + eapply yields_bind;
        [apply (consume_type_no source toks O_PAREN) with (1 := Hs);
         rewrite Hv; discriminate|].
      intros b p1 [-> ->].
      apply (consume_variable_yes source toks text_begins) with (1 := Hs).
      exact Hv.
    + rewrite <- app_assoc in Hs. cbn [app] in Hs.
      destruct (tokens_of inner ++ close_token :: t :: rest)%list
        as [|t1 rest1] eqn:Erest; [now destruct (tokens_of inner)|].
      eapply yields_bind;
        [apply (consume_type_yes source toks text_begins O_PAREN) with (1 := Hs);
         reflexivity|].
      intros b p1 [-> Hs1]. rewrite <- Erest in Hs1.
      eapply yields_bind;
        [apply (IHe inner p1 close_token (t :: rest) Hi); [|exact Hs1];
         split; discriminate|].
      intros res p2 [-> Hs2].
      eapply yields_bind;
        [apply (consume_type_yes source toks text_begins C_PAREN) with (1 := Hs2);
         reflexivity|].
      intros b p3 [-> Hs3]. cbn [negb]. apply yields_ret. now split.
    + eapply yields_bind;
        [apply (consume_type_yes source toks text_begins O_PAREN) with (1 := Hs);
         reflexivity|].
      intros b p1 [-> Hs1].
      eapply yields_bind.
      { apply parse_expression_stops. rewrite (stands_current _ _ _ _ _ Hs1).
        right. now left. }
      intros res p2 [-> ->].
      eapply yields_bind;
        [apply (consume_type_yes source toks text_begins C_PAREN) with (1 := Hs1);
         reflexivity|].
      intros b p3 [-> Hs3]. cbn [negb]. apply yields_ret. now split.
Qed.

(** At tokens at which no expression starts, [parse_expression] returns
    null and sets the cursor back. *)
Lemma parse_expression_null w :
  no_expression w ->
  forall fuel p rest,
    stands source toks p (w ++ rest) ->
    yields (parse_expression fuel) p
      (fun res p' => res = None /\ stands source toks p' (w ++ rest)).
Proof.
  induction 1 as [tok Hty|tok Hnv|v tok Hv Hnd|v w Hv Hw IH];
    intros fuel p rest Hs.
  - eapply yields_weaken.
    + apply parse_expression_stops.
      cbn [app] in Hs. now rewrite (stands_current _ _ _ _ _ Hs).
    + now intros res p' [-> ->].
  - destruct fuel as [|[|fuel]]; try (intros r; discriminate).
    { cbn [parse_expression parse_abstraction]. intros r.
      unfold pbind, peek, out_of_fuel.
      now destruct (token_type_eqb _ LAMBDA). }
    cbn [parse_expression]. apply yields_peek. cbn [app] in Hs.
    rewrite (stands_current _ _ _ _ _ Hs). cbn [type lambda_token token_type_eqb].
    cbn [parse_abstraction]. apply yields_get_token_id.
    eapply yields_bind;
      [apply (consume_type_yes source toks text_begins LAMBDA) with (1 := Hs);
       reflexivity|].
    intros b p1 [-> Hs1].
    eapply yields_bind;
      [apply (consume_variable_no source toks) with (1 := Hs1); exact Hnv|].
    intros res p2 [-> ->]. apply yields_backtrack. split; [reflexivity|].
    now apply (backtrack_stands p [lambda_token] (tok :: rest) p1).
  - destruct fuel as [|[|fuel]]; try (intros r; discriminate).
    { cbn [parse_expression parse_abstraction]. intros r.
      unfold pbind, peek, out_of_fuel.
      now destruct (token_type_eqb _ LAMBDA). }
    cbn [parse_expression]. apply yields_peek. cbn [app] in Hs.
    rewrite (stands_current _ _ _ _ _ Hs). cbn [type lambda_token token_type_eqb].
    cbn [parse_abstraction]. apply yields_get_token_id.
    eapply yields_bind;
      [apply (consume_type_yes source toks text_begins LAMBDA) with (1 := Hs);
       reflexivity|].
    intros b p1 [-> Hs1].
    eapply yields_bind;
      [apply (consume_variable_yes source toks text_begins) with (1 := Hs1);
       exact Hv|].
    intros res p2 [-> Hs2].
    eapply yields_bind;
      [apply (consume_type_no source toks DOT) with (1 := Hs2); exact Hnd|].
    intros b p3 [-> ->]. apply yields_backtrack. split; [reflexivity|].
    now apply (backtrack_stands p [lambda_token; v] (tok :: rest) p2).
  - destruct fuel as [|[|fuel]]; try (intros r; discriminate).
    { cbn [parse_expression parse_abstraction]. intros r.
      unfold pbind, peek, out_of_fuel.
      now destruct (token_type_eqb _ LAMBDA). }
    cbn [parse_expression]. apply yields_peek. cbn [app] in Hs.
    rewrite (stands_current _ _ _ _ _ Hs). cbn [type lambda_token token_type_eqb].
    cbn [parse_abstraction]. apply yields_get_token_id.
    eapply yields_bind;
      [apply (consume_type_yes source toks text_begins LAMBDA) with (1 := Hs);
       reflexivity|].
    intros b p1 [-> Hs1].
    destruct (w ++ rest)%list as [|t1 rest1] eqn:Erest.
    { apply no_expression_nonempty in Hw. now destruct w. }
    eapply yields_bind;
      [apply (consume_variable_yes source toks text_begins) with (1 := Hs1);
       exact Hv|].
    intros res p2 [-> Hs2].
    eapply yields_bind;
      [apply (consume_type_yes source toks text_begins DOT) with (1 := Hs2);
       reflexivity|].
    intros b p3 [-> Hs3]. rewrite <- Erest in Hs3.
    eapply yields_bind; [apply (IH fuel p3 rest Hs3)|].
    intros res p4 [-> Hs4]. apply yields_backtrack. split; [reflexivity|].
    rewrite <- Erest in *.
    now apply (backtrack_stands p [lambda_token; v; dot_token] (w ++ rest) p4).
Qed.

End ParserComplete.

Section ParserGivesUp.

Variable source : string.
Variable toks : list ULC_token.

Hypothesis text_begins : tokens_begin source toks.

Lemma gives_up_throw {A} p : gives_up (@pthrow A UnbalancedParenError) p.
Proof. intros r [= <-]. reflexivity. Qed.

Lemma gives_up_out_of_fuel {A} p : gives_up (@out_of_fuel A) p.
Proof. intros r. discriminate. Qed.

(** A parenthesis that what follows does not close. *)
Lemma open_gives_up fuel p inner rest :
  not_closed inner rest ->
  stands source toks p (open_token :: inner ++ rest) ->
  gives_up (parse_atomic fuel) p.
Proof.
  intros Hbad Hs. destruct fuel as [|fuel]; [apply gives_up_out_of_fuel|].
  cbn [parse_atomic].
  destruct Hbad as [(e & next & He & -> & -> & Hst & Hnc)|(-> & Hw & Hhd)].
  - destruct (tokens_of e ++ [next])%list as [|t1 rest1] eqn:Erest;
      [now destruct (tokens_of e)|].
    eapply yields_gives_up;
      [apply (consume_type_yes source toks text_begins O_PAREN) with (1 := Hs);
       reflexivity|].
    intros b p1 [-> Hs1]. rewrite <- Erest in Hs1.
    eapply yields_gives_up;
      [apply (proj1 (parser_reads source toks text_begins fuel) e p1 next []);
       auto|].
    intros res p2 [-> Hs2].
    eapply yields_gives_up;
      [apply (consume_type_no source toks C_PAREN) with (1 := Hs2); exact Hnc|].
    intros b p3 [-> ->]. cbn [negb]. apply gives_up_throw.
  - cbn [app] in Hs. destruct rest as [|t rest].
    { now apply no_expression_nonempty in Hw. }
    eapply yields_gives_up;
      [apply (consume_type_yes source toks text_begins O_PAREN) with (1 := Hs);
       reflexivity|].
    intros b p1 [-> Hs1]. rewrite <- (app_nil_r (t :: rest)) in Hs1.
    eapply yields_gives_up;
      [apply (parse_expression_null source toks text_begins _ Hw fuel p1 []);
       exact Hs1|].
    intros res p2 [-> Hs2]. rewrite app_nil_r in Hs2.
    eapply yields_gives_up;
      [apply (consume_type_no source toks C_PAREN) with (1 := Hs2);
       now apply Hhd|].
    intros b p3 [-> ->]. cbn [negb]. apply gives_up_throw.
Qed.

(** A parenthesis inside which the parser gives up. *)
Lemma enter_gives_up fuel p t rest :
  stands source toks p (open_token :: t :: rest) ->
  (forall fuel' p1, stands source toks p1 (t :: rest) ->
                    gives_up (parse_expression fuel') p1) ->
  gives_up (parse_atomic fuel) p.
Proof.
  intros Hs Hin. destruct fuel as [|fuel]; [apply gives_up_out_of_fuel|].
  cbn [parse_atomic].
  eapply yields_gives_up;
    [apply (consume_type_yes source toks text_begins O_PAREN) with (1 := Hs);
     reflexivity|].
  intros b p1 [-> Hs1]. apply gives_up_bind. now apply Hin.
Qed.

Lemma expression_atomic_gives_up fuel p t rest :
  stands source toks p (t :: rest) ->
  type t = VARIABLE \/ type t = O_PAREN ->
  gives_up (parse_atomic fuel) p ->
  gives_up (parse_expression (S fuel)) p.
Proof.
  intros Hs Hty Hg. cbn [parse_expression]. apply gives_up_peek.
  rewrite (stands_current _ _ _ _ _ Hs).
  replace (token_type_eqb (type t) LAMBDA) with false
    by (destruct Hty as [-> | ->]; reflexivity).
  now apply gives_up_bind.
Qed.

Lemma loop_atomic_gives_up fuel head p t rest :
  stands source toks p (t :: rest) ->
  type t = VARIABLE \/ type t = O_PAREN ->
  gives_up (parse_atomic fuel) p ->
  gives_up (application_loop (S fuel) head) p.
Proof.
  intros Hs Hty Hg. cbn [application_loop]. apply gives_up_peek.
  rewrite (stands_current _ _ _ _ _ Hs).
  replace (token_type_eqb (type t) VARIABLE || token_type_eqb (type t) O_PAREN)
    with true by (destruct Hty as [-> | ->]; reflexivity).
  now apply gives_up_bind.
Qed.

(** The parser gives up at a parenthesis that is not closed, wherever it
    reaches it. *)
Lemma unbalanced_gives_up K pre K' :
  reaches K pre K' ->
  forall inner rest,
    not_closed inner rest ->
    forall fuel p,
      stands source toks p (pre ++ open_token :: inner ++ rest) ->
      match K with
      | at_expression => gives_up (parse_expression fuel) p
      | at_argument =>
          forall head, gives_up (application_loop fuel head) p
      end.
Proof.
  induction 1 as [K|K1 w K2 w' K3 Hadv _ IH]; intros inner rest Hbad fuel p Hs.
  - cbn [app] in Hs.
    assert (Ha : forall f, gives_up (parse_atomic f) p)
      by (intros f; now apply open_gives_up with inner rest).
    destruct K; [|intros head];
      (destruct fuel as [|fuel]; [apply gives_up_out_of_fuel|]).
    + apply expression_atomic_gives_up with (1 := Hs); [now right|apply Ha].
    + apply loop_atomic_gives_up with (1 := Hs); [now right|apply Ha].
  - rewrite <- app_assoc in Hs.
    destruct (w' ++ open_token :: inner ++ rest)%list as [|t1 rest1] eqn:Erest;
      [now destruct w'|].
    assert (IH' : forall fuel' p1,
               stands source toks p1 (t1 :: rest1) ->
               match K2 with
               | at_expression => gives_up (parse_expression fuel') p1
               | at_argument =>
                   forall head, gives_up (application_loop fuel' head) p1
               end).
    { intros fuel' p1 Hs1. rewrite <- Erest in Hs1. now apply (IH inner rest). }
    destruct Hadv as [v Hv|K|K a Ha].
    + (* over a binder *)
      destruct fuel as [|[|fuel]]; try apply gives_up_out_of_fuel.
      { cbn [parse_expression parse_abstraction]. intros r.
        unfold pbind, peek, out_of_fuel.
        now destruct (token_type_eqb _ LAMBDA). }
      cbn [app] in Hs. cbn [parse_expression]. apply gives_up_peek.
      rewrite (stands_current _ _ _ _ _ Hs).
      cbn [type lambda_token token_type_eqb parse_abstraction].
      apply gives_up_get_token_id.
      eapply yields_gives_up;
        [apply (consume_type_yes source toks text_begins LAMBDA) with (1 := Hs);
         reflexivity|].
      intros b p1 [-> Hs1].
      eapply yields_gives_up;
        [apply (consume_variable_yes source toks text_begins) with (1 := Hs1);
         exact Hv|].
      intros res p2 [-> Hs2].
      eapply yields_gives_up;
        [apply (consume_type_yes source toks text_begins DOT) with (1 := Hs2);
         reflexivity|].
      intros b p3 [-> Hs3]. apply gives_up_bind. now apply (IH' fuel p3).
    + (* into a parenthesis *)
      cbn [app] in Hs.
      assert (Ha : forall f, gives_up (parse_atomic f) p).
      { intros f. apply enter_gives_up with (1 := Hs).
        intros fuel' p1 Hs1. now apply (IH' fuel' p1). }
      destruct K; [|intros head];
        (destruct fuel as [|fuel]; [apply gives_up_out_of_fuel|]).
      * apply expression_atomic_gives_up with (1 := Hs); [now right|apply Ha].
      * apply loop_atomic_gives_up with (1 := Hs); [now right|apply Ha].
    + (* over an atom *)
      destruct (atom_first a Ha) as (t & ts & Ht & Hty).
      assert (Hcur : current p = t).
      { rewrite Ht in Hs. now apply stands_current in Hs. }
      destruct K; [|intros head];
        (destruct fuel as [|fuel]; [apply gives_up_out_of_fuel|]).
      * cbn [parse_expression]. apply gives_up_peek. rewrite Hcur.
        replace (token_type_eqb (type t) LAMBDA) with false
          by (destruct Hty as [-> | ->]; reflexivity).
        eapply yields_gives_up;
          [apply (proj2 (proj2 (proj2 (parser_reads source toks text_begins fuel)))
                    a p t1 rest1 Ha Hs)|].
        intros res p1 [-> Hs1]. now apply (IH' fuel p1).
      * cbn [application_loop]. apply gives_up_peek. rewrite Hcur.
        replace (token_type_eqb (type t) VARIABLE
                 || token_type_eqb (type t) O_PAREN) with true
          by (destruct Hty as [-> | ->]; reflexivity).
        eapply yields_gives_up;
          [apply (proj2 (proj2 (proj2 (parser_reads source toks text_begins fuel)))
                    a p t1 rest1 Ha Hs)|].
        intros res p1 [-> Hs1]. now apply (IH' fuel p1).
Qed.

End ParserGivesUp.

(** ** What [parse] answers *)

Section ParseAnswers.

Lemma new_parser_buffered source p :
  new_parser (mk_lexer source 0) = Returns p ->
  buffered source p /\ consumed p = [].
Proof.
  unfold new_parser.
  destruct (lexer_next_token (mk_lexer source 0)) as [[tok l]|e] eqn:E;
    [|discriminate].
  intros [= <-]. split; [|reflexivity].
  split; cbn [tokens_ lexer_ token_id_ List.length lex_tokens]; [|lia].
  now rewrite E.
Qed.

Lemma new_parser_stands source t toks :
  tokens_begin source (t :: toks) ->
  exists p,
    new_parser (mk_lexer source 0) = Returns p
    /\ stands source (t :: toks) p (t :: toks).
Proof.
  intros [lexer H]. pose proof H as H0. cbn [List.length lex_tokens] in H.
  unfold new_parser.
  destruct (lexer_next_token (mk_lexer source 0)) as [[tok l]|e] eqn:E;
    [|discriminate].
  destruct (lex_tokens (List.length toks) l) as [[ts l']|e]; [|discriminate].
  injection H as -> -> _.
  eexists. split; [reflexivity|].
  split; [split|reflexivity].
  - split; cbn [tokens_ lexer_ token_id_ List.length lex_tokens]; [|lia].
    now rewrite E.
  - now exists toks.
Qed.

(** What [parse] has answered is written in the tokens of the text. *)
Lemma parse_text_sound fuel source r :
  parse_text fuel source = Some r ->
  match r with
  | Returns (Some node) =>
      exists next,
        expression identifier node /\ stops next
        /\ tokens_begin source (tokens_of node ++ [next])
  | Returns None => exists w, no_expression w /\ tokens_begin source w
  | Throws e =>
      e = UnbalancedParenError ->
      exists toks,
        unbalanced_from at_expression toks /\ tokens_begin source toks
  end.
Proof.
  unfold parse_text, parse.
  destruct (new_parser (mk_lexer source 0)) as [p|e] eqn:En.
  - destruct (new_parser_buffered _ _ En) as [Hb Hc].
    pose proof (proj1 (parser_answers source fuel) p Hb) as Ha.
    unfold answers in Ha.
    destruct (parse_expression fuel p) as [[[res p']|e]|]; [| |discriminate].
    + intros [= <-]. destruct Ha as [Hb' Hres]. destruct res as [node|].
      * destruct Hres as (Hex & Hcons & Hst). exists (current p').
        split; [exact Hex|]. split; [exact Hst|].
        pose proof (current_begin source p' Hb') as Hbegin.
        now rewrite Hcons, Hc in Hbegin.
      * destruct Hres as (Hcons & w & more & Hw & Hahead). exists w.
        split; [exact Hw|].
        pose proof (ahead_begin source p' w more Hb' Hahead) as Hbegin.
        now rewrite Hcons, Hc in Hbegin.
    + intros [= <-] He. destruct (Ha He) as (suffix & Hbegin & Hbad).
      exists suffix. split; [exact Hbad|]. now rewrite Hc in Hbegin.
  - intros [= <-] ->. unfold new_parser in En.
    destruct (lexer_next_token (mk_lexer source 0)) as [[tok l]|e] eqn:E;
      [discriminate|].
    injection En as ->. apply lexer_throws in E as [E _]. discriminate.
Qed.

(** The tokens of the text settle what [parse] answers. *)
Lemma parse_text_complete fuel source r :
  parse_text fuel source = Some r ->
  (forall node next,
      expression identifier node -> stops next ->
      tokens_begin source (tokens_of node ++ [next]) ->
      r = Returns (Some node))
  /\ (forall w, no_expression w -> tokens_begin source w -> r = Returns None)
  /\ (forall toks,
        unbalanced_from at_expression toks -> tokens_begin source toks ->
        r = Throws UnbalancedParenError).
Proof.
  intros Hr.
  assert (Hrun : forall p x,
             new_parser (mk_lexer source 0) = Returns p ->
             parse_expression fuel p = Some x ->
             r = match x with
                 | Returns (root, _) => Returns root
                 | Throws e => Throws e
                 end).
  { intros p x En Ex. unfold parse_text, parse in Hr.
    rewrite En, Ex in Hr. destruct x as [[root p']|e]; now injection Hr. }
  assert (Hsome : forall p,
             new_parser (mk_lexer source 0) = Returns p ->
             exists x, parse_expression fuel p = Some x).
  { intros p En. unfold parse_text, parse in Hr. rewrite En in Hr.
    destruct (parse_expression fuel p) as [x|]; [now exists x|discriminate]. }
  split; [|split].
  - intros node next He Hst Hbegin.
    destruct (tokens_of node ++ [next])%list as [|t toks] eqn:Etoks;
      [now destruct (tokens_of node)|].
    destruct (new_parser_stands _ _ _ Hbegin) as (p & En & Hs).
    destruct (Hsome p En) as (x & Ex). rewrite (Hrun p x En Ex).
    rewrite <- Etoks in Hs at 2.
    destruct (proj1 (parser_reads source _ Hbegin fuel) node p next [] He Hst Hs
                x Ex) as (res & p' & -> & -> & _).
    reflexivity.
  - intros w Hw Hbegin. destruct w as [|t toks];
      [now apply no_expression_nonempty in Hw|].
    destruct (new_parser_stands _ _ _ Hbegin) as (p & En & Hs).
    destruct (Hsome p En) as (x & Ex). rewrite (Hrun p x En Ex).
    rewrite <- (app_nil_r (t :: toks)) in Hs at 2.
    destruct (parse_expression_null source _ Hbegin _ Hw fuel p [] Hs x Ex)
      as (res & p' & -> & -> & _).
    reflexivity.
  - intros toks (pre & K & inner & rest & -> & Hreach & Hbad) Hbegin.
    destruct (pre ++ open_token :: inner ++ rest)%list as [|t toks] eqn:Etoks;
      [now destruct pre|].
    destruct (new_parser_stands _ _ _ Hbegin) as (p & En & Hs).
    destruct (Hsome p En) as (x & Ex). rewrite (Hrun p x En Ex).
    rewrite <- Etoks in Hs at 2.
    pose proof (unbalanced_gives_up source _ Hbegin _ _ _ Hreach inner rest Hbad
                  fuel p Hs) as Hg.
    cbn beta iota in Hg. now rewrite (Hg x Ex).
Qed.


End ParseAnswers.


